(** * EasyTweeter: polling and state tracking of a scheduled Twitter bot

    A shallow embedding of [EasyTweeter.py] (class [EasyTweeter]) and the
    properties of its cadence gate, its five update checks and its post
    operation.

    What is modelled, and how:
    - Python integers are [Z], without the limit that recent versions of
      Python put on the number of digits [int] and [str] convert; a
      Python string is the string of the bytes of its UTF-8 encoding.
      [str(int)] is the decimal printer of the Standard Library;
      [int(str)] is [py_int]: surrounding white space, an optional sign,
      and decimal digits with single underscores between them.  On text
      that is not ASCII the built-ins are narrower than Python's ([int]
      also reads non-ASCII digits, [strip] and [int] also remove
      non-ASCII white space, [lower] also folds non-ASCII letters);
      statements that depend on [int] rejecting a value are made for
      ASCII values.
    - A [configparser.ConfigParser] is a map from section names to maps
      from option names to raw values, the section DEFAULT among them.
      Option names are held in the lower-case form [optionxform] gives
      them.  Reading an option ([getitem]) falls back on DEFAULT and
      interpolates the value as [BasicInterpolation] does.  A file on
      disk is either such a map or text that [read_file] rejects.
    - The state directory is a record with one field per file the class
      reads or writes.  Opening a file for writing and creating the
      directory always succeed.
    - The tweepy API object is a record of functions [Remote]; every call
      can fail.  A paginated [Cursor(...).items(n)] delivers a list, cut
      to [n] items when [n > 0], or delivers some items and then fails.
    - Effects are a state-and-exception monad over [World]; every remote
      call, file write, sleep, hook invocation and log line of level info
      or above is appended to a chronological trace.  Debug-level log lines
      have no entry in the trace.  Hook methods are recorded, not run:
      their default bodies only log. *)

From Stdlib Require Import ZArith String Ascii List DecimalString DecimalZ DecimalPos.
From Stdlib Require Import Sorting.Sorted Sorting.Permutation.
From stdpp Require Import base option list gmap strings.

Local Open Scope string_scope.
Local Open Scope Z_scope.
Local Open Scope list_scope.

(** ** Python built-ins *)

Module Py.

(** [str(n)] for an integer [n]. *)
Definition str (n : Z) : string := NilZero.string_of_int (Z.to_int n).

(** [str(x)] for [x] a string or [None]. *)
Definition str_opt (m : option string) : string :=
  match m with Some s => s | None => "None" end.

(** The bytes 10xxxxxx, which continue a UTF-8 sequence. *)
Definition is_continuation (a : ascii) : bool :=
  match a with
  | Ascii _ _ _ _ _ _ false true => true
  | _ => false
  end.

(** [len(s)]: the number of code points, one for every byte that does
    not continue a sequence. *)
Definition len (s : string) : Z :=
  Z.of_nat (length (List.filter (λ a, negb (is_continuation a))
                      (list_ascii_of_string s))).

(** [needle in haystack] on strings. *)
Definition contains (needle haystack : string) : bool :=
  match String.index 0 needle haystack with Some _ => true | None => false end.

(** The ASCII characters [str.strip] removes. *)
Definition is_space (a : ascii) : bool :=
  match a with
  | " " | "009" | "010" | "011" | "012" | "013" | "028" | "029" | "030" | "031" => true
  | _ => false
  end%char.

Fixpoint lstrip (l : list ascii) : list ascii :=
  match l with
  | a :: l' => if is_space a then lstrip l' else l
  | [] => []
  end.

(** [s.strip()] *)
Definition strip (s : string) : string :=
  string_of_list_ascii
    (rev (lstrip (rev (lstrip (list_ascii_of_string s))))).

Definition is_digit (a : ascii) : bool :=
  let n := nat_of_ascii a in ((48 <=? n) && (n <=? 57))%nat.

(** Digits with single underscores between them; [after_digit] tells
    whether the character before was a digit. *)
Fixpoint digits_ok (after_digit : bool) (l : list ascii) : bool :=
  match l with
  | [] => after_digit
  | a :: l' =>
      if is_digit a then digits_ok true l'
      else if Ascii.eqb a "_" then after_digit && digits_ok false l'
      else false
  end.

(** [int(s)]: white space around, an optional sign, and decimal digits
    with single underscores between them; [None] stands for
    [ValueError]. *)
Definition py_int (s : string) : option Z :=
  let l := list_ascii_of_string (strip s) in
  let '(negative, body) :=
    match l with
    | a :: l' =>
        if Ascii.eqb a "-" then (true, l')
        else if Ascii.eqb a "+" then (false, l')
        else (false, l)
    | [] => (false, [])
    end in
  if digits_ok false body then
    n ← NilZero.uint_of_string
          (string_of_list_ascii (List.filter (λ a, negb (Ascii.eqb a "_")) body));
    Some (if negative then - Z.of_uint n else Z.of_uint n)
  else None.

End Py.
Export Py.

(** ** configparser *)

Abbreviation section := (gmap string string).
Abbreviation ConfigParser := (gmap string section).

(** A file as [read_file] sees it. *)
Inductive ini_file :=
| Unparseable
| Ini (c : ConfigParser).

(** ** tweepy objects *)

Record status := {
  id : Z;
  in_reply_to_user_id : option Z;
  favorite_count : Z;
  text : string
}.

Record user := {
  user_id : Z;
  screen_name : string
}.

(** ** Exceptions *)

Inductive exn :=
| ValueError (msg : string)
| TypeError
| KeyError (key : string)
| FileNotFoundError
| ConfigParserError
| TweepError (reason : string)
| RateLimitError (reason : string)
| RateLimitRetriesExceeded
| MissingPermissionsError
| InterpolationSyntaxError
| InterpolationMissingOptionError (option : string)
| InterpolationDepthError
| AttributeError.

Inductive outcome (A : Type) :=
| Ret (a : A)
| Raise (e : exn).
Arguments Ret {A} a.
Arguments Raise {A} e.

(** ** The remote API ([self.api]) *)

Record credentials := {
  ConsumerKey : string;
  ConsumerSecret : string;
  AccessToken : string;
  AccessTokenSecret : string
}.

(** What a paginated endpoint has to deliver: all of its items ([inr]),
    or some items and then an error ([inl]). *)
Definition feed (A : Type) : Type := list A * exn + list A.

Record Remote := {
  verify_credentials : credentials → exn + bool;
  (** [update_status n m]: the answer to the [n]-th submission
      (counting from 0) of one [tweet] call. *)
  update_status : nat → option string → exn + status;
  (** [rate_limit_status n]: the error, if any, of the rate-limit query
      that follows the [n]-th submission. *)
  rate_limit_status : nat → option exn;
  retweets_of_me : option string → feed status;
  home_timeline : option string → feed status;
  direct_messages : option string → feed status;
  followers : feed user;
  user_timeline : feed status;
  (** [me n]: the answer to the [n]-th [me()] request (counting from 0)
      of one check: an error, or the identifier of the account. *)
  me : nat → exn + Z
}.

(** [Cursor(...).items(limit)]: tweepy's item iterator stops after [limit]
    items only when [limit > 0]. *)
Definition items {A} (limit : Z) (l : list A) : list A :=
  if 0 <? limit then firstn (Z.to_nat limit) l else l.

(** What the iterator yields before it stops, and the error it stops
    with, if any: the error of a feed is met only when the iterator asks
    for more than the feed delivered. *)
Definition yielded {A} (limit : Z) (answer : feed A) : list A * option exn :=
  match answer with
  | inr l => (items limit l, None)
  | inl (l, e) =>
      if (0 <? limit) && (limit <=? Z.of_nat (length l))
      then (items limit l, None)
      else (l, Some e)
  end.

(** ** State directory *)

Record FS := {
  state_dir : bool;
  credentials_ini : option ini_file;
  UpdateCheckInterval_ini : option ini_file;
  latest_ini : option ini_file;
  followers_txt : option (list string);
  favorites_ini : option ini_file
}.

Inductive state_file := F_UpdateCheckInterval | F_latest | F_followers | F_favorites.

(** ** Observable events *)

Inductive level := INFO | WARNING | ERROR.

(** What [handleFavorite] receives as the previous count: the stored
    string, or the integer 0 of a first sighting. *)
Inductive known_count :=
| KnownStr (s : string)
| KnownInt (n : Z).

Inductive hook :=
| handleTweet (t : status)
| handleNewFollower (f : user)
| handleFavorite (t : status) (previous : known_count)
| handleReply (t : status)
| handleRetweet (t : status)
| handleDM (t : status).

Inductive api_call :=
| c_verify_credentials
| c_update_status (m : option string)
| c_rate_limit_status
| c_retweets_of_me (since_id : option string)
| c_home_timeline (since_id : option string)
| c_direct_messages (since_id : option string)
| c_followers
| c_user_timeline
| c_me.

Inductive event :=
| Log (l : level) (msg : string)
| LogException (msg : string) (e : exn)
| Call (c : api_call)
| Sleep (seconds : Z)
| Makedirs
| WriteFile (f : state_file)
| Hook (h : hook).

(** ** The bot and its world *)

Record World := {
  sleep : Z;              (* self.sleep *)
  retries : Z;            (* self.retries *)
  api : bool;             (* self.api != None *)
  fs : FS;
  trace : list event
}.

Definition M (A : Type) : Type := World → outcome A * World.

#[global] Instance M_ret : MRet M := λ A a w, (Ret a, w).
#[global] Instance M_bind : MBind M := λ A B f m w,
  match m w with
  | (Ret a, w') => f a w'
  | (Raise e, w') => (Raise e, w')
  end.

Definition record (e : event) (w : World) : World :=
  {| sleep := sleep w; retries := retries w; api := api w;
     fs := fs w; trace := trace w ++ [e] |}.
Definition put_fs (f : FS) (w : World) : World :=
  {| sleep := sleep w; retries := retries w; api := api w;
     fs := f; trace := trace w |}.
Definition put_api (b : bool) (w : World) : World :=
  {| sleep := sleep w; retries := retries w; api := b;
     fs := fs w; trace := trace w |}.

Definition raise {A} (e : exn) : M A := λ w, (Raise e, w).
Definition get : M World := λ w, (Ret w, w).
Definition emit (e : event) : M unit := λ w, (Ret tt, record e w).
Definition set_fs (f : FS) : M unit := λ w, (Ret tt, put_fs f w).
Definition set_api (b : bool) : M unit := λ w, (Ret tt, put_api b w).

Definition log (l : level) (msg : string) : M unit := emit (Log l msg).

(** [try: body except Exception as e: logger.exception(msg); raise e] *)
Definition try_log {A} (msg : string) (body : M A) : M A := λ w,
  match body w with
  | (Raise e, w') => (Raise e, record (LogException msg e) w')
  | r => r
  end.

Definition catch {A} (body : M A) (handler : exn → M A) : M A := λ w,
  match body w with
  | (Raise e, w') => handler e w'
  | r => r
  end.

(** [for x in l: f(x)] *)
Fixpoint for_each {A} (l : list A) (f : A → M unit) : M unit :=
  match l with
  | [] => mret tt
  | x :: l' => _ ← f x; for_each l' f
  end.

(** ** configparser operations *)

Definition lower (a : ascii) : ascii :=
  let n := nat_of_ascii a in
  if ((65 <=? n) && (n <=? 90))%nat then ascii_of_nat (n + 32) else a.

(** [ConfigParser.optionxform]: option names are stored in lower case. *)
Definition optionxform (k : string) : string :=
  string_of_list_ascii (lower <$> list_ascii_of_string k).

(** [config.read_file(codecs.open(path, 'r', 'utf8'))] on an existing file *)
Definition read_file (f : ini_file) : M ConfigParser :=
  match f with
  | Unparseable => raise ConfigParserError
  | Ini c => mret c
  end.

(** The options of the section DEFAULT. *)
Definition defaults (c : ConfigParser) : section := default ∅ (c !! "DEFAULT").

(** [s in config] *)
Definition has_section (c : ConfigParser) (s : string) : bool :=
  bool_decide (s = "DEFAULT") || bool_decide (is_Some (c !! s)).

(** The options [config[s]] gives access to, its own before those of
    DEFAULT; [None] when [config[s]] raises [KeyError]. *)
Definition options (c : ConfigParser) (s : string) : option section :=
  if bool_decide (s = "DEFAULT") then Some (defaults c)
  else (λ sec, sec ∪ defaults c) <$> c !! s.

(** [k in config[s]] *)
Definition has_option (c : ConfigParser) (s k : string) : bool :=
  match options c s with
  | Some d => bool_decide (is_Some (d !! optionxform k))
  | None => false
  end.

(** [BasicInterpolation]: where the scan of a value stands. *)
Inductive scanning :=
| Text                              (* outside a reference *)
| Percent                           (* after "%" *)
| Name (name : list ascii)          (* after "%(", collecting the name *)
| Closed (name : list ascii).       (* after the ")" of "%(name)" *)

Definition MAX_INTERPOLATION_DEPTH : nat := 10.

(** The loop of [BasicInterpolation._interpolate_some]: "%%" gives "%",
    "%(name)s" gives the value of option [name], interpolated by [deeper]
    if it holds a "%", and any other use of "%" is an error. *)
Fixpoint interpolate_scan (deeper : string → exn + list ascii) (d : section)
    (at_ : scanning) (rest accum : list ascii) : exn + list ascii :=
  match at_, rest with
  | Text, [] => inr accum
  | Text, a :: rest' =>
      if Ascii.eqb a "%" then interpolate_scan deeper d Percent rest' accum
      else interpolate_scan deeper d Text rest' (accum ++ [a])
  | Percent, a :: rest' =>
      if Ascii.eqb a "%" then interpolate_scan deeper d Text rest' (accum ++ [a])
      else if Ascii.eqb a "(" then interpolate_scan deeper d (Name []) rest' accum
      else inl InterpolationSyntaxError
  | Name name, a :: rest' =>
      if Ascii.eqb a ")" then
        match name with
        | [] => inl InterpolationSyntaxError
        | _ :: _ => interpolate_scan deeper d (Closed name) rest' accum
        end
      else interpolate_scan deeper d (Name (name ++ [a])) rest' accum
  | Closed name, a :: rest' =>
      if Ascii.eqb a "s" then
        let var := optionxform (string_of_list_ascii name) in
        match d !! var with
        | None => inl (InterpolationMissingOptionError var)
        | Some v =>
            if contains "%" v then
              match deeper v with
              | inl e => inl e
              | inr out => interpolate_scan deeper d Text rest' (accum ++ out)
              end
            else interpolate_scan deeper d Text rest'
                   (accum ++ list_ascii_of_string v)
        end
      else inl InterpolationSyntaxError
  | _, [] => inl InterpolationSyntaxError
  end.

(** [BasicInterpolation._interpolate_some] with [depth] levels left: the
    eleventh level raises. *)
Fixpoint interpolate_some (depth : nat) (d : section) (value : string)
  : exn + list ascii :=
  match depth with
  | O => inl InterpolationDepthError
  | S depth' =>
      interpolate_scan (interpolate_some depth' d) d Text
        (list_ascii_of_string value) []
  end.

(** [BasicInterpolation.before_get] *)
Definition before_get (d : section) (value : string) : exn + string :=
  match interpolate_some MAX_INTERPOLATION_DEPTH d value with
  | inl e => inl e
  | inr out => inr (string_of_list_ascii out)
  end.

(** What [config[s][k]] evaluates to. *)
Definition lookup (c : ConfigParser) (s k : string) : exn + string :=
  match options c s with
  | None => inl (KeyError s)
  | Some d =>
      match d !! optionxform k with
      | None => inl (KeyError k)
      | Some v => before_get d v
      end
  end.

(** [config[s][k]] *)
Definition getitem (c : ConfigParser) (s k : string) : M string :=
  match lookup c s k with
  | inl e => raise e
  | inr v => mret v
  end.

(** [config[s] = {}] followed by [config[s][k] = v], for a value [v]
    that [before_set] accepts, as the decimal numbers are that this
    program stores. *)
Definition setitem (c : ConfigParser) (s k v : string) : ConfigParser :=
  <[s := <[optionxform k := v]> ∅]> c.

(** ** Writing the state files *)

Definition with_state_dir (f : FS) : FS :=
  {| state_dir := true; credentials_ini := credentials_ini f;
     UpdateCheckInterval_ini := UpdateCheckInterval_ini f;
     latest_ini := latest_ini f; followers_txt := followers_txt f;
     favorites_ini := favorites_ini f |}.

Definition with_UpdateCheckInterval (c : ConfigParser) (f : FS) : FS :=
  {| state_dir := state_dir f; credentials_ini := credentials_ini f;
     UpdateCheckInterval_ini := Some (Ini c);
     latest_ini := latest_ini f; followers_txt := followers_txt f;
     favorites_ini := favorites_ini f |}.

Definition with_latest (c : ConfigParser) (f : FS) : FS :=
  {| state_dir := state_dir f; credentials_ini := credentials_ini f;
     UpdateCheckInterval_ini := UpdateCheckInterval_ini f;
     latest_ini := Some (Ini c); followers_txt := followers_txt f;
     favorites_ini := favorites_ini f |}.

Definition with_followers (l : list string) (f : FS) : FS :=
  {| state_dir := state_dir f; credentials_ini := credentials_ini f;
     UpdateCheckInterval_ini := UpdateCheckInterval_ini f;
     latest_ini := latest_ini f; followers_txt := Some l;
     favorites_ini := favorites_ini f |}.

Definition with_favorites (c : ConfigParser) (f : FS) : FS :=
  {| state_dir := state_dir f; credentials_ini := credentials_ini f;
     UpdateCheckInterval_ini := UpdateCheckInterval_ini f;
     latest_ini := latest_ini f; followers_txt := followers_txt f;
     favorites_ini := Some (Ini c) |}.

(** [with open(stateFilePath, 'w') as stateFile: ...] *)
Definition write (f : state_file) (update : FS → FS) : M unit :=
  w ← get;
  _ ← set_fs (update (fs w));
  emit (WriteFile f).

(** ** The class *)

Definition CHARACTER_LIMIT : Z := 280.

(** [__init__] once [self.logger] is set: the two clamps on the
    rate-limit parameters; [self.api] starts as [None]. *)
Definition init (secondsSleepWhenRateLimited rateLimitRetries : Z) (f : FS) : World :=
  {| sleep := if secondsSleepWhenRateLimited <? 0 then 0 else secondsSleepWhenRateLimited;
     retries := if rateLimitRetries <? 1 then 1 else rateLimitRetries;
     api := false;
     fs := f;
     trace := [] |}.

(** [EasyTweeter(...)].  Without a logger of the caller, [__init__] starts
    with [_makeLogger], which reads [self.configurationDirectory] through
    [getLogFilename] before [__init__] has assigned it. *)
Definition EasyTweeter (logger : bool)
    (secondsSleepWhenRateLimited rateLimitRetries : Z) (f : FS) : exn + World :=
  if logger then inr (init secondsSleepWhenRateLimited rateLimitRetries f)
  else inl AttributeError.

Definition _initState : M unit :=
  w ← get;
  if state_dir (fs w) then mret tt
  else
    _ ← emit Makedirs;
    set_fs (with_state_dir (fs w)).

(** The first half of [_shouldCheckUpdates]: the counter read from
    UpdateCheckInterval.ini. *)
Definition load_interval : M (Z * ConfigParser) :=
  w ← get;
  config ← match UpdateCheckInterval_ini (fs w) with
           | Some f => read_file f
           | None => mret ∅
           end;
  loaded ← (if has_section config "Update Check Interval" then
              if has_option config "Update Check Interval" "last" then
                loaded ← getitem config "Update Check Interval" "last";
                match py_int loaded with
                | Some n =>
                    _ ← log INFO ("Read and loaded update check interval value out of config file: " +:+ str n);
                    mret n
                | None =>
                    _ ← log ERROR "update check interval file exists, but contained invalid data.";
                    mret 0
                end
              else
                _ ← log ERROR "update check interval file exists, but contained incomplete data.";
                mret 0
            else mret 0);
  mret (loaded, config).

Definition _shouldCheckUpdates (runInterval : Z) : M bool :=
  '(loaded, config) ← load_interval;
  let toRun := negb (0 <? loaded) in
  let toSave := if 0 <? loaded then loaded - 1 else runInterval in
  _ ← (if 0 <? loaded
       then log INFO ("update check interval not hit. Saving value for next time: " +:+ str toSave)
       else log INFO ("update check interval was hit, so updates will be checked. Saving value for next time: " +:+ str toSave));
  let config := setitem config "Update Check Interval" "last" (str toSave) in
  _ ← _initState;
  _ ← write F_UpdateCheckInterval (with_UpdateCheckInterval config);
  mret toRun.

Definition connect (r : Remote) (c : credentials) : M unit :=
  _ ← emit (Call c_verify_credentials);
  match verify_credentials r c with
  | inl e => raise e
  | inr true =>
      _ ← log INFO "Twitter API connection established.";
      set_api true
  | inr false => raise (ValueError "credentials provided were not valid")
  end.

(** [connectFromConfig(self.getCredentialsConfigFilename())]; the log line
    is recorded without the path. *)
Definition connectFromConfig (r : Remote) : M unit :=
  _ ← log INFO "reading credential config file";
  w ← get;
  match credentials_ini (fs w) with
  | None => raise FileNotFoundError
  | Some f =>
      config ← read_file f;
      c_key ← getitem config "TwitterCredentials" "ConsumerKey";
      c_secret ← getitem config "TwitterCredentials" "ConsumerSecret";
      a_token ← getitem config "TwitterCredentials" "AccessToken";
      a_token_secret ← getitem config "TwitterCredentials" "AccessTokenSecret";
      connect r {| ConsumerKey := c_key; ConsumerSecret := c_secret;
                   AccessToken := a_token; AccessTokenSecret := a_token_secret |}
  end.

(** The [while retry > 0] loop of [tweet]; [attempt] counts the
    submissions already made. *)
Fixpoint tweet_loop (r : Remote) (message : option string) (retry attempt : nat)
  : M (option status) :=
  match retry with
  | O => mret None
  | S retry' =>
      _ ← log INFO ("Tweeting message: " +:+ str_opt message);
      _ ← emit (Call (c_update_status message));
      match update_status r attempt message with
      | inr t =>
          _ ← log INFO "Tweeted successfully";
          mret (Some t)
      | inl (RateLimitError _) =>
          _ ← log WARNING "Twitter API rate limit reached.";
          _ ← emit (Call c_rate_limit_status);
          match rate_limit_status r attempt with
          | Some e => raise e
          | None =>
              match retry' with
              | S _ =>
                  w ← get;
                  _ ← log INFO ("Sleeping for " +:+ str (sleep w)
                                +:+ " seconds before retrying. Retries left: "
                                +:+ str (Z.of_nat retry'));
                  _ ← emit (Sleep (sleep w));
                  tweet_loop r message retry' (S attempt)
              | O => raise RateLimitRetriesExceeded
              end
          end
      | inl e => raise e
      end
  end.

(** The [if]/[elif] chain that opens [tweet].  In the over-limit branch
    the message of the [ValueError] is built by adding the integer
    [CHARACTER_LIMIT] to a string, which raises [TypeError] first. *)
Definition tweet_error_checking (r : Remote) (message : option string) : M unit :=
  w ← get;
  if negb (api w) then connectFromConfig r
  else
    match message with
    | None => raise (ValueError "Message cannot be None.")
    | Some m =>
        if CHARACTER_LIMIT <? len m then raise TypeError
        else if len m <=? 0 then raise (ValueError "Message cannot be empty.")
        else mret tt
    end.

Definition tweet (r : Remote) (message : option string) : M unit :=
  tweet ← try_log "Exception encountered while attempting to tweet"
            (_ ← tweet_error_checking r message;
             w ← get;
             tweet_loop r message (Z.to_nat (retries w)) 0);
  match tweet with
  | Some t => emit (Hook (handleTweet t))
  | None => mret tt
  end.

(** [l.sort(key=lambda x: x.id, reverse=True)]: a stable sort into
    non-increasing identifier order (items with equal identifiers keep
    their order). *)
Fixpoint insert_desc (x : status) (l : list status) : list status :=
  match l with
  | [] => [x]
  | y :: l' => if id y <=? id x then x :: l else y :: insert_desc x l'
  end.

Definition sort_reverse (l : list status) : list status :=
  foldr insert_desc [] l.

(** [for x in tweepy.Cursor(call, ...).items(limit)], for a loop that
    has to keep what it has seen when the iterator fails: the items it
    sees, and the error that follows them, if any. *)
Definition cursor_some {A} (c : api_call) (limit : Z) (answer : feed A)
  : M (list A * option exn) :=
  _ ← emit (Call c);
  mret (yielded limit answer).

(** The error the iterator raises after its last item. *)
Definition raise_pending (pending : option exn) : M unit :=
  match pending with
  | Some e => raise e
  | None => mret tt
  end.

(** [for x in tweepy.Cursor(call, ...).items(limit)], for a loop that
    only collects: the items, or the error of the iterator. *)
Definition cursor {A} (c : api_call) (limit : Z) (answer : feed A) : M (list A) :=
  '(seen, pending) ← cursor_some c limit answer;
  _ ← raise_pending pending;
  mret seen.

Definition ensure_connected (r : Remote) : M unit :=
  w ← get;
  if api w then mret tt else connectFromConfig r.

(** The block "load the latest message to look for", which the retweet,
    reply and direct-message checks each carry with their own section
    name: the marker (or [None]) and the parsed file. *)
Definition load_latest (sec : string) : M (option string * ConfigParser) :=
  _ ← _initState;
  w ← get;
  match latest_ini (fs w) with
  | Some f =>
      config ← read_file f;
      if has_section config sec then
        last ← getitem config sec "LatestSeen";
        mret (Some last, config)
      else mret (None, config)
  | None => mret (None, ∅)
  end.

(** The block "save off the latest ... we got (if applicable)" of the
    same three checks. *)
Definition save_latest (sec what : string) (newMessages : list status) (config : ConfigParser)
  : M unit :=
  match newMessages with
  | [] => log INFO ("no new " +:+ what)
  | first :: _ =>
      let last := id first in
      _ ← log INFO (str (Z.of_nat (length newMessages)) +:+ " new " +:+ what);
      write F_latest (with_latest (setitem config sec "LatestSeen" (str last)))
  end.

(** The block "do we have any messages since then?" of
    [checkDirectMessages], with its handler for tweepy errors: the
    handler leaves [newMessages] as the loop has filled it. *)
Definition fetch_direct_messages (r : Remote) (maxMessagesLoaded : Z)
    (failureOnMissingPermission : bool) (last : option string) : M (list status) :=
  '(newMessages, pending) ←
    cursor_some (c_direct_messages last) maxMessagesLoaded (direct_messages r last);
  match pending with
  | None => mret newMessages
  | Some e =>
      match e with
      | TweepError reason | RateLimitError reason =>
          if contains "status code = 403" reason then
            if failureOnMissingPermission then raise MissingPermissionsError
            else
              _ ← log INFO "Twitter user lacks direct message permissions. This is the typical configuration for twitter apps. This error will be ignored, and direct messages will not be checked.";
              mret newMessages
          else raise e
      | _ => raise e
      end
  end.

Definition checkDirectMessages (r : Remote) (maxMessagesLoaded : Z)
    (failureOnMissingPermission : bool) : M (list status) :=
  try_log "Exception encountered while attempting to check direct messages"
    (_ ← ensure_connected r;
     _ ← log INFO "Checking for new direct messages";
     '(last, config) ← load_latest "DirectMessages";
     newMessages ← fetch_direct_messages r maxMessagesLoaded
                     failureOnMissingPermission last;
     let newMessages := sort_reverse newMessages in
     _ ← save_latest "DirectMessages" "direct messages" newMessages config;
     _ ← for_each newMessages (λ dm, emit (Hook (handleDM dm)));
     mret newMessages).

(** The loop "look at all current followers". *)
Fixpoint scan_followers (fetched : list user) (newFollowers : list user)
    (knownFollowers : list string) : list user * list string :=
  match fetched with
  | [] => (newFollowers, knownFollowers)
  | follower :: rest =>
      if bool_decide (str (user_id follower) ∈ knownFollowers)
      then scan_followers rest newFollowers knownFollowers
      else scan_followers rest (newFollowers ++ [follower])
             (knownFollowers ++ [str (user_id follower)])
  end.

(** The block "load up the list of known followers". *)
Definition load_followers : M (list string) :=
  _ ← _initState;
  w ← get;
  match followers_txt (fs w) with
  | Some lines => mret (strip <$> lines)
  | None => mret []
  end.

Definition checkNewFollowers (r : Remote) (maxFollowersChecked : Z) : M (list user) :=
  try_log "Exception encountered while attempting to check for new followers"
    (_ ← ensure_connected r;
     _ ← log INFO "Checking for new followers";
     knownFollowers ← load_followers;
     fetched ← cursor c_followers maxFollowersChecked (followers r);
     let '(newFollowers, knownFollowers) := scan_followers fetched [] knownFollowers in
     _ ← match newFollowers with
         | [] => log INFO "No new followers."
         | _ :: _ =>
             _ ← log INFO (str (Z.of_nat (length newFollowers)) +:+ " new followers.");
             write F_followers (with_followers knownFollowers)
         end;
     _ ← for_each newFollowers (λ follower, emit (Hook (handleNewFollower follower)));
     mret newFollowers).

Definition checkRetweets (r : Remote) (maxMessagesLoaded : Z) : M (list status) :=
  try_log "Exception encountered while attempting to check for retweets"
    (_ ← ensure_connected r;
     _ ← log INFO "Checking for new retweets";
     '(last, config) ← load_latest "Retweets";
     newMessages ← cursor (c_retweets_of_me last) maxMessagesLoaded (retweets_of_me r last);
     (* the sort is commented out in this check *)
     _ ← save_latest "Retweets" "retweets" newMessages config;
     _ ← for_each newMessages (λ retweet, emit (Hook (handleRetweet retweet)));
     mret newMessages).

(** The body of the loop over the home timeline: every item costs one
    [me()] request; [asked] counts the requests already made. *)
Fixpoint scan_replies (r : Remote) (fetched : list status) (asked : nat)
    (newMessages : list status) : M (list status) :=
  match fetched with
  | [] => mret newMessages
  | msg :: rest =>
      _ ← emit (Call c_me);
      match me r asked with
      | inl e => raise e
      | inr own =>
          scan_replies r rest (S asked)
            (if bool_decide (in_reply_to_user_id msg = Some own)
             then newMessages ++ [msg] else newMessages)
      end
  end.

(** The block "do we have any messages since then?" of [checkReplies]. *)
Definition fetch_replies (r : Remote) (maxMessagesLoaded : Z)
    (last : option string) : M (list status) :=
  '(fetched, pending) ←
    cursor_some (c_home_timeline last) maxMessagesLoaded (home_timeline r last);
  newMessages ← scan_replies r fetched 0 [];
  _ ← raise_pending pending;
  mret newMessages.

Definition checkReplies (r : Remote) (maxMessagesLoaded : Z) : M (list status) :=
  try_log "Exception encountered while attempting to check for replies"
    (_ ← ensure_connected r;
     _ ← log INFO "Checking for new replies";
     '(last, config) ← load_latest "Replies";
     newMessages ← fetch_replies r maxMessagesLoaded last;
     let newMessages := sort_reverse newMessages in
     _ ← save_latest "Replies" "replies" newMessages config;
     _ ← for_each newMessages (λ reply, emit (Hook (handleReply reply)));
     mret newMessages).

(** [str(msg.favorite_count) != known], where [known] is a stored string
    or the integer 0. *)
Definition differs (s : string) (known : known_count) : bool :=
  match known with
  | KnownStr v => negb (String.eqb s v)
  | KnownInt _ => true
  end.

(** The loop "look at our latest N tweets". *)
Fixpoint scan_favorites (fetched : list status) (config : ConfigParser)
    (newFavorites : list (status * known_count))
  : M (ConfigParser * list (status * known_count)) :=
  match fetched with
  | [] => mret (config, newFavorites)
  | msg :: rest =>
      if 0 <? favorite_count msg then
        known ← (if has_section config (str (id msg)) then
                   v ← getitem config (str (id msg)) "favorites";
                   mret (KnownStr v)
                 else mret (KnownInt 0));
        if differs (str (favorite_count msg)) known then
          scan_favorites rest
            (setitem config (str (id msg)) "favorites" (str (favorite_count msg)))
            (newFavorites ++ [(msg, known)])
        else scan_favorites rest config newFavorites
      else scan_favorites rest config newFavorites
  end.

(** The block "load the favorite file". *)
Definition load_favorites : M ConfigParser :=
  _ ← _initState;
  w ← get;
  match favorites_ini (fs w) with
  | Some f => read_file f
  | None => mret ∅
  end.

Definition checkFavorites (r : Remote) (maxMessagesLoaded : Z)
  : M (list (status * known_count)) :=
  try_log "Exception encountered while attempting to check for favorites"
    (_ ← ensure_connected r;
     _ ← log INFO "Checking for new favorites";
     config ← load_favorites;
     '(fetched, pending) ←
       cursor_some c_user_timeline maxMessagesLoaded (user_timeline r);
     '(config, newFavorites) ← scan_favorites fetched config [];
     _ ← raise_pending pending;
     _ ← match newFavorites with
         | [] => log INFO "no new favorites"
         | _ :: _ =>
             _ ← log INFO (str (Z.of_nat (length newFavorites)) +:+ " new favorites");
             write F_favorites (with_favorites config)
         end;
     _ ← for_each newFavorites
           (λ newFavorite, emit (Hook (handleFavorite newFavorite.1 newFavorite.2)));
     mret newFavorites).

(** The body of [checkForUpdates] under [if runInterval <= 0 or check]. *)
Definition perform_checks (r : Remote)
    (retweets newFollowers replies favorites directMessages : bool) : M unit :=
  w ← get;
  _ ← (if api w then mret tt
       else try_log "Exception encountered while attempting to authenticate in order to check for updates"
              (connectFromConfig r));
  _ ← log INFO "Checking for updates on our twitter account...";
  _ ← (if retweets then _ ← checkRetweets r 50; mret tt
       else log INFO "Skipping checking for new retweets.");
  _ ← (if newFollowers then _ ← checkNewFollowers r 50; mret tt
       else log INFO "Skipping checking for new followers.");
  _ ← (if favorites then _ ← checkFavorites r 50; mret tt
       else log INFO "Skipping checking for new favorites.");
  _ ← (if directMessages then _ ← checkDirectMessages r 50 false; mret tt
       else log INFO "Skipping checking for new direct messages.");
  (if replies then _ ← checkReplies r 100; mret tt
   else log INFO "Skipping checking for new replies.").

Definition checkForUpdates (r : Remote) (runInterval : Z)
    (retweets newFollowers replies favorites directMessages : bool) : M unit :=
  check ← _shouldCheckUpdates runInterval;
  if (runInterval <=? 0) || check
  then perform_checks r retweets newFollowers replies favorites directMessages
  else mret tt.

(** * Vocabulary of the statements *)

(** What a state file holds under section [sec], option [key]. *)
Definition persisted (f : option ini_file) (sec key : string) : option string :=
  match f with
  | Some (Ini c) => c !! sec ≫= λ s, s !! optionxform key
  | _ => None
  end.

(** The sections of a state file; an absent or unreadable file has none. *)
Definition section_of (f : option ini_file) (sec : string) : option section :=
  match f with
  | Some (Ini c) => c !! sec
  | _ => None
  end.

(** The largest identifier of a non-empty list of items. *)
Definition max_id (l : list status) : option Z :=
  match l with
  | [] => None
  | x :: l' => Some (foldr (λ y m, Z.max (id y) m) (id x) l')
  end.

(** Hook invocations and file writes of a trace, in order. *)
Definition hooks_and_writes (t : list event) : list event :=
  List.filter (λ e, match e with Hook _ | WriteFile _ => true | _ => false end) t.

(** The remote calls of a trace, in order. *)
Definition api_calls (t : list event) : list api_call :=
  omap (λ e, match e with Call c => Some c | _ => None end) t.

(** The characters [str] prints. *)
Definition num_char (a : ascii) : Prop :=
  a ∈ list_ascii_of_string "-0123456789".

(** A list of characters that does not start with white space. *)
Definition starts_clean (l : list ascii) : Prop :=
  match l with
  | a :: _ => is_space a = false
  | [] => True
  end.

(** From a world in [P], [m] returns [a] in a world in [Q a] or raises
    [e] in a world in [E e]. *)
Definition triple {A} (P : World → Prop) (m : M A) (Q : A → World → Prop)
    (E : exn → World → Prop) : Prop :=
  ∀ w, P w →
    match m w with
    | (Ret a, w') => Q a w'
    | (Raise e, w') => E e w'
    end.

(** [m] never leaves the set of worlds whose state directory is in [J],
    whether it returns or raises. *)
Definition keeps {A} (J : FS → Prop) (m : M A) : Prop :=
  triple (λ w, J (fs w)) m (λ _ w, J (fs w)) (λ _ w, J (fs w)).

(** What [config[sec][key]] evaluates to on a state file; an absent or
    unreadable file holds nothing. *)
Definition stored (f : option ini_file) (sec key : string) : exn + string :=
  match f with
  | Some (Ini c) => lookup c sec key
  | _ => inl (KeyError sec)
  end.

(** The counter as [load_interval] reads it from a readable file. *)
Definition stored_interval (f : option ini_file) : Z :=
  match stored f "Update Check Interval" "last" with
  | inr v => default 0 (py_int v)
  | inl _ => 0
  end.

(** Text of ASCII characters. *)
Definition is_ascii (s : string) : bool :=
  forallb (λ a, (nat_of_ascii a <? 128)%nat) (list_ascii_of_string s).

(** The counter file answers: it is absent, or it can be parsed and the
    value of its counter, if it has one, can be interpolated. *)
Definition counter_answers (f : option ini_file) : bool :=
  match f with
  | None => true
  | Some Unparseable => false
  | Some (Ini c) =>
      if has_section c "Update Check Interval"
         && has_option c "Update Check Interval" "last"
      then match lookup c "Update Check Interval" "last" with
           | inr _ => true
           | inl _ => false
           end
      else true
  end.

(** The value of the counter, if the file gives one, is a number or text
    of ASCII characters. *)
Definition counter_plain (f : option ini_file) : bool :=
  match stored f "Update Check Interval" "last" with
  | inr v => bool_decide (is_Some (py_int v)) || is_ascii v
  | inl _ => true
  end.

(** The counter file can be taken at its word: it answers, and with a
    number or with text of ASCII characters. *)
Definition counter_legible (f : option ini_file) : bool :=
  counter_answers f && counter_plain f.

(** [_initState] as a function on worlds. *)
Definition init_world (w : World) : World :=
  if state_dir (fs w) then w
  else put_fs (with_state_dir (fs w)) (record Makedirs w).


(** Section [s] of latest.ini is [S0]. *)
Definition section_is (s : string) (S0 : option section) (f : FS) : Prop :=
  section_of (latest_ini f) s = S0.

(** The identifiers [load_followers] reads from followers.txt. *)
Definition known_followers (f : option (list string)) : list string :=
  strip <$> default [] f.

(** The count the ledger records for a post, as [checkFavorites] looks
    it up. *)
Definition recorded (c : ConfigParser) (msg : status) : option string :=
  match lookup c (str (id msg)) "favorites" with
  | inr v => Some v
  | inl _ => None
  end.

(** What [checkFavorites] takes as the previous count of a post. *)
Definition known (c : ConfigParser) (msg : status) : known_count :=
  match recorded c msg with
  | Some v => KnownStr v
  | None => KnownInt 0
  end.

(** Every section the ledger has for a fetched post gives a count:
    [config[id]['favorites']] evaluates to a value. *)
Definition ledger_ok (c : ConfigParser) (fetched : list status) : Prop :=
  ∀ msg, msg ∈ fetched → has_section c (str (id msg)) = true →
         is_Some (recorded c msg).

(** [ledger_ok] as a test. *)
Definition ledger_complete (c : ConfigParser) (fetched : list status) : bool :=
  forallb
    (λ msg, negb (has_section c (str (id msg)))
            || bool_decide (is_Some (recorded c msg)))
    fetched.

(** The hook invocations of a trace, in order. *)
Definition hooks (t : list event) : list hook :=
  omap (λ e, match e with Hook h => Some h | _ => None end) t.

(** [a] may stand before [b] in a list sorted by descending identifier. *)
Definition before (a b : status) : Prop := id b ≤ id a.

(** [m] is the largest identifier in [l]. *)
Definition is_max (l : list status) (m : Z) : Prop :=
  (∃ x, x ∈ l ∧ id x = m) ∧ ∀ y, y ∈ l → id y ≤ m.

(** The shape the retweet, reply and direct-message checks share: they
    differ in their messages, their section, their fetch, what they do to
    the fetched list and their hook. *)
Definition marker_check (r : Remote) (emsg lmsg sec what : string)
    (fetch : option string → M (list status))
    (post : list status → list status) (h : status → hook) : M (list status) :=
  try_log emsg
    (_ ← ensure_connected r;
     _ ← log INFO lmsg;
     '(last, config) ← load_latest sec;
     fetched ← fetch last;
     let newMessages := post fetched in
     _ ← save_latest sec what newMessages config;
     _ ← for_each newMessages (λ x, emit (Hook (h x)));
     mret newMessages).

(** ** Concrete worlds and remotes used in the examples *)

Module Fixtures.

Definition no_files : FS :=
  {| state_dir := false; credentials_ini := None;
     UpdateCheckInterval_ini := None; latest_ini := None;
     followers_txt := None; favorites_ini := None |}.

Definition credentials_file : ini_file :=
  Ini {[ "TwitterCredentials" :=
           {[ "consumerkey" := "ck"; "consumersecret" := "cs";
              "accesstoken" := "at"; "accesstokensecret" := "ats" ]} ]}.

Definition only_credentials : FS :=
  {| state_dir := false; credentials_ini := Some credentials_file;
     UpdateCheckInterval_ini := None; latest_ini := None;
     followers_txt := None; favorites_ini := None |}.

(** A bot built with a logger of the caller and the default rate-limit
    arguments. *)
Definition fresh (f : FS) : World := init 960 2 f.

(** The same bot once [connect] has succeeded. *)
Definition connected (f : FS) : World := put_api true (fresh f).

Definition post (i favs : Z) : status :=
  {| id := i; in_reply_to_user_id := None; favorite_count := favs; text := "t" |}.

Definition reply (i : Z) : status :=
  {| id := i; in_reply_to_user_id := Some 1; favorite_count := 0; text := "r" |}.

Definition follower (i : Z) : user := {| user_id := i; screen_name := "f" |}.

(** A remote that accepts every credential and every status, whose
    account has identifier 1, and whose feeds are the given lists
    whatever [since_id] is sent. *)
Definition feeds (dms retweets timeline own : list status) (fs : list user) : Remote :=
  {| verify_credentials := λ _, inr true;
     update_status := λ _ m, inr (post 100 0);
     rate_limit_status := λ _, None;
     retweets_of_me := λ _, inr retweets;
     home_timeline := λ _, inr timeline;
     direct_messages := λ _, inr dms;
     followers := inr fs;
     user_timeline := inr own;
     me := λ _, inr 1 |}.

Definition quiet : Remote := feeds [] [] [] [] [].

(** A remote whose direct-message endpoint answers 403. *)
Definition no_dm_permission : Remote :=
  {| verify_credentials := λ _, inr true;
     update_status := λ _ m, inr (post 100 0);
     rate_limit_status := λ _, None;
     retweets_of_me := λ _, inr [];
     home_timeline := λ _, inr [];
     direct_messages := λ _, inl ([], TweepError "Twitter error response: status code = 403");
     followers := inr [];
     user_timeline := inr [];
     me := λ _, inr 1 |}.

(** A remote that loses the direct-message permission between two
    requests: it delivers one message and answers the next request
    with 403. *)
Definition dm_permission_lost : Remote :=
  {| verify_credentials := λ _, inr true;
     update_status := λ _ m, inr (post 100 0);
     rate_limit_status := λ _, None;
     retweets_of_me := λ _, inr [];
     home_timeline := λ _, inr [];
     direct_messages := λ _,
       inl ([post 5 0], TweepError "Twitter error response: status code = 403");
     followers := inr [];
     user_timeline := inr [];
     me := λ _, inr 1 |}.

Definition counter_file (v : string) : ConfigParser :=
  {[ "Update Check Interval" := {[ "last" := v ]} ]}.

Definition with_counter (v : string) : FS :=
  with_UpdateCheckInterval (counter_file v) no_files.

Definition counter (w : World) : option string :=
  persisted (UpdateCheckInterval_ini (fs w)) "Update Check Interval" "last".

Definition long_message : string :=
  string_of_list_ascii (replicate 281 "a"%char).

End Fixtures.

(** State files that are incomplete or unreadable. *)

Module Broken.

(** latest.ini with a [DirectMessages] section that has no option. *)
Definition latest_without_option : FS :=
  with_latest {[ "DirectMessages" := ∅ ]} Fixtures.no_files.

(** favorites.ini with a section for post 7 that has no option. *)
Definition favorites_without_option : FS :=
  with_favorites {[ "7" := ∅ ]} Fixtures.no_files.

(** UpdateCheckInterval.ini whose counter is [50%]. *)
Definition counter_percent : FS := Fixtures.with_counter "50%".

(** UpdateCheckInterval.ini whose section has no option. *)
Definition counter_without_option : FS :=
  with_UpdateCheckInterval {[ "Update Check Interval" := ∅ ]} Fixtures.no_files.

(** UpdateCheckInterval.ini that [read_file] rejects. *)
Definition counter_unparseable : FS :=
  {| state_dir := true; credentials_ini := None;
     UpdateCheckInterval_ini := Some Unparseable; latest_ini := None;
     followers_txt := None; favorites_ini := None |}.

End Broken.

(** ** Vocabulary of the further properties *)

(** A trace without its log lines. *)
Definition outward (t : list event) : list event :=
  List.filter
    (λ e, match e with Log _ _ | LogException _ _ => false | _ => true end) t.

(** The world once the events [t] have been recorded. *)
Definition extend (t : list event) (w : World) : World :=
  {| sleep := sleep w; retries := retries w; api := api w;
     fs := fs w; trace := trace w ++ t |}.

(** The message passes the three checks of [tweet]. *)
Definition valid_message (message : option string) : bool :=
  match message with
  | Some m => (0 <? len m) && (len m <=? CHARACTER_LIMIT)
  | None => false
  end.

(** One refused submission of [tweet]'s loop followed by its pause. *)
Definition refused_round (message : option string) (pause : Z) : list event :=
  [Call (c_update_status message); Call c_rate_limit_status; Sleep pause].

Definition is_rate_limit (e : exn) : bool :=
  match e with RateLimitError _ => true | _ => false end.

(** The [k] submissions from number [from] on are answered with a
    rate-limit error, and the rate-limit query that follows each of them
    is answered. *)
Definition rate_limited (r : Remote) (message : option string) (from k : nat) : bool :=
  forallb
    (λ attempt, match update_status r attempt message with
                | inl e => is_rate_limit e
                           && bool_decide (rate_limit_status r attempt = None)
                | inr _ => false
                end)
    (seq from k).

(** [w] is [w0] after some more events, all of whose non-log events are
    in [p], with the rate-limit parameters as they were, and still
    connected if [w0] was. *)
Definition within (w0 : World) (p : event → bool) (w : World) : Prop :=
  sleep w = sleep w0 ∧ retries w = retries w0
  ∧ (api w0 = true → api w = true)
  ∧ ∃ t, trace w = trace w0 ++ t ∧ forallb p (outward t) = true.

(** Whatever [m] does, apart from logging, is in [p]. *)
Definition only {A} (p : event → bool) (m : M A) : Prop :=
  ∀ w0, triple (within w0 p) m (λ _, within w0 p) (λ _, within w0 p).

(** What [tweet] may do. *)
Definition tweet_events (e : event) : bool :=
  match e with
  | Call c_verify_credentials | Call (c_update_status _)
  | Call c_rate_limit_status | Sleep _ | Hook (handleTweet _) => true
  | _ => false
  end.


(** What [checkForUpdates] may do, given its five flags; the reply
    check also asks the remote for the identity of the account. *)
Definition update_events (retweets newFollowers replies favorites directMessages : bool)
    (e : event) : bool :=
  match e with
  | Call c_verify_credentials | Makedirs | WriteFile F_UpdateCheckInterval => true
  | Call (c_retweets_of_me _) | Hook (handleRetweet _) => retweets
  | Call c_followers | Hook (handleNewFollower _) | WriteFile F_followers => newFollowers
  | Call (c_home_timeline _) | Call c_me | Hook (handleReply _) => replies
  | Call c_user_timeline | Hook (handleFavorite _ _) | WriteFile F_favorites => favorites
  | Call (c_direct_messages _) | Hook (handleDM _) => directMessages
  | WriteFile F_latest => retweets || replies || directMessages
  | _ => false
  end.

(** [n] successive calls of the cadence gate: their outcomes, and the
    world they leave. *)
Fixpoint gate_calls (runInterval : Z) (n : nat) (w : World)
  : list (outcome bool) * World :=
  match n with
  | O => ([], w)
  | S n' =>
      let '(o, w') := _shouldCheckUpdates runInterval w in
      let '(os, w'') := gate_calls runInterval n' w' in
      (o :: os, w'')
  end.

(** The four secrets of the credentials file, when the file can be parsed
    and holds them all. *)
Definition stored_credentials (f : option ini_file) : option credentials :=
  let secret key :=
    match stored f "TwitterCredentials" key with
    | inr v => Some v
    | inl _ => None
    end in
  c_key ← secret "ConsumerKey";
  c_secret ← secret "ConsumerSecret";
  a_token ← secret "AccessToken";
  a_token_secret ← secret "AccessTokenSecret";
  Some {| ConsumerKey := c_key; ConsumerSecret := c_secret;
          AccessToken := a_token; AccessTokenSecret := a_token_secret |}.

(** The gate lets this call of [checkForUpdates] through, if it answers
    at all: the interval is not positive, or the counter, a number or
    text of ASCII characters, is not. *)
Definition due (runInterval : Z) (w : World) : bool :=
  (runInterval <=? 0)
  || (negb (0 <? stored_interval (UpdateCheckInterval_ini (fs w)))
      && counter_plain (UpdateCheckInterval_ini (fs w))).

(** [m] raises whenever it is run. *)
Definition never_returns {A} (m : M A) : Prop :=
  triple (λ _, True) m (λ _ _, False) (λ _ _, True).

(** The files of [f] that the features in [touched] do not own are what
    they are in [f0]; the credentials file always is. *)
Definition untouched (latest followers favorites counter : bool) (f0 f : FS) : Prop :=
  credentials_ini f = credentials_ini f0
  ∧ (latest = false → latest_ini f = latest_ini f0)
  ∧ (followers = false → followers_txt f = followers_txt f0)
  ∧ (favorites = false → favorites_ini f = favorites_ini f0)
  ∧ (counter = false → UpdateCheckInterval_ini f = UpdateCheckInterval_ini f0).

(** Events that are not hook calls. *)
Definition no_hook (e : event) : bool :=
  match e with Hook _ => false | _ => true end.

(** favorites.ini has a section [key]. *)
Definition has_entry (key : string) (f : FS) : Prop :=
  is_Some (section_of (favorites_ini f) key).

(** The ledger [load_favorites] reads: empty when there is no file. *)
Definition ledger_of (f : option ini_file) : option ConfigParser :=
  match f with
  | None => Some ∅
  | Some (Ini c) => Some c
  | Some Unparseable => None
  end.

(** ** Paths *)

(** [s.endswith('/')] *)
Fixpoint ends_with_sep (s : string) : bool :=
  match s with
  | "" => false
  | String a "" => Ascii.eqb a "/"
  | String _ s' => ends_with_sep s'
  end.

(** [os.path.join(path, b)] of posixpath: an absolute [b] replaces
    [path]; otherwise [b] is appended, after a separator unless [path] is
    empty or already ends with one. *)
Definition path_join (path b : string) : string :=
  if String.prefix "/" b then b
  else if (String.eqb path "") || ends_with_sep path then path +:+ b
  else path +:+ "/" +:+ b.

(** [self.configurationDirectory] as [__init__] sets it. *)
Definition configurationDirectory (given : option string) : string :=
  match given with
  | Some d => d
  | None => path_join "." "EasyTweeter"
  end.

Definition getCredentialsConfigFilename (dir : string) : string :=
  path_join dir "credentials.ini".

Definition getLogFilename (dir : string) : string :=
  path_join (path_join dir "logs") "EasyTweeter.log".

Definition getStateDirectory (dir : string) : string :=
  path_join dir "state".

Definition state_file_name (f : state_file) : string :=
  match f with
  | F_UpdateCheckInterval => "UpdateCheckInterval.ini"
  | F_latest => "latest.ini"
  | F_followers => "followers.txt"
  | F_favorites => "favorites.ini"
  end.

(** [stateFilePath] of the gate and of the five checks. *)
Definition stateFilePath (dir : string) (f : state_file) : string :=
  path_join (getStateDirectory dir) (state_file_name f).

(** The directory with the separator [path_join] puts after it. *)
Definition with_sep (dir : string) : string :=
  if (String.eqb dir "") || ends_with_sep dir then dir else dir +:+ "/".

(** ** More remotes for the examples *)

Module Scenes.

(** A remote that refuses the first [k] submissions of a status with a
    rate-limit error and answers the next ones with [answer]. *)
Definition throttled (k : nat) (answer : exn + status) : Remote :=
  {| verify_credentials := λ _, inr true;
     update_status := λ attempt _,
       if (attempt <? k)%nat then inl (RateLimitError "Rate limit exceeded")
       else answer;
     rate_limit_status := λ _, None;
     retweets_of_me := λ _, inr [];
     home_timeline := λ _, inr [];
     direct_messages := λ _, inr [];
     followers := inr [];
     user_timeline := inr [];
     me := λ _, inr 1 |}.

(** A remote whose follower feed is down. *)
Definition followers_down : Remote :=
  {| verify_credentials := λ _, inr true;
     update_status := λ _ _, inr (Fixtures.post 100 0);
     rate_limit_status := λ _, None;
     retweets_of_me := λ _, inr [Fixtures.post 4 0];
     home_timeline := λ _, inr [];
     direct_messages := λ _, inr [];
     followers := inl ([], TweepError "Twitter error response: status code = 503");
     user_timeline := inr [];
     me := λ _, inr 1 |}.

(** A remote whose direct-message feed honours [since_id]: it delivers
    the messages of [inbox] above it. *)
Definition inbox_since (inbox : list status) : Remote :=
  {| verify_credentials := λ _, inr true;
     update_status := λ _ _, inr (Fixtures.post 100 0);
     rate_limit_status := λ _, None;
     retweets_of_me := λ _, inr [];
     home_timeline := λ _, inr [];
     direct_messages := λ since_id,
       inr match since_id ≫= py_int with
           | Some k => filter (λ s, k < id s) inbox
           | None => inbox
           end;
     followers := inr [];
     user_timeline := inr [];
     me := λ _, inr 1 |}.

End Scenes.

(** * Properties *)

(** ** Facts about the built-ins *)

Section Builtins.

Lemma uint_chars d :
  Forall num_char (list_ascii_of_string (NilEmpty.string_of_uint d)).
Proof.
  induction d; simpl; constructor; try assumption;
    unfold num_char; simpl; set_solver.
Qed.

Lemma str_chars n : Forall num_char (list_ascii_of_string (str n)).
Proof.
  assert (Hu : ∀ d, Forall num_char
                      (list_ascii_of_string (NilZero.string_of_uint d))).
  { intros d. pose proof (uint_chars d) as H. destruct d; try exact H.
    simpl. constructor; [|constructor]. unfold num_char. simpl. set_solver. }
  unfold str. destruct (Z.to_int n) as [d|d]; simpl.
  - apply Hu.
  - constructor; [|apply Hu]. unfold num_char. simpl. set_solver.
Qed.

Lemma num_char_not_space a : num_char a → is_space a = false.
Proof.
  unfold num_char. simpl. rewrite !elem_of_cons, elem_of_nil.
  intros H. repeat (destruct H as [->|H]; [reflexivity|]). destruct H.
Qed.

Lemma to_int_proper n :
  Z.to_int n ≠ Decimal.Pos Decimal.Nil ∧ Z.to_int n ≠ Decimal.Neg Decimal.Nil.
Proof.
  destruct n as [|p|p]; simpl; split; try discriminate;
    intros [= H]; by apply (Unsigned.to_uint_nonnil p).
Qed.

Lemma lstrip_no_space l :
  Forall (λ a, is_space a = false) l → lstrip l = l.
Proof. destruct 1 as [|a l Ha _]; simpl; [done|by rewrite Ha]. Qed.

Lemma strip_no_space s :
  Forall (λ a, is_space a = false) (list_ascii_of_string s) → strip s = s.
Proof.
  intros H. unfold strip.
  rewrite (lstrip_no_space _ H), lstrip_no_space.
  - by rewrite rev_involutive, string_of_list_ascii_of_string.
  - apply List.Forall_rev, H.
Qed.

(** A printed integer has no surrounding white space. *)
Lemma strip_str n : strip (str n) = str n.
Proof.
  apply strip_no_space. eapply Forall_impl; [apply str_chars|].
  apply num_char_not_space.
Qed.

Lemma uint_digits d :
  Forall (λ a, is_digit a = true)
    (list_ascii_of_string (NilEmpty.string_of_uint d)).
Proof. induction d; simpl; constructor; (reflexivity || assumption). Qed.

Lemma digits_ok_digits l :
  Forall (λ a, is_digit a = true) l → digits_ok true l = true.
Proof. induction 1 as [|a l Ha _ IH]; simpl; [done|by rewrite Ha]. Qed.

Lemma digit_not_underscore a : is_digit a = true → Ascii.eqb a "_" = false.
Proof. destruct (Ascii.eqb_spec a "_") as [->|]; [discriminate|done]. Qed.

Lemma digit_not_sign a :
  is_digit a = true → Ascii.eqb a "-" = false ∧ Ascii.eqb a "+" = false.
Proof.
  intros H. split.
  - destruct (Ascii.eqb_spec a "-") as [->|]; [discriminate|done].
  - destruct (Ascii.eqb_spec a "+") as [->|]; [discriminate|done].
Qed.

Lemma filter_digits l :
  Forall (λ a, is_digit a = true) l →
  List.filter (λ a, negb (Ascii.eqb a "_")) l = l.
Proof.
  induction 1 as [|a l Ha _ IH]; simpl; [done|].
  by rewrite (digit_not_underscore a Ha), IH.
Qed.

(** The digits [str] prints are read back as the number they print. *)
Lemma read_digits d :
  d ≠ Decimal.Nil →
  ∃ a l, list_ascii_of_string (NilZero.string_of_uint d) = a :: l
         ∧ is_digit a = true
         ∧ digits_ok false (a :: l) = true
         ∧ NilZero.uint_of_string
             (string_of_list_ascii
                (List.filter (λ a, negb (Ascii.eqb a "_")) (a :: l))) = Some d.
Proof.
  intros Hd.
  assert (Hs : NilZero.string_of_uint d = NilEmpty.string_of_uint d)
    by (by destruct d).
  pose proof (uint_digits d) as Hall. rewrite <- Hs in Hall.
  pose proof (NilZero.usu d Hd) as Hread.
  destruct (list_ascii_of_string (NilZero.string_of_uint d)) as [|a l] eqn:E.
  { destruct d; try done; discriminate E. }
  exists a, l. apply Forall_cons in Hall as Hal. destruct Hal as [Ha Hl].
  repeat split; [done| |].
  - simpl. rewrite Ha. by apply digits_ok_digits.
  - rewrite (filter_digits _ Hall), <- E.
    by rewrite string_of_list_ascii_of_string.
Qed.

(** [int(str(n)) == n] *)
Lemma py_int_str n : py_int (str n) = Some n.
Proof.
  unfold py_int. rewrite strip_str. unfold str.
  destruct (to_int_proper n) as [Hp Hn].
  pose proof (DecimalZ.of_to n) as Hback.
  destruct (Z.to_int n) as [d|d] eqn:E.
  - assert (Hd : d ≠ Decimal.Nil) by congruence.
    destruct (read_digits d Hd) as (a & l & Hl & Ha & Hok & Hread).
    simpl NilZero.string_of_int. rewrite Hl.
    destruct (digit_not_sign a Ha) as [-> ->].
    rewrite Hok, Hread. simpl. by rewrite <- Hback.
  - assert (Hd : d ≠ Decimal.Nil) by congruence.
    destruct (read_digits d Hd) as (a & l & Hl & Ha & Hok & Hread).
    simpl NilZero.string_of_int.
    change (list_ascii_of_string (String "-" ?s))
      with ("-"%char :: list_ascii_of_string s).
    cbv beta iota. rewrite Hl.
    change (Ascii.eqb "-" "-") with true. cbv beta iota.
    rewrite Hok, Hread. simpl. by rewrite <- Hback.
Qed.

Lemma str_inj n m : str n = str m → n = m.
Proof.
  intros H. apply (f_equal py_int) in H. rewrite !py_int_str in H.
  congruence.
Qed.

End Builtins.

(** ** Facts about configparser *)

Section Configuration.

Lemma str_not_default n : str n ≠ "DEFAULT".
Proof.
  intros H. pose proof (str_chars n) as Hc. rewrite H in Hc. simpl in Hc.
  apply Forall_cons in Hc as [Hd _]. unfold num_char in Hd. simpl in Hd.
  rewrite !elem_of_cons, elem_of_nil in Hd.
  repeat (destruct Hd as [Hd|Hd]; [discriminate Hd|]). destruct Hd.
Qed.

Lemma has_section_str c n :
  has_section c (str n) = bool_decide (is_Some (c !! str n)).
Proof.
  unfold has_section. by rewrite (bool_decide_eq_false_2 _ (str_not_default n)).
Qed.

Lemma options_own c s :
  s ≠ "DEFAULT" → options c s = (λ sec, sec ∪ defaults c) <$> c !! s.
Proof. intros H. unfold options. by rewrite (bool_decide_eq_false_2 _ H). Qed.

(** The three ways [config[s][k]] can go. *)
Lemma lookup_cases c s k :
  (has_section c s = false ∧ lookup c s k = inl (KeyError s))
  ∨ (has_section c s = true ∧ has_option c s k = false
     ∧ lookup c s k = inl (KeyError k))
  ∨ (has_section c s = true ∧ has_option c s k = true
     ∧ ∃ d v, options c s = Some d ∧ d !! optionxform k = Some v
              ∧ lookup c s k = before_get d v).
Proof.
  unfold has_section, has_option, lookup, options.
  destruct (bool_decide (s = "DEFAULT")) eqn:Hd; simpl.
  - destruct (defaults c !! optionxform k) as [v|] eqn:E.
    + right; right. rewrite bool_decide_eq_true_2 by eauto. eauto 10.
    + right; left. by rewrite bool_decide_eq_false_2 by (by intros [? ?]).
  - destruct (c !! s) as [sec|] eqn:Hs; simpl.
    + destruct ((sec ∪ defaults c) !! optionxform k) as [v|] eqn:E.
      * right; right. rewrite bool_decide_eq_true_2 by eauto. eauto 10.
      * right; left. by rewrite bool_decide_eq_false_2 by (by intros [? ?]).
    + by left.
Qed.

Lemma interpolate_scan_plain deeper d rest accum :
  Forall (λ a, Ascii.eqb a "%" = false) rest →
  interpolate_scan deeper d Text rest accum = inr (accum ++ rest).
Proof.
  intros H. revert accum. induction H as [|a rest Ha _ IH]; intros accum; simpl.
  - by rewrite app_nil_r.
  - rewrite Ha, IH. by rewrite <- app_assoc.
Qed.

(** A value without "%" is its own interpolation. *)
Lemma before_get_plain d v :
  Forall (λ a, Ascii.eqb a "%" = false) (list_ascii_of_string v) →
  before_get d v = inr v.
Proof.
  intros H. unfold before_get. simpl.
  rewrite (interpolate_scan_plain _ _ _ _ H). simpl.
  by rewrite string_of_list_ascii_of_string.
Qed.

Lemma num_char_not_percent a : num_char a → Ascii.eqb a "%" = false.
Proof.
  unfold num_char. simpl. rewrite !elem_of_cons, elem_of_nil.
  intros H. repeat (destruct H as [->|H]; [reflexivity|]). destruct H.
Qed.

Lemma before_get_str d n : before_get d (str n) = inr (str n).
Proof.
  apply before_get_plain. eapply Forall_impl; [apply str_chars|].
  apply num_char_not_percent.
Qed.

(** What [config[s][k]] gives on a section that holds [k] itself. *)
Lemma lookup_own c s sec k v :
  s ≠ "DEFAULT" → c !! s = Some sec → sec !! optionxform k = Some v →
  lookup c s k = before_get (sec ∪ defaults c) v.
Proof.
  intros Hs Hsec Hk. unfold lookup. rewrite (options_own _ _ Hs), Hsec. simpl.
  by rewrite (lookup_union_Some_l _ _ _ _ Hk).
Qed.

(** Storing under one section leaves the others as they read. *)
Lemma defaults_setitem c s k v :
  s ≠ "DEFAULT" → defaults (setitem c s k v) = defaults c.
Proof. intros H. unfold defaults, setitem. by rewrite lookup_insert_ne. Qed.

Lemma has_section_setitem_ne c s s' k v :
  s ≠ s' → has_section (setitem c s k v) s' = has_section c s'.
Proof. intros H. unfold has_section, setitem. by rewrite lookup_insert_ne. Qed.

Lemma lookup_setitem_ne c s s' k k' v :
  s' ≠ s → s ≠ "DEFAULT" →
  lookup (setitem c s k v) s' k' = lookup c s' k'.
Proof.
  intros H Hs. unfold lookup, options. rewrite defaults_setitem by done.
  unfold setitem. by rewrite lookup_insert_ne.
Qed.

(** A number stored with [setitem] is read back as it is. *)
Lemma lookup_setitem c s k n :
  s ≠ "DEFAULT" → lookup (setitem c s k (str n)) s k = inr (str n).
Proof.
  intros Hs. unfold setitem.
  erewrite lookup_own; [apply before_get_str|done|apply lookup_insert_eq|].
  apply lookup_insert_eq.
Qed.

(** Two configurations that agree on a section and on DEFAULT read the
    same under that section. *)
Lemma lookup_agree c c' s k :
  c' !! s = c !! s → c' !! "DEFAULT" = c !! "DEFAULT" →
  lookup c' s k = lookup c s k ∧ has_section c' s = has_section c s.
Proof.
  intros H1 H2. unfold lookup, has_section, options, defaults.
  by rewrite H1, H2.
Qed.

(** A number that a state file holds in a section of its own is what
    [config[sec][key]] evaluates to. *)
Lemma stored_persisted_str f sec key k :
  sec ≠ "DEFAULT" → persisted f sec key = Some (str k) →
  stored f sec key = inr (str k).
Proof.
  intros Hsec. unfold persisted, stored. destruct f as [[|c]|]; try done.
  destruct (c !! sec) as [own|] eqn:Hown; [|done]. simpl. intros Hk.
  erewrite lookup_own by done. apply before_get_str.
Qed.

End Configuration.

(** ** Reasoning about computations in [M] *)

Lemma bind_assoc {A B C} (m : M A) (f : A → M B) (g : B → M C) w :
  ((m ≫= f) ≫= g) w = (m ≫= λ a, f a ≫= g) w.
Proof. unfold mbind, M_bind. by destruct (m w) as [[a|e] w']. Qed.

Lemma for_each_emit {A} (g : A → event) (l : list A) w :
  for_each l (λ x, emit (g x)) w
  = (Ret tt, {| sleep := sleep w; retries := retries w; api := api w;
                fs := fs w; trace := trace w ++ (g <$> l) |}).
Proof.
  revert w. induction l as [|x l IH]; intros w; simpl.
  - unfold mret, M_ret. rewrite app_nil_r. by destruct w.
  - unfold mbind, M_bind, emit. rewrite IH. simpl.
    by rewrite <- app_assoc.
Qed.

Section Triples.
Context {A : Type}.
Implicit Types (P : World → Prop) (Q : A → World → Prop)
  (E : exn → World → Prop) (m : M A).

Lemma triple_conseq P P' m Q Q' E E' :
  triple P' m Q' E' →
  (∀ w, P w → P' w) → (∀ a w, Q' a w → Q a w) → (∀ e w, E' e w → E e w) →
  triple P m Q E.
Proof.
  intros H HP HQ HE w Hw. specialize (H w (HP w Hw)).
  destruct (m w) as [[a|e] w']; auto.
Qed.

Lemma triple_ret P a Q E : (∀ w, P w → Q a w) → triple P (mret a) Q E.
Proof. intros H w Hw. by apply H. Qed.

Lemma triple_raise P e Q E : (∀ w, P w → E e w) → triple P (raise e) Q E.
Proof. intros H w Hw. by apply H. Qed.

Lemma triple_pure (φ : Prop) P m Q E :
  (φ → triple P m Q E) → triple (λ w, φ ∧ P w) m Q E.
Proof. intros H w [Hφ Hw]. by apply H. Qed.

Lemma triple_try_log msg P m Q E :
  triple P m Q (λ e w, E e (record (LogException msg e) w)) →
  triple P (try_log msg m) Q E.
Proof.
  intros H w Hw. specialize (H w Hw). unfold try_log.
  by destruct (m w) as [[a|e] w'].
Qed.

Lemma triple_catch P m h Q E E' :
  triple P m Q E' → (∀ e, triple (E' e) (h e) Q E) →
  triple P (catch m h) Q E.
Proof.
  intros H Hh w Hw. specialize (H w Hw). unfold catch.
  destruct (m w) as [[a|e] w']; [done|]. by apply Hh.
Qed.
End Triples.

(** What a collecting loop over a feed comes to. *)
Lemma cursor_eq {A} c limit (answer : feed A) w :
  cursor c limit answer w
  = (match yielded limit answer with
     | (seen, None) => Ret seen
     | (_, Some e) => Raise e
     end, record (Call c) w).
Proof.
  unfold cursor, cursor_some, raise_pending, mbind, M_bind, emit, mret, M_ret.
  by destruct (yielded limit answer) as [seen [e|]].
Qed.

Lemma yielded_all {A} limit (l : list A) :
  yielded limit (inr l) = (items limit l, None).
Proof. done. Qed.

Lemma triple_bind {A B} P (m : M A) (f : A → M B) R Q E :
  triple P m R E → (∀ a, triple (R a) (f a) Q E) → triple P (m ≫= f) Q E.
Proof.
  intros Hm Hf w Hw. specialize (Hm w Hw). unfold mbind, M_bind.
  destruct (m w) as [[a|e] w']; [|done]. by apply Hf.
Qed.

Lemma triple_get P Q E : (∀ w, P w → Q w w) → triple P get Q E.
Proof. intros H w Hw. by apply H. Qed.

Lemma triple_emit P e Q E :
  (∀ w, P w → Q tt (record e w)) → triple P (emit e) Q E.
Proof. intros H w Hw. by apply H. Qed.

Lemma triple_set_fs P f Q E :
  (∀ w, P w → Q tt (put_fs f w)) → triple P (set_fs f) Q E.
Proof. intros H w Hw. by apply H. Qed.

Lemma triple_set_api P b Q E :
  (∀ w, P w → Q tt (put_api b w)) → triple P (set_api b) Q E.
Proof. intros H w Hw. by apply H. Qed.

Lemma triple_for_each {A} (I : World → Prop) (f : A → M unit) l E :
  (∀ x, triple I (f x) (λ _, I) E) → triple I (for_each l f) (λ _, I) E.
Proof.
  intros H. induction l as [|x l IH]; simpl.
  - by apply triple_ret.
  - eapply triple_bind; [apply H|]. intros ?. apply IH.
Qed.

(** *** Computations that keep a property of the state directory *)

Section Keeps.
Context (J : FS → Prop).

Lemma keeps_ret {A} (a : A) : keeps J (mret a).
Proof. by apply triple_ret. Qed.

Lemma keeps_raise {A} e : keeps J (@raise A e).
Proof. by apply triple_raise. Qed.

Lemma keeps_bind {A B} (m : M A) (f : A → M B) :
  keeps J m → (∀ a, keeps J (f a)) → keeps J (m ≫= f).
Proof. intros Hm Hf. eapply triple_bind; [apply Hm|]. intros a. apply Hf. Qed.

Lemma keeps_get : keeps J get.
Proof. by apply triple_get. Qed.

Lemma keeps_emit e : keeps J (emit e).
Proof. by apply triple_emit. Qed.

Lemma keeps_log l msg : keeps J (log l msg).
Proof. apply keeps_emit. Qed.

Lemma keeps_set_api b : keeps J (set_api b).
Proof. by apply triple_set_api. Qed.

Lemma keeps_try_log {A} msg (m : M A) : keeps J m → keeps J (try_log msg m).
Proof. intros H. apply triple_try_log. exact H. Qed.

Lemma keeps_catch {A} (m : M A) h :
  keeps J m → (∀ e, keeps J (h e)) → keeps J (catch m h).
Proof. intros H Hh. eapply triple_catch; [apply H|]. intros e. apply Hh. Qed.

Lemma keeps_for_each {A} (f : A → M unit) l :
  (∀ x, keeps J (f x)) → keeps J (for_each l f).
Proof.
  intros H.
  apply (triple_for_each (λ w, J (fs w)) f l (λ _ w, J (fs w))), H.
Qed.

Lemma keeps_read_file f : keeps J (read_file f).
Proof. destruct f; [apply keeps_raise|apply keeps_ret]. Qed.

Lemma keeps_getitem c s k : keeps J (getitem c s k).
Proof.
  unfold getitem. destruct (lookup c s k); [apply keeps_raise|apply keeps_ret].
Qed.

Lemma keeps_cursor_some {A} c limit (r : feed A) :
  keeps J (cursor_some c limit r).
Proof.
  unfold cursor_some. apply keeps_bind; [apply keeps_emit|]. intros ?.
  apply keeps_ret.
Qed.

Lemma keeps_raise_pending pending : keeps J (raise_pending pending).
Proof. destruct pending; [apply keeps_raise|apply keeps_ret]. Qed.

Lemma keeps_cursor {A} c limit (r : feed A) : keeps J (cursor c limit r).
Proof.
  unfold cursor. apply keeps_bind; [apply keeps_cursor_some|].
  intros [seen pending].
  apply keeps_bind; [apply keeps_raise_pending|]. intros ?. apply keeps_ret.
Qed.

Lemma keeps_scan_replies r fetched asked news :
  keeps J (scan_replies r fetched asked news).
Proof.
  revert asked news. induction fetched as [|msg rest IH]; intros asked news.
  - apply keeps_ret.
  - simpl. apply keeps_bind; [apply keeps_emit|]. intros ?.
    destruct (me r asked); [apply keeps_raise|apply IH].
Qed.

Lemma keeps_connect r c : keeps J (connect r c).
Proof.
  unfold connect. apply keeps_bind; [apply keeps_emit|]. intros ?.
  destruct (verify_credentials r c) as [e|[]]; try apply keeps_raise.
  apply keeps_bind; [apply keeps_log|]. intros ?. apply keeps_set_api.
Qed.

Lemma keeps_connectFromConfig r : keeps J (connectFromConfig r).
Proof.
  unfold connectFromConfig. apply keeps_bind; [apply keeps_log|]. intros ?.
  apply keeps_bind; [apply keeps_get|]. intros w.
  destruct (credentials_ini (fs w)); [|apply keeps_raise].
  apply keeps_bind; [apply keeps_read_file|]. intros c.
  repeat (apply keeps_bind; [apply keeps_getitem|]; intros ?).
  apply keeps_connect.
Qed.

Lemma keeps_ensure_connected r : keeps J (ensure_connected r).
Proof.
  unfold ensure_connected. apply keeps_bind; [apply keeps_get|]. intros w.
  destruct (api w); [apply keeps_ret|apply keeps_connectFromConfig].
Qed.

(** Creating the directory and writing a file keep [J] when the update
    of the directory does. *)
Hypothesis J_state_dir : ∀ f, J f → J (with_state_dir f).

Lemma keeps_initState : keeps J _initState.
Proof.
  unfold _initState. intros w Hw. unfold mbind, M_bind, get.
  destruct (state_dir (fs w)); simpl; [done|]. by apply J_state_dir.
Qed.

Lemma keeps_write file update :
  (∀ f, J f → J (update f)) → keeps J (write file update).
Proof. intros H w Hw. simpl. by apply H. Qed.

End Keeps.

Ltac keeps_step :=
  lazymatch goal with
  | |- keeps _ (mbind _ _) => apply keeps_bind; [|intros ?; cbv beta]
  | |- keeps _ (mret _) => apply keeps_ret
  | |- keeps _ (raise _) => apply keeps_raise
  | |- keeps _ get => apply keeps_get
  | |- keeps _ (emit _) => apply keeps_emit
  | |- keeps _ (log _ _) => apply keeps_log
  | |- keeps _ (try_log _ _) => apply keeps_try_log
  | |- keeps _ (catch _ _) => apply keeps_catch; [|intros ?; cbv beta]
  | |- keeps _ (for_each _ _) => apply keeps_for_each; intros ?; cbv beta
  | |- keeps _ (cursor _ _ _) => apply keeps_cursor
  | |- keeps _ (cursor_some _ _ _) => apply keeps_cursor_some
  | |- keeps _ (raise_pending _) => apply keeps_raise_pending
  | |- keeps _ (scan_replies _ _ _ _) => apply keeps_scan_replies
  | |- keeps _ (fetch_replies _ _ _) => unfold fetch_replies
  | |- keeps _ (fetch_direct_messages _ _ _ _) => unfold fetch_direct_messages
  | |- keeps _ (read_file _) => apply keeps_read_file
  | |- keeps _ (getitem _ _ _) => apply keeps_getitem
  | |- keeps _ (ensure_connected _) => apply keeps_ensure_connected
  | |- keeps _ (connectFromConfig _) => apply keeps_connectFromConfig
  | |- keeps _ (match ?x with _ => _ end) => destruct x
  end.

(** *** The five checks write only their own files *)

Section ChecksKeep.
Context (J : FS → Prop).
Hypothesis J_state_dir : ∀ f, J f → J (with_state_dir f).
Hypothesis J_latest : ∀ c f, J f → J (with_latest c f).
Hypothesis J_followers : ∀ l f, J f → J (with_followers l f).
Hypothesis J_favorites : ∀ c f, J f → J (with_favorites c f).

Lemma keeps_load_latest sec : keeps J (load_latest sec).
Proof. unfold load_latest. repeat keeps_step. by apply keeps_initState. Qed.

Lemma keeps_save_latest sec what l c : keeps J (save_latest sec what l c).
Proof.
  unfold save_latest. repeat keeps_step.
  apply keeps_write. intros f. apply J_latest.
Qed.

Lemma keeps_checkDirectMessages r n b : keeps J (checkDirectMessages r n b).
Proof.
  unfold checkDirectMessages, fetch_direct_messages. repeat keeps_step;
    [apply keeps_load_latest|apply keeps_save_latest].
Qed.

Lemma keeps_checkRetweets r n : keeps J (checkRetweets r n).
Proof.
  unfold checkRetweets. repeat keeps_step;
    [apply keeps_load_latest|apply keeps_save_latest].
Qed.

Lemma keeps_checkReplies r n : keeps J (checkReplies r n).
Proof.
  unfold checkReplies, fetch_replies. repeat keeps_step;
    [apply keeps_load_latest|apply keeps_save_latest].
Qed.

Lemma keeps_load_followers : keeps J load_followers.
Proof. unfold load_followers. repeat keeps_step. by apply keeps_initState. Qed.

Lemma keeps_checkNewFollowers r n : keeps J (checkNewFollowers r n).
Proof.
  unfold checkNewFollowers. repeat keeps_step;
    [apply keeps_load_followers|].
  apply keeps_write. intros f. apply J_followers.
Qed.

Lemma keeps_scan_favorites l c news : keeps J (scan_favorites l c news).
Proof.
  revert c news. induction l as [|msg l IH]; intros c news; simpl.
  - keeps_step.
  - repeat keeps_step; apply IH.
Qed.

Lemma keeps_load_favorites : keeps J load_favorites.
Proof. unfold load_favorites. repeat keeps_step. by apply keeps_initState. Qed.

Lemma keeps_checkFavorites r n : keeps J (checkFavorites r n).
Proof.
  unfold checkFavorites. repeat keeps_step;
    [apply keeps_load_favorites|apply keeps_scan_favorites|].
  apply keeps_write. intros f. apply J_favorites.
Qed.


End ChecksKeep.

(** ** The cadence gate *)

Section Gate.

Lemma initState_eq w : _initState w = (Ret tt, init_world w).
Proof.
  unfold _initState, init_world, mbind, M_bind, get.
  by destruct (state_dir (fs w)).
Qed.

Lemma init_world_fs w :
  fs (init_world w) = fs w ∨ fs (init_world w) = with_state_dir (fs w).
Proof. unfold init_world. destruct (state_dir (fs w)); auto. Qed.

Lemma init_world_api w : api (init_world w) = api w.
Proof. unfold init_world. by destruct (state_dir (fs w)). Qed.

(** Reading a counter file that answers never raises, and changes
    nothing but the log. *)
Lemma load_interval_spec w :
  counter_answers (UpdateCheckInterval_ini (fs w)) = true →
  ∃ c t,
    load_interval w
    = (Ret (stored_interval (UpdateCheckInterval_ini (fs w)), c),
       {| sleep := sleep w; retries := retries w; api := api w;
          fs := fs w; trace := trace w ++ t |})
    ∧ (∀ s, c !! s = section_of (UpdateCheckInterval_ini (fs w)) s).
Proof.
  intros Hf.
  unfold load_interval, stored_interval, stored, section_of, counter_answers in *.
  unfold mbind at 1, M_bind at 1, get.
  destruct (UpdateCheckInterval_ini (fs w)) as [[|c]|]; [done| |].
  - exists c. unfold mbind at 1, M_bind at 1. simpl read_file.
    unfold mret at 1, M_ret at 1. unfold mbind at 1, M_bind at 1.
    destruct (lookup_cases c "Update Check Interval" "last")
      as [[-> ->]|[(-> & -> & ->)|(Hs & Ho & _)]].
    + exists []. simpl. rewrite app_nil_r. split; [by destruct w|done].
    + eexists; split; done.
    + rewrite Hs, Ho in *. unfold getitem, mbind at 1, M_bind at 1. simpl in Hf.
      destruct (lookup c "Update Check Interval" "last") as [e|v]; [done|].
      simpl. destruct (py_int v) as [n|] eqn:Hn; simpl; eexists; split; done.
  - exists ∅, []. simpl. rewrite app_nil_r. split; [by destruct w|done].
Qed.

(** Reading a counter file that does not answer raises at once. *)
Lemma load_interval_raises w :
  counter_answers (UpdateCheckInterval_ini (fs w)) = false →
  ∃ e, load_interval w = (Raise e, w).
Proof.
  unfold load_interval, counter_answers.
  unfold mbind at 1, M_bind at 1, get.
  destruct (UpdateCheckInterval_ini (fs w)) as [[|c]|]; [by eexists| |done].
  unfold mbind at 1, M_bind at 1. simpl read_file.
  unfold mret at 1, M_ret at 1. unfold mbind at 1, M_bind at 1.
  destruct (has_section c "Update Check Interval"); [|done].
  destruct (has_option c "Update Check Interval" "last"); [|done].
  simpl. unfold getitem, mbind at 1, M_bind at 1.
  destruct (lookup c "Update Check Interval" "last") as [e|v]; [|done].
  intros _. by exists e.
Qed.

Lemma legible_answers f : counter_legible f = true → counter_answers f = true.
Proof. unfold counter_legible. by intros [? _]%andb_prop. Qed.

(** A counter file with a positive counter is legible. *)
Lemma positive_legible f : 0 < stored_interval f → counter_legible f = true.
Proof.
  unfold counter_legible, counter_plain, counter_answers, stored_interval, stored.
  destruct f as [[|c]|]; [lia| |lia].
  destruct (lookup c "Update Check Interval" "last") as [e|v]; [lia|].
  destruct (py_int v); simpl; [|lia].
  by destruct (has_section _ _ && has_option _ _ _).
Qed.

(** The gate on a counter file that answers: it says "check" exactly when
    the stored counter is not positive, and always rewrites the file,
    with the decremented counter or with the interval. *)
Lemma gate_spec runInterval w :
  counter_answers (UpdateCheckInterval_ini (fs w)) = true →
  let n := stored_interval (UpdateCheckInterval_ini (fs w)) in
  ∃ w',
    _shouldCheckUpdates runInterval w = (Ret (negb (0 <? n)), w')
    ∧ persisted (UpdateCheckInterval_ini (fs w')) "Update Check Interval" "last"
      = Some (str (if 0 <? n then n - 1 else runInterval))
    ∧ (∀ s, s ≠ "Update Check Interval" →
         section_of (UpdateCheckInterval_ini (fs w')) s
         = section_of (UpdateCheckInterval_ini (fs w)) s)
    ∧ latest_ini (fs w') = latest_ini (fs w)
    ∧ followers_txt (fs w') = followers_txt (fs w)
    ∧ favorites_ini (fs w') = favorites_ini (fs w)
    ∧ api w' = api w
    ∧ last (trace w') = Some (WriteFile F_UpdateCheckInterval).
Proof.
  intros Hf n. destruct (load_interval_spec w Hf) as (c & t & Hl & Hc).
  fold n in Hl. unfold _shouldCheckUpdates.
  unfold mbind at 1, M_bind at 1. rewrite Hl.
  set (toSave := if 0 <? n then n - 1 else runInterval).
  set (w1 := {| sleep := sleep w; retries := retries w; api := api w;
                fs := fs w; trace := trace w ++ t |}).
  unfold mbind at 1, M_bind at 1.
  assert (∃ e, (if 0 <? n
            then log INFO ("update check interval not hit. Saving value for next time: " +:+ str toSave)
            else log INFO ("update check interval was hit, so updates will be checked. Saving value for next time: " +:+ str toSave)) w1
          = (Ret tt, record e w1)) as [e ->].
  { destruct (0 <? n); eexists; reflexivity. }
  unfold mbind at 1, M_bind at 1. rewrite initState_eq.
  set (w2 := init_world (record e w1)).
  eexists. split; [reflexivity|]. simpl.
  assert (Hfs : fs w2 = fs w ∨ fs w2 = with_state_dir (fs w)).
  { subst w2. destruct (init_world_fs (record e w1)) as [->| ->]; auto. }
  repeat split.
  - unfold setitem. rewrite lookup_insert_eq. simpl.
    by rewrite lookup_insert_eq.
  - intros s Hs. unfold setitem. rewrite lookup_insert_ne by done. apply Hc.
  - by destruct Hfs as [->| ->].
  - by destruct Hfs as [->| ->].
  - by destruct Hfs as [->| ->].
  - subst w2. by rewrite init_world_api.
  - by rewrite last_snoc.
Qed.

End Gate.

(** ** C2: the cadence gate at interval 3 *)

(** C2.  With interval 3 and the counter freshly reset to 3 by a check,
    the gate answers "skip" three times, storing 2, 1 and 0, and answers
    "check" only on the fourth call, which stores 3 again: the third call
    is a skip, not the check the claim expects. *)
Theorem gate_interval_3_checks_on_fourth_call :
  let gate w := _shouldCheckUpdates 3 w in
  let w0 := snd (gate (Fixtures.connected Fixtures.no_files)) in
  let w1 := snd (gate w0) in
  let w2 := snd (gate w1) in
  let w3 := snd (gate w2) in
  let w4 := snd (gate w3) in
  Fixtures.counter w0 = Some "3"
  ∧ (fst (gate w0), Fixtures.counter w1) = (Ret false, Some "2")
  ∧ (fst (gate w1), Fixtures.counter w2) = (Ret false, Some "1")
  ∧ (fst (gate w2), Fixtures.counter w3) = (Ret false, Some "0")
  ∧ (fst (gate w3), Fixtures.counter w4) = (Ret true, Some "3").
Proof. vm_compute. repeat split. Qed.

(** The same for every interval and every world: a stored counter [n > 0]
    makes the gate skip and store [n - 1]. *)
Lemma gate_skips_while_positive runInterval w :
  let n := stored_interval (UpdateCheckInterval_ini (fs w)) in
  0 < n →
  ∃ w', _shouldCheckUpdates runInterval w = (Ret false, w')
        ∧ Fixtures.counter w' = Some (str (n - 1)).
Proof.
  intros n Hpos. unfold Fixtures.counter.
  destruct (gate_spec runInterval w (legible_answers _ (positive_legible _ Hpos)))
    as (w' & Hrun & Hsaved & _).
  fold n in Hrun, Hsaved.
  assert ((0 <? n) = true) as E by lia. rewrite E in *.
  by exists w'.
Qed.

(** ** C3: validation in [tweet] *)

(** C3.  On a connected client a message of 281 characters raises
    [TypeError], not [ValueError]; on a client that is not yet connected
    the absent message [None] is not rejected at all: the client
    authenticates and submits it. *)
Theorem tweet_invalid_message_not_rejected :
  len Fixtures.long_message = 281
  ∧ (let '(o, w) := tweet Fixtures.quiet (Some Fixtures.long_message)
                      (Fixtures.connected Fixtures.no_files) in
     o = Raise TypeError ∧ api_calls (trace w) = [])
  ∧ (let '(o, w) := tweet Fixtures.quiet None
                      (Fixtures.fresh Fixtures.only_credentials) in
     o = Ret tt
     ∧ api_calls (trace w) = [c_verify_credentials; c_update_status None]).
Proof. vm_compute. repeat split. Qed.

(** On a connected client the absent and the empty message are rejected
    with [ValueError] before any remote call. *)
Lemma tweet_rejects_none_and_empty r w message :
  api w = true → message = None ∨ message = Some "" →
  ∃ msg, tweet r message w
         = (Raise (ValueError msg),
            record (LogException "Exception encountered while attempting to tweet"
                      (ValueError msg)) w).
Proof.
  intros Hapi [-> | ->]; eexists;
    unfold tweet, tweet_error_checking, try_log, mbind, M_bind, get;
    rewrite Hapi; reflexivity.
Qed.

(** ** C4: a run interval that is not positive *)




(** ** C1 and C9: the retweet check keeps the order of the feed *)

(** C1.  When the retweet feed delivers the identifiers 5, 9, 3 in that
    order, [checkRetweets] persists the marker 5, the identifier of the
    first item, although the largest identifier is 9; the direct-message
    check on the same feed persists 9. *)
Theorem checkRetweets_marker_is_first_item :
  let fetched := [Fixtures.post 5 0; Fixtures.post 9 0; Fixtures.post 3 0] in
  let r := Fixtures.feeds fetched fetched [] [] [] in
  let w := Fixtures.connected Fixtures.no_files in
  max_id fetched = Some 9
  ∧ fst (checkRetweets r 50 w) = Ret fetched
  ∧ persisted (latest_ini (fs (snd (checkRetweets r 50 w)))) "Retweets" "LatestSeen"
    = Some "5"
  ∧ persisted (latest_ini (fs (snd (checkDirectMessages r 50 false w))))
      "DirectMessages" "LatestSeen"
    = Some "9".
Proof. vm_compute. repeat split. Qed.

(** C9.  On the same feed [checkRetweets] writes the state file first and
    then calls [handleRetweet] on 5, 9 and 3 in feed order, which is not
    descending; [checkDirectMessages] calls [handleDM] on 9, 5 and 3. *)
Theorem checkRetweets_hooks_in_feed_order :
  let fetched := [Fixtures.post 5 0; Fixtures.post 9 0; Fixtures.post 3 0] in
  let r := Fixtures.feeds fetched fetched [] [] [] in
  let w := Fixtures.connected Fixtures.no_files in
  hooks_and_writes (trace (snd (checkRetweets r 50 w)))
  = [WriteFile F_latest;
     Hook (handleRetweet (Fixtures.post 5 0));
     Hook (handleRetweet (Fixtures.post 9 0));
     Hook (handleRetweet (Fixtures.post 3 0))]
  ∧ hooks_and_writes (trace (snd (checkDirectMessages r 50 false w)))
    = [WriteFile F_latest;
       Hook (handleDM (Fixtures.post 9 0));
       Hook (handleDM (Fixtures.post 5 0));
       Hook (handleDM (Fixtures.post 3 0))].
Proof. vm_compute. repeat split. Qed.

(** ** C5: direct messages without the permission *)

(** The steps of a check that precede its fetch: connecting if needed,
    the opening log line, loading the state. *)
Lemma prelude_inv {A} r msg (loader : M A) w a w1 :
  (_ ← ensure_connected r; _ ← log INFO msg; loader) w = (Ret a, w1) →
  ∃ wa, ensure_connected r w = (Ret tt, wa)
        ∧ loader (record (Log INFO msg) wa) = (Ret a, w1).
Proof.
  unfold mbind, M_bind. destruct (ensure_connected r w) as [[[]|e] wa]; [|done].
  intros H. exists wa. split; [done|]. exact H.
Qed.

(** C5 fails as stated: when the remote delivers a message and answers
    the request for more with 403, the check with
    [failureOnMissingPermission] false returns that message, stores its
    identifier as the marker and calls [handleDM] on it. *)
Lemma checkDirectMessages_403_after_delivery :
  let r := Fixtures.dm_permission_lost in
  let w := Fixtures.connected Fixtures.no_files in
  direct_messages r None
  = inl ([Fixtures.post 5 0],
         TweepError "Twitter error response: status code = 403")
  ∧ fst (checkDirectMessages r 50 false w) = Ret [Fixtures.post 5 0]
  ∧ fst (checkDirectMessages r 50 false w) ≠ Ret []
  ∧ hooks_and_writes (trace (snd (checkDirectMessages r 50 false w)))
    = [WriteFile F_latest; Hook (handleDM (Fixtures.post 5 0))]
  ∧ persisted (latest_ini (fs (snd (checkDirectMessages r 50 false w))))
      "DirectMessages" "LatestSeen"
    = Some "5".
Proof. vm_compute. repeat split. discriminate. Qed.

(** C5, amended.  When [checkDirectMessages] reaches its fetch and the
    iterator, after the messages [delivered], fails with a tweepy error
    whose reason carries "status code = 403": with
    [failureOnMissingPermission] false the check returns the delivered
    messages, sorted, without raising, and if none was delivered it
    returns the empty list, writes nothing and calls no hook; with the
    flag true it raises [MissingPermissionsError] and writes nothing. *)
Theorem checkDirectMessages_permission_denied
    r maxMessagesLoaded failureOnMissingPermission w last config w1
    delivered reason :
  (_ ← ensure_connected r;
   _ ← log INFO "Checking for new direct messages";
   load_latest "DirectMessages") w = (Ret (last, config), w1) →
  yielded maxMessagesLoaded (direct_messages r last)
  = (delivered, Some (TweepError reason)) →
  contains "status code = 403" reason = true →
  ∃ w',
    checkDirectMessages r maxMessagesLoaded failureOnMissingPermission w
    = (if failureOnMissingPermission
       then Raise MissingPermissionsError
       else Ret (sort_reverse delivered), w')
    ∧ (failureOnMissingPermission = true ∨ delivered = [] →
       fs w' = fs w1
       ∧ trace w'
         = (trace w1 ++ Call (c_direct_messages last) ::
             (if failureOnMissingPermission
              then [LogException
                      "Exception encountered while attempting to check direct messages"
                      MissingPermissionsError]
              else [Log INFO "Twitter user lacks direct message permissions. This is the typical configuration for twitter apps. This error will be ignored, and direct messages will not be checked.";
                    Log INFO "no new direct messages"]))%list).
Proof.
  intros Hpre Hdm H403. apply prelude_inv in Hpre as (wa & He & Hl).
  unfold checkDirectMessages, try_log.
  unfold mbind at 1, M_bind at 1. rewrite He.
  unfold mbind at 1, M_bind at 1. unfold log at 1, emit at 1.
  unfold mbind at 1, M_bind at 1. rewrite Hl.
  unfold mbind at 1, M_bind at 1.
  unfold fetch_direct_messages, cursor_some.
  unfold mbind at 1, M_bind at 1. unfold mbind at 1, M_bind at 1.
  unfold emit at 1, mret at 1, M_ret at 1. rewrite Hdm, H403.
  destruct failureOnMissingPermission.
  - eexists. split; [reflexivity|]. intros _. simpl. split; [done|].
    by rewrite <- app_assoc.
  - unfold mbind at 1, M_bind at 1. unfold log at 1, emit at 1.
    unfold mret at 1, M_ret at 1.
    unfold mbind at 1, M_bind at 1.
    destruct (sort_reverse delivered) as [|first rest] eqn:Hsort.
    + eexists. split; [reflexivity|]. intros [?| ->]; [done|]. simpl.
      split; [done|]. by rewrite <- !app_assoc.
    + set (notify := for_each _ _).
      unfold save_latest, write, mbind, M_bind, log, emit, get, set_fs.
      subst notify. rewrite for_each_emit.
      eexists. split; [reflexivity|]. intros [?| ->]; [done|].
      discriminate Hsort.
Qed.

Lemma checkDirectMessages_permission_denied_witness :
  let w := Fixtures.connected Fixtures.no_files in
  (∃ w', checkDirectMessages Fixtures.no_dm_permission 50 false w = (Ret [], w')
         ∧ fs w' = with_state_dir Fixtures.no_files)
  ∧ (∃ w', checkDirectMessages Fixtures.no_dm_permission 50 true w
           = (Raise MissingPermissionsError, w'))
  ∧ (∃ w', checkDirectMessages Fixtures.dm_permission_lost 50 false w
           = (Ret [Fixtures.post 5 0], w')).
Proof.
  pose (w := Fixtures.connected Fixtures.no_files).
  pose (pre := (_ ← ensure_connected Fixtures.no_dm_permission;
                _ ← log INFO "Checking for new direct messages";
                load_latest "DirectMessages") w).
  split; [|split].
  - destruct (checkDirectMessages_permission_denied Fixtures.no_dm_permission
                50 false w None ∅ (snd pre) []
                "Twitter error response: status code = 403")
      as (w' & Hrun & Hrest); [reflexivity..|].
    destruct Hrest as [Hfs _]; [by right|].
    exists w'. split; [exact Hrun|]. rewrite Hfs. reflexivity.
  - destruct (checkDirectMessages_permission_denied Fixtures.no_dm_permission
                50 true w None ∅ (snd pre) []
                "Twitter error response: status code = 403")
      as (w' & Hrun & _); [reflexivity..|].
    exists w'. exact Hrun.
  - destruct (checkDirectMessages_permission_denied Fixtures.dm_permission_lost
                50 false w None ∅ (snd pre) [Fixtures.post 5 0]
                "Twitter error response: status code = 403")
      as (w' & Hrun & _); [reflexivity..|].
    exists w'. exact Hrun.
Defined.

(** ** C6: loading state from missing, incomplete and unreadable files *)

(** C6.  Four state files that are malformed or incomplete make the
    load raise instead of falling back to the default: a counter file
    that cannot be parsed, a counter file whose value is [50%] (the value
    is read before the [try] that handles invalid data), a marker
    section without its option and a ledger section without its option
    (for which the counter load logs "incomplete data" and answers 0). *)
Theorem state_load_raises_on_broken_file :
  fst (_shouldCheckUpdates 7 (Fixtures.connected Broken.counter_unparseable))
  = Raise ConfigParserError
  ∧ fst (_shouldCheckUpdates 7 (Fixtures.connected Broken.counter_percent))
    = Raise InterpolationSyntaxError
  ∧ fst (checkDirectMessages Fixtures.quiet 50 false
           (Fixtures.connected Broken.latest_without_option))
    = Raise (KeyError "LatestSeen")
  ∧ fst (checkFavorites
           (Fixtures.feeds [] [] [] [Fixtures.post 7 2] []) 50
           (Fixtures.connected Broken.favorites_without_option))
    = Raise (KeyError "favorites")
  ∧ fst (load_interval (Fixtures.connected Broken.counter_without_option))
    = Ret (0, {[ "Update Check Interval" := ∅ ]}).
Proof. vm_compute. repeat split. Qed.

Lemma world_eta w :
  {| sleep := sleep w; retries := retries w; api := api w;
     fs := fs w; trace := trace w ++ [] |} = w.
Proof. rewrite app_nil_r. by destruct w. Qed.

(** Where the loads do fall back.  Every state load treats a missing file
    as the default state (counter 0, no marker, no known follower, empty
    ledger).  The counter load also answers 0, without raising, on a
    legible file in which the section or its option is missing or the
    value is not an integer, and logs an error when the section is
    there; a marker load answers "no marker" on a parsed file without
    the feature's section. *)
Lemma state_loads_defaults w :
  (UpdateCheckInterval_ini (fs w) = None → load_interval w = (Ret (0, ∅), w))
  ∧ (∀ c, UpdateCheckInterval_ini (fs w) = Some (Ini c) →
          counter_legible (Some (Ini c)) = true →
          (∀ v, lookup c "Update Check Interval" "last" = inr v →
                py_int v = None) →
          ∃ t, load_interval w
               = (Ret (0, c),
                  {| sleep := sleep w; retries := retries w; api := api w;
                     fs := fs w; trace := trace w ++ t |})
               ∧ (has_section c "Update Check Interval" = true →
                  ∃ msg, t = [Log ERROR msg]))
  ∧ (∀ sec, latest_ini (fs w) = None →
            load_latest sec w = (Ret (None, ∅), init_world w))
  ∧ (∀ sec c, latest_ini (fs w) = Some (Ini c) → has_section c sec = false →
              load_latest sec w = (Ret (None, c), init_world w))
  ∧ (followers_txt (fs w) = None → load_followers w = (Ret [], init_world w))
  ∧ (favorites_ini (fs w) = None → load_favorites w = (Ret ∅, init_world w)).
Proof.
  assert (Hlatest : latest_ini (fs (init_world w)) = latest_ini (fs w)).
  { by destruct (init_world_fs w) as [->| ->]. }
  assert (Hfollowers : followers_txt (fs (init_world w)) = followers_txt (fs w)).
  { by destruct (init_world_fs w) as [->| ->]. }
  assert (Hfavorites : favorites_ini (fs (init_world w)) = favorites_ini (fs w)).
  { by destruct (init_world_fs w) as [->| ->]. }
  repeat split.
  - intros H. unfold load_interval, mbind, M_bind, get. rewrite H. simpl.
    reflexivity.
  - intros c H Hleg Hbad. unfold load_interval.
    unfold mbind at 1, M_bind at 1, get. rewrite H.
    unfold mbind at 1, M_bind at 1. simpl read_file.
    unfold mret at 1, M_ret at 1. unfold mbind at 1, M_bind at 1.
    apply legible_answers in Hleg. unfold counter_answers in Hleg.
    destruct (lookup_cases c "Update Check Interval" "last")
      as [[-> _]|[(-> & -> & _)|(Hs & Ho & _)]].
    + exists []. simpl. rewrite world_eta. split; [done|]. done.
    + eexists. split; [reflexivity|]. eauto.
    + rewrite Hs, Ho in *. unfold getitem, mbind at 1, M_bind at 1.
      simpl in Hleg.
      destruct (lookup c "Update Check Interval" "last") as [e|v]; [done|].
      simpl. rewrite (Hbad v eq_refl). eexists. split; [reflexivity|]. eauto.
  - intros sec H. unfold load_latest, mbind, M_bind. rewrite initState_eq.
    unfold get. by rewrite Hlatest, H.
  - intros sec c H Hsec. unfold load_latest, mbind, M_bind.
    rewrite initState_eq. unfold get. rewrite Hlatest, H. simpl.
    unfold mret, M_ret. by rewrite Hsec.
  - intros H. unfold load_followers, mbind, M_bind. rewrite initState_eq.
    unfold get. by rewrite Hfollowers, H.
  - intros H. unfold load_favorites, mbind, M_bind. rewrite initState_eq.
    unfold get. by rewrite Hfavorites, H.
Qed.

Lemma state_loads_defaults_witness :
  load_interval (Fixtures.fresh Fixtures.no_files)
  = (Ret (0, ∅), Fixtures.fresh Fixtures.no_files)
  ∧ (∃ t, load_interval (Fixtures.fresh (Fixtures.with_counter "soon"))
          = (Ret (0, Fixtures.counter_file "soon"),
             {| sleep := 960; retries := 2; api := false;
                fs := Fixtures.with_counter "soon"; trace := [] ++ t |})
          ∧ (has_section (Fixtures.counter_file "soon") "Update Check Interval"
             = true →
             ∃ msg, t = [Log ERROR msg]))
  ∧ load_latest "Replies" (Fixtures.fresh Fixtures.no_files)
    = (Ret (None, ∅), init_world (Fixtures.fresh Fixtures.no_files))
  ∧ load_followers (Fixtures.fresh Fixtures.no_files)
    = (Ret [], init_world (Fixtures.fresh Fixtures.no_files))
  ∧ load_favorites (Fixtures.fresh Fixtures.no_files)
    = (Ret ∅, init_world (Fixtures.fresh Fixtures.no_files)).
Proof.
  destruct (state_loads_defaults (Fixtures.fresh Fixtures.no_files))
    as (H1 & _ & H4 & _ & H6 & H7).
  destruct (state_loads_defaults (Fixtures.fresh (Fixtures.with_counter "soon")))
    as (_ & H2 & _).
  split; [apply H1; reflexivity|].
  split.
  { apply (H2 (Fixtures.counter_file "soon") eq_refl); [reflexivity|].
    intros v Hv. vm_compute in Hv. injection Hv as <-. reflexivity. }
  split; [apply H4; reflexivity|].
  split; [apply H6; reflexivity|].
  apply H7; reflexivity.
Defined.

(** ** C10: one file, three marker sections *)

Section MarkerSections.
Context (s : string) (S0 : option section).

Lemma section_is_state_dir f : section_is s S0 f → section_is s S0 (with_state_dir f).
Proof. done. Qed.

(** The configuration that [load_latest] hands to the rest of a check
    agrees with the file on every section. *)
Lemma load_latest_sections sec :
  triple (λ w, section_is s S0 (fs w)) (load_latest sec)
    (λ a w, a.2 !! s = S0 ∧ section_is s S0 (fs w))
    (λ _ w, section_is s S0 (fs w)).
Proof.
  intros w Hw. unfold load_latest, mbind, M_bind. rewrite initState_eq.
  assert (Hi : section_is s S0 (fs (init_world w))).
  { destruct (init_world_fs w) as [->| ->]; [done|].
    by apply section_is_state_dir. }
  unfold get. unfold section_is, section_of in Hi.
  destruct (latest_ini (fs (init_world w))) as [[|c]|] eqn:Hf; simpl.
  - unfold section_is, section_of. by rewrite Hf.
  - assert (Hfile : section_is s S0 (fs (init_world w))).
    { unfold section_is, section_of. by rewrite Hf. }
    destruct (has_section c sec); simpl; [|done].
    unfold getitem. destruct (lookup c sec "LatestSeen"); simpl; done.
  - split; [by rewrite lookup_empty|].
    unfold section_is, section_of. by rewrite Hf.
Qed.

(** Saving a marker under another section keeps section [s]. *)
Lemma save_latest_other sec what l (c : ConfigParser) :
  s ≠ sec → c !! s = S0 → keeps (section_is s S0) (save_latest sec what l c).
Proof.
  intros Hne Hc. unfold save_latest. repeat keeps_step.
  apply keeps_write. intros f _. unfold section_is, section_of. simpl.
  unfold setitem. by rewrite lookup_insert_ne.
Qed.

Ltac marker_check_keeps :=
  apply keeps_try_log;
  apply keeps_bind; [apply keeps_ensure_connected|intros ?];
  apply keeps_bind; [apply keeps_log|intros ?];
  eapply triple_bind; [apply load_latest_sections|];
  intros [last config]; apply triple_pure; intros Hc; simpl in Hc;
  lazymatch goal with |- triple _ ?m _ _ => change (keeps (section_is s S0) m) end;
  repeat keeps_step; by apply save_latest_other.

Lemma checkRetweets_other_sections r n :
  s ≠ "Retweets" → keeps (section_is s S0) (checkRetweets r n).
Proof. intros Hne. unfold checkRetweets. marker_check_keeps. Qed.

Lemma checkReplies_other_sections r n :
  s ≠ "Replies" → keeps (section_is s S0) (checkReplies r n).
Proof. intros Hne. unfold checkReplies. marker_check_keeps. Qed.

Lemma checkDirectMessages_other_sections r n b :
  s ≠ "DirectMessages" → keeps (section_is s S0) (checkDirectMessages r n b).
Proof.
  intros Hne. unfold checkDirectMessages, fetch_direct_messages.
  marker_check_keeps.
Qed.

End MarkerSections.

Lemma keeps_run {A} (J : FS → Prop) (m : M A) w :
  keeps J m → J (fs w) → J (fs (snd (m w))).
Proof.
  intros H Hw. specialize (H w Hw). by destruct (m w) as [[a|e] w'].
Qed.

(** C10.  The three markers live in sections of the one file latest.ini,
    and each check rewrites the file from what it has just read:
    whatever a check does (returning or raising, with or without new
    items), the sections of the other two features are after the check
    what they were before it. *)
Theorem marker_sections_independent r maxMessagesLoaded failureOnMissingPermission w :
  let before := section_of (latest_ini (fs w)) in
  let after {A} (m : M A) := section_of (latest_ini (fs (snd (m w)))) in
  (after (checkRetweets r maxMessagesLoaded) "Replies" = before "Replies"
   ∧ after (checkRetweets r maxMessagesLoaded) "DirectMessages"
     = before "DirectMessages")
  ∧ (after (checkReplies r maxMessagesLoaded) "Retweets" = before "Retweets"
     ∧ after (checkReplies r maxMessagesLoaded) "DirectMessages"
       = before "DirectMessages")
  ∧ (after (checkDirectMessages r maxMessagesLoaded failureOnMissingPermission)
       "Retweets" = before "Retweets"
     ∧ after (checkDirectMessages r maxMessagesLoaded failureOnMissingPermission)
         "Replies" = before "Replies").
Proof.
  intros before after. unfold before, after.
  split; [|split]; split.
  - apply (keeps_run (section_is "Replies" _)); [|done].
    by apply checkRetweets_other_sections.
  - apply (keeps_run (section_is "DirectMessages" _)); [|done].
    by apply checkRetweets_other_sections.
  - apply (keeps_run (section_is "Retweets" _)); [|done].
    by apply checkReplies_other_sections.
  - apply (keeps_run (section_is "DirectMessages" _)); [|done].
    by apply checkReplies_other_sections.
  - apply (keeps_run (section_is "Retweets" _)); [|done].
    by apply checkDirectMessages_other_sections.
  - apply (keeps_run (section_is "Replies" _)); [|done].
    by apply checkDirectMessages_other_sections.
Qed.

(** The three checks run one after the other on an empty state directory:
    latest.ini ends up with the three sections side by side. *)
Example three_markers_in_one_file :
  let r := Fixtures.feeds [Fixtures.post 40 0] [Fixtures.post 20 0]
             [Fixtures.reply 30; Fixtures.post 31 0] [] [] in
  let w1 := snd (checkRetweets r 50 (Fixtures.connected Fixtures.no_files)) in
  let w2 := snd (checkReplies r 100 w1) in
  let w3 := snd (checkDirectMessages r 50 false w2) in
  persisted (latest_ini (fs w3)) "Retweets" "LatestSeen" = Some "20"
  ∧ persisted (latest_ini (fs w3)) "Replies" "LatestSeen" = Some "30"
  ∧ persisted (latest_ini (fs w3)) "DirectMessages" "LatestSeen" = Some "40"
  ∧ hooks_and_writes (trace w3)
    = [WriteFile F_latest; Hook (handleRetweet (Fixtures.post 20 0));
       WriteFile F_latest; Hook (handleReply (Fixtures.reply 30));
       WriteFile F_latest; Hook (handleDM (Fixtures.post 40 0))].
Proof. vm_compute. repeat split. Qed.

(** ** C8: the follower check *)

Section Strip.

Lemma lstrip_starts_clean l : starts_clean (lstrip l).
Proof.
  induction l as [|a l IH]; simpl; [done|].
  destruct (is_space a) eqn:E; [exact IH|exact E].
Qed.

Lemma starts_clean_lstrip l : starts_clean l → lstrip l = l.
Proof. destruct l as [|a l]; simpl; [done|]. by intros ->. Qed.

Lemma lstrip_suffix l : ∃ pre, l = pre ++ lstrip l.
Proof.
  induction l as [|a l [pre IH]]; simpl; [by exists []|].
  destruct (is_space a); [|by exists []].
  exists (a :: pre). simpl. by rewrite <- IH.
Qed.

(** [strip] leaves its own results alone. *)
Lemma strip_idemp s : strip (strip s) = strip s.
Proof.
  unfold strip. rewrite list_ascii_of_string_of_list_ascii.
  set (l1 := lstrip (list_ascii_of_string s)).
  set (l2 := lstrip (rev l1)).
  assert (H1 : starts_clean l1) by apply lstrip_starts_clean.
  assert (H2 : starts_clean l2) by apply lstrip_starts_clean.
  destruct (lstrip_suffix (rev l1)) as [pre Hpre]. fold l2 in Hpre.
  assert (Hl1 : l1 = rev l2 ++ rev pre).
  { rewrite <- rev_app_distr, <- Hpre. by rewrite rev_involutive. }
  assert (H3 : starts_clean (rev l2)).
  { destruct (rev l2) as [|a t]; [done|]. rewrite Hl1 in H1. exact H1. }
  rewrite (starts_clean_lstrip _ H3), rev_involutive.
  by rewrite (starts_clean_lstrip _ H2).
Qed.

End Strip.

Lemma known_followers_stripped f x : x ∈ known_followers f → strip x = x.
Proof.
  unfold known_followers. intros (y & -> & _)%list_elem_of_fmap.
  apply strip_idemp.
Qed.

Lemma load_followers_eq w :
  load_followers w = (Ret (known_followers (followers_txt (fs w))), init_world w).
Proof.
  unfold load_followers, mbind, M_bind. rewrite initState_eq. unfold get.
  assert (followers_txt (fs (init_world w)) = followers_txt (fs w)) as ->.
  { by destruct (init_world_fs w) as [->| ->]. }
  unfold known_followers. by destruct (followers_txt (fs w)).
Qed.

(** The scan only appends: the new followers in feed order, and their
    printed identifiers to the known list, which then holds every fetched
    identifier. *)
Lemma scan_followers_spec fetched news known :
  ∃ added,
    scan_followers fetched news known
    = (news ++ added, known ++ ((λ f, str (user_id f)) <$> added))
    ∧ ∀ f, f ∈ fetched →
           str (user_id f) ∈ known ++ ((λ f, str (user_id f)) <$> added).
Proof.
  revert news known. induction fetched as [|f fetched IH]; intros news known.
  - exists []. simpl. rewrite !app_nil_r. split; [done|]. by intros f ?%elem_of_nil.
  - simpl. case_bool_decide as Hin.
    + destruct (IH news known) as (added & -> & Hall). exists added.
      split; [done|]. intros g [->|Hg]%elem_of_cons; [|by apply Hall].
      apply elem_of_app. by left.
    + destruct (IH (news ++ [f]) (known ++ [str (user_id f)]))
        as (added & -> & Hall).
      exists (f :: added). simpl. rewrite <- !app_assoc. simpl.
      split; [done|]. intros g [->|Hg]%elem_of_cons.
      * rewrite elem_of_app, elem_of_cons. auto.
      * specialize (Hall g Hg). by rewrite <- app_assoc in Hall.
Qed.

(** Followers whose identifiers are all known leave the scan empty-handed. *)
Lemma scan_followers_known fetched news known :
  (∀ f, f ∈ fetched → str (user_id f) ∈ known) →
  scan_followers fetched news known = (news, known).
Proof.
  induction fetched as [|f fetched IH]; intros Hall; simpl; [done|].
  rewrite bool_decide_eq_true_2 by (apply Hall; left).
  apply IH. intros g Hg. apply Hall. by right.
Qed.

Lemma connectFromConfig_ret r w w' :
  connectFromConfig r w = (Ret tt, w') → api w' = true ∧ fs w' = fs w.
Proof.
  unfold connectFromConfig, connect, getitem, read_file, log, emit, get,
    set_api, raise, mbind, M_bind, mret, M_ret.
  simpl. intros H.
  repeat (case_match; simplify_eq; simpl in *; try done).
Qed.

Lemma ensure_connected_ret r w w' :
  ensure_connected r w = (Ret tt, w') → api w' = true ∧ fs w' = fs w.
Proof.
  unfold ensure_connected, mbind, M_bind, get.
  destruct (api w) eqn:E.
  - by intros [= <-].
  - apply connectFromConfig_ret.
Qed.

Lemma ensure_connected_connected r w : api w = true → ensure_connected r w = (Ret tt, w).
Proof. intros H. unfold ensure_connected, mbind, M_bind, get. by rewrite H. Qed.

(** What a returning run of the follower check has done. *)
Lemma checkNewFollowers_ret r n w news w1 :
  checkNewFollowers r n w = (Ret news, w1) →
  ∃ fetched known1,
    yielded n (followers r) = (fetched, None) ∧ api w1 = true
    ∧ scan_followers fetched [] (known_followers (followers_txt (fs w)))
      = (news, known1)
    ∧ followers_txt (fs w1)
      = match news with [] => followers_txt (fs w) | _ => Some known1 end.
Proof.
  unfold checkNewFollowers, try_log, mbind, M_bind.
  destruct (ensure_connected r w) as [[[]|e] wa] eqn:He; [|done].
  apply ensure_connected_ret in He as [Hapi Hfs].
  unfold log at 1, emit at 1. rewrite load_followers_eq.
  rewrite cursor_eq.
  destruct (yielded n (followers r)) as [l [e|]]; [done|].
  set (wb := record (Call c_followers)
               (init_world (record (Log INFO "Checking for new followers") wa))).
  assert (Hb : followers_txt (fs wb) = followers_txt (fs w) ∧ api wb = true).
  { subst wb. simpl. rewrite init_world_api. simpl. split; [|done].
    destruct (init_world_fs (record (Log INFO "Checking for new followers") wa))
      as [->| ->]; simpl; by rewrite Hfs. }
  simpl (fs (record _ _)). rewrite Hfs.
  destruct (scan_followers l []
              (known_followers (followers_txt (fs w)))) as [nf kf] eqn:Hscan.
  destruct nf as [|f nf].
  - simpl. intros [= <- <-]. exists l, kf. rewrite Hscan. by destruct Hb.
  - unfold log at 1, emit at 1. cbv beta iota.
    unfold write, mbind, M_bind, get, set_fs. unfold emit at 1. cbv beta iota.
    rewrite for_each_emit. simpl. intros [= <- <-]. exists l, kf. simpl.
    by rewrite init_world_api.
Qed.

Lemma init_world_followers w :
  followers_txt (fs (init_world w)) = followers_txt (fs w).
Proof. by destruct (init_world_fs w) as [->| ->]. Qed.

Lemma init_world_trace w :
  ∃ t, trace (init_world w) = trace w ++ t ∧ hooks_and_writes t = [].
Proof.
  unfold init_world. destruct (state_dir (fs w)).
  - exists []. by rewrite app_nil_r.
  - by exists [Makedirs].
Qed.

(** A run on a connected client whose feed holds known followers only:
    no write, no hook, the empty answer. *)
Lemma checkNewFollowers_nothing_new r n w l :
  api w = true → yielded n (followers r) = (l, None) →
  (∀ f, f ∈ l →
        str (user_id f) ∈ known_followers (followers_txt (fs w))) →
  ∃ w' t,
    checkNewFollowers r n w = (Ret [], w')
    ∧ followers_txt (fs w') = followers_txt (fs w)
    ∧ trace w' = trace w ++ t ∧ hooks_and_writes t = [].
Proof.
  intros Hapi Hl Hknown.
  unfold checkNewFollowers, try_log, mbind, M_bind.
  rewrite (ensure_connected_connected r w Hapi).
  unfold log at 1, emit at 1. rewrite load_followers_eq.
  rewrite cursor_eq, Hl.
  set (wa := record (Log INFO "Checking for new followers") w).
  assert (Hfile : followers_txt (fs wa) = followers_txt (fs w)) by done.
  rewrite Hfile, (scan_followers_known _ _ _ Hknown). simpl.
  destruct (init_world_trace wa) as (t & Htr & Ht).
  eexists _, ([Log INFO "Checking for new followers"] ++ t
              ++ [Call c_followers; Log INFO "No new followers."]).
  split; [reflexivity|]. simpl.
  rewrite init_world_followers. split; [done|].
  rewrite Htr. simpl. rewrite <- !app_assoc. split; [reflexivity|].
  unfold hooks_and_writes in *. simpl.
  rewrite List.filter_app, Ht. reflexivity.
Qed.

(** An identifier once read from followers.txt is read from it again
    after the check, whatever the check did. *)
Lemma checkNewFollowers_keeps_known r n x :
  strip x = x →
  keeps (λ f, x ∈ known_followers (followers_txt f)) (checkNewFollowers r n).
Proof.
  intros Hx. set (J := λ f, x ∈ known_followers (followers_txt f)).
  unfold checkNewFollowers.
  apply keeps_try_log.
  apply keeps_bind; [apply keeps_ensure_connected|intros ?].
  apply keeps_bind; [apply keeps_log|intros ?].
  eapply (triple_bind _ _ _ (λ known w, x ∈ known ∧ J (fs w))).
  { intros w Hw. rewrite load_followers_eq. split; [exact Hw|].
    unfold J. by rewrite init_world_followers. }
  intros known. apply triple_pure. intros Hin.
  lazymatch goal with |- triple _ ?m _ _ => change (keeps J m) end.
  apply keeps_bind; [apply keeps_cursor|intros fetched; cbv beta].
  destruct (scan_followers_spec fetched [] known) as (added & -> & _).
  repeat keeps_step.
  apply keeps_write. intros f _. unfold J, known_followers. simpl.
  rewrite <- Hx. apply list_elem_of_fmap_2. apply elem_of_app. by left.
Qed.

(** C8.  After a run of [checkNewFollowers] that returns, a second run
    against the same remote returns no new follower, calls no hook,
    writes nothing and leaves followers.txt as the first run left it; and
    every identifier known before a run is still known after it. *)
Theorem checkNewFollowers_idempotent r maxFollowersChecked w news w1 :
  checkNewFollowers r maxFollowersChecked w = (Ret news, w1) →
  (∃ w2 t,
     checkNewFollowers r maxFollowersChecked w1 = (Ret [], w2)
     ∧ followers_txt (fs w2) = followers_txt (fs w1)
     ∧ trace w2 = trace w1 ++ t ∧ hooks_and_writes t = [])
  ∧ (∀ x, x ∈ known_followers (followers_txt (fs w)) →
          x ∈ known_followers (followers_txt (fs w1))).
Proof.
  intros Hrun. split.
  - destruct (checkNewFollowers_ret _ _ _ _ _ Hrun)
      as (l & known1 & Hl & Hapi & Hscan & Hfile).
    apply (checkNewFollowers_nothing_new r maxFollowersChecked w1 l Hapi Hl).
    intros f Hf.
    destruct (scan_followers_spec l []
                (known_followers (followers_txt (fs w))))
      as (added & Hspec & Hall).
    rewrite Hscan in Hspec. simpl in Hspec. injection Hspec as -> ->.
    specialize (Hall f Hf). rewrite Hfile. destruct added as [|g added].
    + simpl in Hall. by rewrite app_nil_r in Hall.
    + unfold known_followers at 1. simpl.
      rewrite <- (strip_str (user_id f)). by apply list_elem_of_fmap_2.
  - intros x Hx.
    pose proof (keeps_run _ _ w
                  (checkNewFollowers_keeps_known r maxFollowersChecked x
                     (known_followers_stripped _ _ Hx)) Hx) as Hk.
    by rewrite Hrun in Hk.
Qed.

Lemma checkNewFollowers_idempotent_witness :
  let r := Fixtures.feeds [] [] [] []
             [Fixtures.follower 11; Fixtures.follower 12; Fixtures.follower 11] in
  let w := Fixtures.connected (with_followers [" 12 "; "7"] Fixtures.no_files) in
  let w1 := snd (checkNewFollowers r 50 w) in
  followers_txt (fs w1) = Some ["12"; "7"; "11"]
  ∧ (∃ w2 t,
       checkNewFollowers r 50 w1 = (Ret [], w2)
       ∧ followers_txt (fs w2) = followers_txt (fs w1)
       ∧ trace w2 = trace w1 ++ t ∧ hooks_and_writes t = [])
  ∧ (∀ x, x ∈ known_followers (followers_txt (fs w)) →
          x ∈ known_followers (followers_txt (fs w1))).
Proof.
  intros r w w1. split; [reflexivity|].
  apply (checkNewFollowers_idempotent r 50 w [Fixtures.follower 11] w1).
  reflexivity.
Defined.

(** ** C7: the favorites check *)

(** C7 fails as stated: a post recorded with 3 favorites and reported
    with 0 has a differing count, yet the check skips it (it only looks at
    posts with a positive count): no novel item, no hook, no write, and
    the ledger still says 3. *)
Lemma checkFavorites_ignores_drop_to_zero :
  let ledger : ConfigParser := {[ "7" := {[ "favorites" := "3" ]} ]} in
  let r := Fixtures.feeds [] [] [] [Fixtures.post 7 0] [] in
  let w := Fixtures.connected (with_favorites ledger Fixtures.no_files) in
  str 0 ≠ "3"
  ∧ fst (checkFavorites r 50 w) = Ret []
  ∧ hooks_and_writes (trace (snd (checkFavorites r 50 w))) = []
  ∧ persisted (favorites_ini (fs (snd (checkFavorites r 50 w)))) "7" "favorites"
    = Some "3".
Proof. vm_compute. repeat split. discriminate. Qed.

Lemma ledger_complete_ok c fetched :
  ledger_complete c fetched = true → ledger_ok c fetched.
Proof.
  unfold ledger_complete. rewrite forallb_forall.
  intros H msg Hin%list_elem_of_In Hsec. specialize (H msg Hin).
  rewrite Hsec in H. by apply bool_decide_eq_true in H.
Qed.

Lemma differs_spec s v : differs s (KnownStr v) = true ↔ s ≠ v.
Proof.
  simpl. rewrite negb_true_iff. destruct (String.eqb_spec s v); split; congruence.
Qed.

Lemma lookup_known c msg :
  ledger_ok c [msg] →
  ∀ w, (if has_section c (str (id msg))
        then v ← getitem c (str (id msg)) "favorites"; mret (KnownStr v)
        else mret (KnownInt 0)) w = (Ret (known c msg), w).
Proof.
  intros Hc w. unfold known.
  destruct (has_section c (str (id msg))) eqn:Hs.
  - destruct (Hc msg) as [v Hv]; [by left|done|]. rewrite Hv.
    unfold recorded in Hv. unfold getitem, mbind, M_bind.
    destruct (lookup c (str (id msg)) "favorites"); [done|].
    by injection Hv as ->.
  - unfold recorded.
    destruct (lookup_cases c (str (id msg)) "favorites")
      as [[_ ->]|[(H & _)|(H & _)]]; [done|congruence..].
Qed.

Lemma differs_known c m :
  differs (str (favorite_count m)) (known c m) = true
  ↔ recorded c m ≠ Some (str (favorite_count m)).
Proof.
  unfold known. destruct (recorded c m) as [v|].
  - rewrite differs_spec. split; congruence.
  - split; [discriminate|reflexivity].
Qed.

Lemma recorded_setitem c m msg v :
  str (id msg) ≠ str (id m) →
  recorded (setitem c (str (id m)) "favorites" v) msg = recorded c msg.
Proof.
  intros H. unfold recorded.
  by rewrite lookup_setitem_ne by (done || apply str_not_default).
Qed.

(** An entry that the favorites loop has just written reads back as the
    count it holds. *)
Lemma recorded_fresh c msg :
  c !! str (id msg)
  = Some {[ optionxform "favorites" := str (favorite_count msg) ]} →
  recorded c msg = Some (str (favorite_count msg)).
Proof.
  intros H. unfold recorded.
  erewrite lookup_own;
    [by rewrite before_get_str|apply str_not_default|exact H|].
  apply lookup_singleton_eq.
Qed.

Lemma ledger_ok_setitem c m v rest :
  (∀ msg, msg ∈ rest → str (id msg) ≠ str (id m)) →
  ledger_ok c rest → ledger_ok (setitem c (str (id m)) "favorites" v) rest.
Proof.
  intros Hother Hc msg Hin. rewrite recorded_setitem by by apply Hother.
  rewrite has_section_setitem_ne by (symmetry; by apply Hother).
  by apply Hc.
Qed.

Lemma scan_favorites_spec fetched : ∀ c news w,
  NoDup (id <$> fetched) → ledger_ok c fetched →
  ∃ c' added,
    scan_favorites fetched c news w = (Ret (c', news ++ added), w)
    ∧ (∀ msg k, (msg, k) ∈ added ↔
         msg ∈ fetched ∧ 0 < favorite_count msg
         ∧ recorded c msg ≠ Some (str (favorite_count msg)) ∧ k = known c msg)
    ∧ (∀ msg k, (msg, k) ∈ added →
         c' !! str (id msg)
         = Some {[ optionxform "favorites" := str (favorite_count msg) ]})
    ∧ (∀ key, (∀ msg, msg ∈ fetched → key ≠ str (id msg)) → c' !! key = c !! key).
Proof.
  induction fetched as [|m rest IH]; intros c news w Hnd Hc.
  - exists c, []. simpl. rewrite app_nil_r. split; [done|].
    split; [|split; [|done]].
    + intros msg k. rewrite !elem_of_nil. tauto.
    + by intros msg k ?%elem_of_nil.
  - rewrite fmap_cons in Hnd. apply NoDup_cons in Hnd as [Hm Hnd]. simpl.
    assert (Hrest : ledger_ok c rest).
    { intros msg Hin. apply Hc. by right. }
    assert (Hother : ∀ msg, msg ∈ rest → str (id msg) ≠ str (id m)).
    { intros msg Hin E%str_inj. apply Hm. rewrite <- E.
      by apply list_elem_of_fmap_2. }
    assert (Hskip : ¬ (0 < favorite_count m
                       ∧ recorded c m ≠ Some (str (favorite_count m))) →
      ∃ c' added,
        scan_favorites rest c news w = (Ret (c', news ++ added), w)
        ∧ (∀ msg k, (msg, k) ∈ added ↔
             msg ∈ m :: rest ∧ 0 < favorite_count msg
             ∧ recorded c msg ≠ Some (str (favorite_count msg))
             ∧ k = known c msg)
        ∧ (∀ msg k, (msg, k) ∈ added →
             c' !! str (id msg)
             = Some {[ optionxform "favorites" := str (favorite_count msg) ]})
        ∧ (∀ key, (∀ msg, msg ∈ m :: rest → key ≠ str (id msg)) →
                  c' !! key = c !! key)).
    { intros Hno. destruct (IH c news w Hnd Hrest) as (c' & added & Hrun & Hiff & Hnew & Hold).
      exists c', added. split; [done|]. split; [|split; [done|]].
      - intros msg k. rewrite Hiff, elem_of_cons. split; [tauto|].
        intros ([->|Hin] & Hpos & Hne & Hk); [|tauto].
        destruct Hno. by split.
      - intros key Hkey. apply Hold. intros msg Hin. apply Hkey. by right. }
    destruct (0 <? favorite_count m) eqn:Hpos; [|apply Hskip; lia].
    unfold mbind at 1, M_bind at 1. rewrite lookup_known.
    2:{ intros msg ->%list_elem_of_singleton. apply Hc. by left. }
    destruct (differs (str (favorite_count m)) (known c m)) eqn:Hd.
    2:{ apply Hskip. rewrite <- differs_known, Hd. intros [_ [=]]. }
    apply differs_known in Hd.
    set (c1 := setitem c (str (id m)) "favorites" (str (favorite_count m))).
    assert (Hc1 : ledger_ok c1 rest) by by apply ledger_ok_setitem.
    destruct (IH c1 (news ++ [(m, known c m)]) w Hnd Hc1)
      as (c' & added & Hrun & Hiff & Hnew & Hold).
    exists c', ((m, known c m) :: added).
    split; [by rewrite Hrun, <- app_assoc|]. split; [|split].
    + intros msg k. rewrite !elem_of_cons, Hiff. split.
      * intros [[= -> ->]|(Hin & ? & Hr & ->)]; [split; [by left|]; split; [lia|done]|].
        unfold known, c1 in *. rewrite recorded_setitem in * by by apply Hother.
        repeat split; (assumption || (by right)).
      * intros ([->|Hin] & ? & Hr & ->); [by left|right].
        unfold known, c1. rewrite recorded_setitem by by apply Hother.
        by repeat split.
    + intros msg k [[= -> ->]|Hin]%elem_of_cons; [|by eapply Hnew].
      rewrite Hold.
      * unfold c1, setitem. rewrite lookup_insert_eq. by rewrite insert_empty.
      * intros msg Hin. symmetry. by apply Hother.
    + intros key Hkey. rewrite Hold.
      * unfold c1, setitem. rewrite lookup_insert_ne; [done|].
        symmetry. apply Hkey. by left.
      * intros msg Hin. apply Hkey. by right.
Qed.

Lemma hooks_app t1 t2 : hooks (t1 ++ t2) = hooks t1 ++ hooks t2.
Proof. apply omap_app. Qed.

Lemma hooks_fmap {A} (g : A → event) (h : A → hook) l :
  (∀ x, g x = Hook (h x)) → hooks (g <$> l) = h <$> l.
Proof.
  intros Hg. induction l as [|x l IH]; [done|].
  rewrite !fmap_cons, Hg.
  change (hooks (Hook (h x) :: (g <$> l))) with (h x :: hooks (g <$> l)).
  by rewrite IH.
Qed.

(** C7, amended.  When [checkFavorites] reaches its fetch with ledger [c],
    the timeline delivers posts with distinct identifiers, and every
    entry the ledger has for one of them gives a count (the option
    [favorites] is there, of its own or from DEFAULT, and can be
    interpolated): a post
    whose recorded count equals the reported one is not novel and gets no
    hook call; a post whose reported count is positive and differs from
    the recorded one, or that has no ledger entry, is novel, is passed to
    [handleFavorite] with the previous count, and its ledger entry on disk
    becomes the reported count; a post whose reported count is not
    positive is never novel.  The hooks called are exactly those of the
    novel posts. *)
Theorem checkFavorites_change_detection r maxMessagesLoaded w c w1 timeline :
  (_ ← ensure_connected r;
   _ ← log INFO "Checking for new favorites";
   load_favorites) w = (Ret c, w1) →
  user_timeline r = inr timeline →
  let fetched := items maxMessagesLoaded timeline in
  NoDup (id <$> fetched) →
  ledger_complete c fetched = true →
  ∃ newFavorites w' t,
    checkFavorites r maxMessagesLoaded w = (Ret newFavorites, w')
    ∧ trace w' = trace w1 ++ t
    ∧ hooks t = (λ nf, handleFavorite nf.1 nf.2) <$> newFavorites
    ∧ ∀ msg, msg ∈ fetched →
        (recorded c msg = Some (str (favorite_count msg)) →
         ∀ k, (msg, k) ∉ newFavorites)
        ∧ (favorite_count msg ≤ 0 → ∀ k, (msg, k) ∉ newFavorites)
        ∧ (0 < favorite_count msg →
           recorded c msg ≠ Some (str (favorite_count msg)) →
           (msg, known c msg) ∈ newFavorites
           ∧ persisted (favorites_ini (fs w')) (str (id msg)) "favorites"
             = Some (str (favorite_count msg))).
Proof.
  intros Hpre Htl fetched Hnd Hc%ledger_complete_ok.
  apply prelude_inv in Hpre as (wa & He & Hl).
  unfold checkFavorites, try_log, mbind, M_bind.
  rewrite He. unfold log at 1, emit at 1. rewrite Hl.
  unfold cursor_some, mbind, M_bind. unfold emit at 1. rewrite Htl.
  unfold mret at 1, M_ret at 1. rewrite yielded_all. fold fetched.
  destruct (scan_favorites_spec fetched c [] (record (Call c_user_timeline) w1) Hnd Hc)
    as (c' & added & -> & Hiff & Hnew & _).
  simpl (_ ++ _). unfold raise_pending. unfold mret at 1, M_ret at 1.
  assert (Hprops : ∀ msg, msg ∈ fetched →
        (recorded c msg = Some (str (favorite_count msg)) →
         ∀ k, (msg, k) ∉ added)
        ∧ (favorite_count msg ≤ 0 → ∀ k, (msg, k) ∉ added)
        ∧ (0 < favorite_count msg →
           recorded c msg ≠ Some (str (favorite_count msg)) →
           (msg, known c msg) ∈ added)).
  { intros msg Hin. split; [|split].
    - intros Hr k (_ & _ & Hne & _)%Hiff. done.
    - intros Hle k (_ & Hpos & _)%Hiff. lia.
    - intros Hpos Hne. apply Hiff. done. }
  destruct added as [|nf added].
  - simpl. eexists [], _, _. split; [reflexivity|]. simpl.
    rewrite <- app_assoc. split; [reflexivity|]. split; [done|].
    intros msg Hin. destruct (Hprops msg Hin) as (H1 & H0 & H2).
    split; [done|]. split; [done|].
    intros Hpos Hne. specialize (H2 Hpos Hne). by apply elem_of_nil in H2.
  - unfold log at 1, emit at 1. cbv beta iota.
    unfold write, mbind, M_bind, get, set_fs. unfold emit at 1. cbv beta iota.
    rewrite for_each_emit. cbv beta iota. unfold mret, M_ret.
    eexists (nf :: added), _, _. split; [reflexivity|].
    cbn [trace record put_fs].
    rewrite <- !app_assoc. split; [reflexivity|]. split.
    { rewrite !hooks_app. by apply hooks_fmap. }
    intros msg Hin. destruct (Hprops msg Hin) as (H1 & H0 & H2).
    split; [done|]. split; [done|].
    intros Hpos Hne. split; [by apply H2|]. simpl.
    rewrite (Hnew msg (known c msg)) by by apply H2. simpl.
    by rewrite lookup_singleton_eq.
Qed.

Lemma checkFavorites_change_detection_witness :
  let ledger : ConfigParser :=
    {[ "7" := {[ "favorites" := "3" ]}; "8" := {[ "favorites" := "3" ]} ]} in
  let timeline := [Fixtures.post 7 3; Fixtures.post 8 5; Fixtures.post 9 2] in
  let r := Fixtures.feeds [] [] [] timeline [] in
  let w := Fixtures.connected (with_favorites ledger Fixtures.no_files) in
  let w1 := snd ((_ ← ensure_connected r;
                  _ ← log INFO "Checking for new favorites";
                  load_favorites) w) in
  ∃ newFavorites w' t,
    checkFavorites r 50 w = (Ret newFavorites, w')
    ∧ trace w' = trace w1 ++ t
    ∧ hooks t = (λ nf, handleFavorite nf.1 nf.2) <$> newFavorites
    ∧ ∀ msg, msg ∈ items 50 timeline →
        (recorded ledger msg = Some (str (favorite_count msg)) →
         ∀ k, (msg, k) ∉ newFavorites)
        ∧ (favorite_count msg ≤ 0 → ∀ k, (msg, k) ∉ newFavorites)
        ∧ (0 < favorite_count msg →
           recorded ledger msg ≠ Some (str (favorite_count msg)) →
           (msg, known ledger msg) ∈ newFavorites
           ∧ persisted (favorites_ini (fs w')) (str (id msg)) "favorites"
             = Some (str (favorite_count msg))).
Proof.
  intros ledger timeline r w w1.
  apply (checkFavorites_change_detection r 50 w ledger w1 timeline).
  - reflexivity.
  - reflexivity.
  - apply (bool_decide_unpack _). vm_compute. exact I.
  - reflexivity.
Defined.

(** ** Sorting by identifier *)

Section Sorting.

Lemma insert_desc_perm x l : insert_desc x l ≡ₚ x :: l.
Proof.
  induction l as [|y l IH]; simpl; [done|].
  destruct (id y <=? id x); [done|]. rewrite IH. apply Permutation_swap.
Qed.

Lemma sort_reverse_perm l : sort_reverse l ≡ₚ l.
Proof.
  induction l as [|x l IH]; simpl; [done|].
  fold (sort_reverse l). by rewrite insert_desc_perm, IH.
Qed.

Lemma insert_desc_sorted x l :
  StronglySorted before l → StronglySorted before (insert_desc x l).
Proof.
  induction 1 as [|y l Hs IH Hy]; simpl.
  - repeat constructor.
  - destruct (id y <=? id x) eqn:E.
    + constructor; [by constructor|].
      constructor; [unfold before; lia|].
      eapply Forall_impl; [exact Hy|]. unfold before. intros z ?. lia.
    + constructor; [exact IH|].
      rewrite insert_desc_perm. constructor; [unfold before; lia|exact Hy].
Qed.

Lemma sort_reverse_sorted l : StronglySorted before (sort_reverse l).
Proof.
  induction l as [|x l IH]; simpl; [constructor|].
  by apply insert_desc_sorted.
Qed.

Lemma max_id_is_max l m : max_id l = Some m → is_max l m.
Proof.
  destruct l as [|x l]; [done|]. simpl. intros [= <-].
  induction l as [|y l [[z [Hz Hm]] Hall]]; simpl.
  - split; [exists x; split; [by left|done]|].
    by intros y ->%list_elem_of_singleton.
  - set (m := foldr (λ y m, Z.max (id y) m) (id x) l) in *. split.
    + destruct (Z.max_spec (id y) m) as [[? ->]|[? ->]].
      * exists z. split; [|done].
        apply elem_of_cons in Hz as [->|Hz]; [by left|by do 2 right].
      * exists y. split; [by right; left|done].
    + intros u [->|[->|Hu]%elem_of_cons]%elem_of_cons.
      * specialize (Hall x (list_elem_of_here _ _)). lia.
      * lia.
      * specialize (Hall u (list_elem_of_further _ _ _ Hu)). lia.
Qed.

Lemma is_max_unique l m m' : is_max l m → is_max l m' → m = m'.
Proof.
  intros [(x & Hx & <-) Hall] [(y & Hy & <-) Hall'].
  specialize (Hall y Hy). specialize (Hall' x Hx). lia.
Qed.

(** The first item of the sorted list carries the largest identifier. *)
Lemma sort_reverse_head l first rest :
  sort_reverse l = first :: rest → max_id l = Some (id first).
Proof.
  intros Hs.
  assert (Hmax : is_max l (id first)).
  { pose proof (sort_reverse_sorted l) as Hsorted.
    pose proof (sort_reverse_perm l) as Hperm. rewrite Hs in *.
    apply StronglySorted_inv in Hsorted as [_ Hall]. split.
    - exists first. split; [|done]. rewrite <- Hperm. by left.
    - intros y Hy. rewrite <- Hperm in Hy.
      apply elem_of_cons in Hy as [->|Hy]; [lia|].
      rewrite Forall_forall in Hall. by apply Hall. }
  destruct (max_id l) as [m|] eqn:Hm.
  - f_equal. eapply is_max_unique; [by apply max_id_is_max|done].
  - destruct l; [|done]. by destruct Hmax as [(x & ?%elem_of_nil & _) _].
Qed.

End Sorting.

(** ** C1 and C9 in general: what the three marker checks do *)

Section MarkerChecks.

Context (r : Remote) (emsg lmsg sec what : string)
  (fetch : option string → M (list status))
  (post : list status → list status) (h : status → hook).

Lemma hooks_and_writes_hooks {A} (g : A → hook) l :
  hooks_and_writes ((λ x, Hook (g x)) <$> l) = (λ x, Hook (g x)) <$> l.
Proof.
  induction l as [|x l IH]; [done|]. rewrite fmap_cons.
  unfold hooks_and_writes in *. simpl. by rewrite IH.
Qed.

(** A run that gets through its fetch: the processed items are returned;
    if there are any, the marker section is rewritten with the identifier
    of the first one before the hooks are called on the items in order;
    if there are none, nothing is written. *)
Lemma marker_check_run w last config w1 fetched w2 :
  (_ ← ensure_connected r; _ ← log INFO lmsg; load_latest sec) w
  = (Ret (last, config), w1) →
  fetch last w1 = (Ret fetched, w2) →
  ∃ w' t,
    marker_check r emsg lmsg sec what fetch post h w = (Ret (post fetched), w')
    ∧ trace w' = trace w2 ++ t
    ∧ hooks_and_writes t
      = match post fetched with
        | [] => []
        | _ :: _ => WriteFile F_latest :: ((λ x, Hook (h x)) <$> post fetched)
        end
    ∧ latest_ini (fs w')
      = match post fetched with
        | [] => latest_ini (fs w2)
        | first :: _ =>
            Some (Ini (setitem config sec "LatestSeen" (str (id first))))
        end.
Proof.
  intros (wa & He & Hl)%prelude_inv Hf.
  unfold marker_check, try_log, mbind, M_bind.
  rewrite He. unfold log at 1, emit at 1. rewrite Hl, Hf.
  destruct (post fetched) as [|first rest] eqn:Hp.
  - simpl. eexists _, _. split; [reflexivity|]. simpl. done.
  - unfold save_latest. unfold log at 1, emit at 1. cbv beta iota.
    unfold write, mbind, M_bind, get, set_fs. unfold emit at 1. cbv beta iota.
    rewrite for_each_emit. cbv beta iota. unfold mret, M_ret.
    eexists _, _. split; [reflexivity|]. cbn [trace record put_fs fs latest_ini with_latest].
    rewrite <- !app_assoc. split; [reflexivity|]. split; [|done].
    unfold hooks_and_writes at 1. rewrite !List.filter_app. simpl List.filter at 1 2.
    fold (hooks_and_writes ((λ x, Hook (h x)) <$> first :: rest)).
    by rewrite hooks_and_writes_hooks.
Qed.

End MarkerChecks.

Lemma checkRetweets_shape r n :
  checkRetweets r n
  = marker_check r "Exception encountered while attempting to check for retweets"
      "Checking for new retweets" "Retweets" "retweets"
      (λ last, cursor (c_retweets_of_me last) n (retweets_of_me r last))
      (λ fetched, fetched) handleRetweet.
Proof. reflexivity. Qed.

Lemma checkReplies_shape r n :
  checkReplies r n
  = marker_check r "Exception encountered while attempting to check for replies"
      "Checking for new replies" "Replies" "replies"
      (fetch_replies r n) sort_reverse handleReply.
Proof. reflexivity. Qed.

Lemma cursor_ok {A} c n (l : list A) w :
  cursor c n (inr l) w = (Ret (items n l), record (Call c) w).
Proof. reflexivity. Qed.

(** The loop of the reply check when every [me()] request is answered
    with the identifier [own]: one request per item, and the replies to
    [own] are kept in feed order. *)
Lemma scan_replies_ok r own fetched : ∀ asked news w,
  (∀ i, (asked ≤ i < asked + length fetched)%nat → me r i = inr own) →
  scan_replies r fetched asked news w
  = (Ret (news ++ filter (λ msg, in_reply_to_user_id msg = Some own) fetched),
     extend (replicate (length fetched) (Call c_me)) w).
Proof.
  induction fetched as [|msg rest IH]; intros asked news w Hme.
  - simpl. unfold mret, M_ret, extend. rewrite !app_nil_r. by destruct w.
  - simpl. unfold mbind, M_bind, emit.
    rewrite Hme by (simpl; lia).
    rewrite IH by (intros i Hi; apply Hme; simpl; lia).
    unfold extend. simpl. rewrite <- app_assoc. simpl. f_equal.
    case_bool_decide as Hmsg.
    + rewrite filter_cons_True by done. by rewrite <- app_assoc.
    + by rewrite filter_cons_False by done.
Qed.

(** The retweet check in general: the items come back in feed order, the
    hooks are called in feed order, and the marker written is the
    identifier of the first item of the feed. *)
Lemma checkRetweets_new_items r n w last config w1 l :
  (_ ← ensure_connected r; _ ← log INFO "Checking for new retweets";
   load_latest "Retweets") w = (Ret (last, config), w1) →
  retweets_of_me r last = inr l →
  ∃ w' t,
    checkRetweets r n w = (Ret (items n l), w')
    ∧ trace w' = trace w1 ++ Call (c_retweets_of_me last) :: t
    ∧ hooks_and_writes t
      = match items n l with
        | [] => []
        | _ :: _ => WriteFile F_latest :: ((λ x, Hook (handleRetweet x)) <$> items n l)
        end
    ∧ persisted (latest_ini (fs w')) "Retweets" "LatestSeen"
      = match items n l with
        | [] => persisted (latest_ini (fs w1)) "Retweets" "LatestSeen"
        | first :: _ => Some (str (id first))
        end.
Proof.
  intros Hpre Hl. rewrite checkRetweets_shape.
  destruct (marker_check_run r
              "Exception encountered while attempting to check for retweets"
              "Checking for new retweets" "Retweets" "retweets"
              (λ last, cursor (c_retweets_of_me last) n (retweets_of_me r last))
              (λ fetched, fetched) handleRetweet
              w last config w1 (items n l) (record (Call (c_retweets_of_me last)) w1)
              Hpre) as (w' & t & Hrun & Htr & Hhw & Hfile).
  { by rewrite Hl. }
  exists w', t. split; [exact Hrun|]. split.
  { rewrite Htr. simpl. by rewrite <- app_assoc. }
  split; [exact Hhw|]. rewrite Hfile.
  destruct (items n l) as [|first rest]; [done|].
  unfold persisted, setitem. rewrite lookup_insert_eq. simpl.
  by rewrite lookup_insert_eq.
Qed.

(** The reply check in general: the replies among the fetched items come
    back sorted by descending identifier, the hooks are called in that
    order after the write, and the marker written is the largest
    identifier among the replies. *)
Lemma checkReplies_new_items r n w last config w1 l own :
  (_ ← ensure_connected r; _ ← log INFO "Checking for new replies";
   load_latest "Replies") w = (Ret (last, config), w1) →
  home_timeline r last = inr l →
  (∀ i, (i < length (items n l))%nat → me r i = inr own) →
  let replies := filter (λ msg, in_reply_to_user_id msg = Some own) (items n l) in
  ∃ w' t,
    checkReplies r n w = (Ret (sort_reverse replies), w')
    ∧ StronglySorted before (sort_reverse replies)
    ∧ sort_reverse replies ≡ₚ replies
    ∧ trace w'
      = trace w1 ++ Call (c_home_timeline last)
        :: replicate (length (items n l)) (Call c_me) ++ t
    ∧ hooks_and_writes t
      = match replies with
        | [] => []
        | _ :: _ =>
            WriteFile F_latest :: ((λ x, Hook (handleReply x)) <$> sort_reverse replies)
        end
    ∧ persisted (latest_ini (fs w')) "Replies" "LatestSeen"
      = match replies with
        | [] => persisted (latest_ini (fs w1)) "Replies" "LatestSeen"
        | _ :: _ => str <$> max_id replies
        end.
Proof.
  intros Hpre Hl Hme replies. rewrite checkReplies_shape.
  destruct (marker_check_run r
              "Exception encountered while attempting to check for replies"
              "Checking for new replies" "Replies" "replies"
              (fetch_replies r n) sort_reverse handleReply
              w last config w1 replies
              (extend (replicate (length (items n l)) (Call c_me))
                 (record (Call (c_home_timeline last)) w1))
              Hpre) as (w' & t & Hrun & Htr & Hhw & Hfile).
  { unfold fetch_replies, cursor_some, raise_pending, mbind, M_bind, emit.
    rewrite Hl, yielded_all. unfold mret at 1, M_ret at 1.
    by rewrite (scan_replies_ok r own) by (intros i Hi; apply Hme; lia). }
  exists w', t. split; [exact Hrun|].
  split; [apply sort_reverse_sorted|]. split; [apply sort_reverse_perm|]. split.
  { rewrite Htr. simpl. by rewrite <- !app_assoc. }
  rewrite Hhw, Hfile.
  destruct (sort_reverse replies) as [|first rest] eqn:Hs.
  - assert (replies = []) as ->; [|done].
    apply Permutation_nil. by rewrite <- Hs, sort_reverse_perm.
  - destruct replies as [|x xs] eqn:Hr; [done|]. split; [done|].
    rewrite (sort_reverse_head _ _ _ Hs).
    unfold persisted, setitem. rewrite lookup_insert_eq. simpl.
    by rewrite lookup_insert_eq.
Qed.

Lemma checkDirectMessages_shape r n flag :
  checkDirectMessages r n flag
  = marker_check r "Exception encountered while attempting to check direct messages"
      "Checking for new direct messages" "DirectMessages" "direct messages"
      (fetch_direct_messages r n flag) sort_reverse handleDM.
Proof. reflexivity. Qed.

(** The direct-message check in general: the fetched items come back
    sorted by descending identifier, the hooks are called in that order
    after the write, and the marker written is the largest identifier
    fetched; when nothing is fetched the file is not written. *)
Lemma checkDirectMessages_new_items r n flag w last config w1 l :
  (_ ← ensure_connected r; _ ← log INFO "Checking for new direct messages";
   load_latest "DirectMessages") w = (Ret (last, config), w1) →
  direct_messages r last = inr l →
  ∃ w' t,
    checkDirectMessages r n flag w = (Ret (sort_reverse (items n l)), w')
    ∧ StronglySorted before (sort_reverse (items n l))
    ∧ sort_reverse (items n l) ≡ₚ items n l
    ∧ trace w' = trace w1 ++ Call (c_direct_messages last) :: t
    ∧ hooks_and_writes t
      = match items n l with
        | [] => []
        | _ :: _ =>
            WriteFile F_latest
            :: ((λ x, Hook (handleDM x)) <$> sort_reverse (items n l))
        end
    ∧ match items n l with
      | [] => latest_ini (fs w') = latest_ini (fs w1)
      | _ :: _ =>
          persisted (latest_ini (fs w')) "DirectMessages" "LatestSeen"
          = str <$> max_id (items n l)
      end.
Proof.
  intros Hpre Hl. rewrite checkDirectMessages_shape.
  destruct (marker_check_run r
              "Exception encountered while attempting to check direct messages"
              "Checking for new direct messages" "DirectMessages" "direct messages"
              (fetch_direct_messages r n flag) sort_reverse handleDM
              w last config w1 (items n l) (record (Call (c_direct_messages last)) w1)
              Hpre) as (w' & t & Hrun & Htr & Hhw & Hfile).
  { unfold fetch_direct_messages, cursor_some, mbind, M_bind, emit.
    by rewrite Hl. }
  exists w', t. split; [exact Hrun|].
  split; [apply sort_reverse_sorted|]. split; [apply sort_reverse_perm|]. split.
  { rewrite Htr. simpl. by rewrite <- app_assoc. }
  rewrite Hhw, Hfile.
  destruct (sort_reverse (items n l)) as [|first rest] eqn:Hs.
  - assert (items n l = []) as ->; [|done].
    apply Permutation_nil. by rewrite <- Hs, sort_reverse_perm.
  - destruct (items n l) as [|x xs] eqn:Hr; [done|]. split; [done|].
    rewrite (sort_reverse_head _ _ _ Hs).
    unfold persisted, setitem. rewrite lookup_insert_eq. simpl.
    by rewrite lookup_insert_eq.
Qed.

(** A run whose marker is [k], against a remote that answers [since_id]
    with the candidates above it: when no candidate is above [k], no item
    is reported and the marker stays. *)
Lemma checkDirectMessages_up_to_date r n flag w m k config w1 candidates :
  (_ ← ensure_connected r; _ ← log INFO "Checking for new direct messages";
   load_latest "DirectMessages") w = (Ret (Some m, config), w1) →
  py_int m = Some k →
  direct_messages r (Some m) = inr (filter (λ s, k < id s) candidates) →
  Forall (λ s, id s ≤ k) candidates →
  ∃ w', checkDirectMessages r n flag w = (Ret [], w')
        ∧ latest_ini (fs w') = latest_ini (fs w1).
Proof.
  intros Hpre _ Hl Hall.
  assert (filter (λ s, k < id s) candidates = []) as Hnone.
  { clear Hl. induction Hall as [|s l Hs _ IH]; [done|].
    rewrite filter_cons_False by lia. exact IH. }
  rewrite Hnone in Hl.
  destruct (checkDirectMessages_new_items r n flag w (Some m) config w1 [] Hpre Hl)
    as (w' & t & Hrun & _ & _ & _ & _ & Hfile).
  assert (items n ([] : list status) = []) as Hi.
  { unfold items. destruct (0 <? n); [apply firstn_nil|done]. }
  rewrite Hi in *. simpl in Hrun. by exists w'.
Qed.

(** * Further properties *)

(** ** What a computation may do *)

Lemma outward_app t1 t2 : outward (t1 ++ t2) = outward t1 ++ outward t2.
Proof. apply List.filter_app. Qed.

Section Only.
Context (p : event → bool).

Lemma within_refl w : within w p w.
Proof. do 3 (split; [done|]). exists []. by rewrite app_nil_r. Qed.

Lemma within_record w0 e w :
  forallb p (outward [e]) = true → within w0 p w → within w0 p (record e w).
Proof.
  intros He (Hs & Hr & Ha & t & Ht & Hp). do 3 (split; [done|]).
  exists (t ++ [e]). cbn [record trace]. rewrite Ht, app_assoc. split; [done|].
  by rewrite outward_app, forallb_app, Hp, He.
Qed.

Lemma only_run {A} (m : M A) w : only p m → within w p (snd (m w)).
Proof.
  intros H. specialize (H w w (within_refl w)).
  by destruct (m w) as [[a|e] w'].
Qed.

Lemma only_ret {A} (a : A) : only p (mret a).
Proof. intros w0. by apply triple_ret. Qed.

Lemma only_raise {A} e : only p (@raise A e).
Proof. intros w0. by apply triple_raise. Qed.

Lemma only_bind {A B} (m : M A) (f : A → M B) :
  only p m → (∀ a, only p (f a)) → only p (m ≫= f).
Proof.
  intros Hm Hf w0. eapply triple_bind; [apply Hm|]. intros a. apply Hf.
Qed.

Lemma only_get : only p get.
Proof. intros w0. by apply triple_get. Qed.

Lemma only_emit e : forallb p (outward [e]) = true → only p (emit e).
Proof. intros He w0. apply triple_emit. intros w. by apply within_record. Qed.

Lemma only_log l msg : only p (log l msg).
Proof. by apply only_emit. Qed.

Lemma only_set_api : only p (set_api true).
Proof.
  intros w0. apply triple_set_api. intros w (Hs & Hr & Ha & Ht). by do 3 (split; [done|]).
Qed.

Lemma only_set_fs f : only p (set_fs f).
Proof. intros w0. by apply triple_set_fs. Qed.

Lemma only_try_log {A} msg (m : M A) : only p m → only p (try_log msg m).
Proof.
  intros H w0. apply triple_try_log.
  eapply triple_conseq; [apply (H w0)|done|done|].
  intros e w. by apply within_record.
Qed.

Lemma only_catch {A} (m : M A) h :
  only p m → (∀ e, only p (h e)) → only p (catch m h).
Proof.
  intros H Hh w0. eapply triple_catch; [apply H|]. intros e. apply Hh.
Qed.

Lemma only_for_each {A} (f : A → M unit) l :
  (∀ x, only p (f x)) → only p (for_each l f).
Proof.
  intros H w0.
  apply (triple_for_each (within w0 p) f l (λ _, within w0 p)).
  intros x. apply H.
Qed.

Lemma only_read_file f : only p (read_file f).
Proof. destruct f; [apply only_raise|apply only_ret]. Qed.

Lemma only_getitem c s k : only p (getitem c s k).
Proof.
  unfold getitem. destruct (lookup c s k); [apply only_raise|apply only_ret].
Qed.

Lemma only_cursor_some {A} c limit (r : feed A) :
  p (Call c) = true → only p (cursor_some c limit r).
Proof.
  intros Hc. unfold cursor_some. apply only_bind.
  - apply only_emit. cbn. by rewrite Hc.
  - intros ?. apply only_ret.
Qed.

Lemma only_raise_pending pending : only p (raise_pending pending).
Proof. destruct pending; [apply only_raise|apply only_ret]. Qed.

Lemma only_cursor {A} c limit (r : feed A) :
  p (Call c) = true → only p (cursor c limit r).
Proof.
  intros Hc. unfold cursor. apply only_bind; [by apply only_cursor_some|].
  intros [seen pending].
  apply only_bind; [apply only_raise_pending|]. intros ?. apply only_ret.
Qed.

Lemma only_scan_replies r fetched asked news :
  p (Call c_me) = true → only p (scan_replies r fetched asked news).
Proof.
  intros Hc. revert asked news.
  induction fetched as [|msg rest IH]; intros asked news.
  - apply only_ret.
  - simpl. apply only_bind.
    + apply only_emit. cbn. by rewrite Hc.
    + intros ?. destruct (me r asked); [apply only_raise|apply IH].
Qed.

Lemma only_write file update :
  p (WriteFile file) = true → only p (write file update).
Proof.
  intros Hf. unfold write. apply only_bind; [apply only_get|]. intros ?.
  apply only_bind; [apply only_set_fs|]. intros ?.
  apply only_emit. cbn. by rewrite Hf.
Qed.

Lemma only_initState : p Makedirs = true → only p _initState.
Proof.
  intros Hm. unfold _initState. apply only_bind; [apply only_get|]. intros w.
  destruct (state_dir (fs w)); [apply only_ret|].
  apply only_bind; [|intros ?; apply only_set_fs].
  apply only_emit. cbn. by rewrite Hm.
Qed.

Lemma only_connect r c : p (Call c_verify_credentials) = true → only p (connect r c).
Proof.
  intros Hv. unfold connect. apply only_bind.
  - apply only_emit. cbn. by rewrite Hv.
  - intros ?. destruct (verify_credentials r c) as [e|[]]; try apply only_raise.
    apply only_bind; [apply only_log|]. intros ?. apply only_set_api.
Qed.

Lemma only_connectFromConfig r :
  p (Call c_verify_credentials) = true → only p (connectFromConfig r).
Proof.
  intros Hv. unfold connectFromConfig. apply only_bind; [apply only_log|]. intros ?.
  apply only_bind; [apply only_get|]. intros w.
  destruct (credentials_ini (fs w)); [|apply only_raise].
  apply only_bind; [apply only_read_file|]. intros c.
  repeat (apply only_bind; [apply only_getitem|]; intros ?).
  by apply only_connect.
Qed.

Lemma only_ensure_connected r :
  p (Call c_verify_credentials) = true → only p (ensure_connected r).
Proof.
  intros Hv. unfold ensure_connected. apply only_bind; [apply only_get|]. intros w.
  destruct (api w); [apply only_ret|by apply only_connectFromConfig].
Qed.

End Only.

Ltac only_side :=
  try (cbn [forallb outward List.filter]; rewrite ?andb_true_r);
  first [reflexivity | done | auto].

Ltac only_step :=
  lazymatch goal with
  | |- only _ (mbind _ _) => apply only_bind; [|intros ?; cbv beta]
  | |- only _ (mret _) => apply only_ret
  | |- only _ (raise _) => apply only_raise
  | |- only _ get => apply only_get
  | |- only _ (emit _) => apply only_emit; only_side
  | |- only _ (log _ _) => apply only_log
  | |- only _ (try_log _ _) => apply only_try_log
  | |- only _ (catch _ _) => apply only_catch; [|intros ?; cbv beta]
  | |- only _ (for_each _ _) => apply only_for_each; intros ?; cbv beta
  | |- only _ (cursor _ _ _) => apply only_cursor; only_side
  | |- only _ (cursor_some _ _ _) => apply only_cursor_some; only_side
  | |- only _ (raise_pending _) => apply only_raise_pending
  | |- only _ (scan_replies _ _ _ _) => apply only_scan_replies; only_side
  | |- only _ (fetch_replies _ _ _) => unfold fetch_replies
  | |- only _ (fetch_direct_messages _ _ _ _) => unfold fetch_direct_messages
  | |- only _ (read_file _) => apply only_read_file
  | |- only _ (getitem _ _ _) => apply only_getitem
  | |- only _ (write _ _) => apply only_write; only_side
  | |- only _ _initState => apply only_initState; only_side
  | |- only _ (ensure_connected _) => apply only_ensure_connected; only_side
  | |- only _ (connectFromConfig _) => apply only_connectFromConfig; only_side
  | |- only _ (match ?x with _ => _ end) => destruct x
  end.

Lemma only_tweet_loop r m retry : ∀ from, only tweet_events (tweet_loop r m retry from).
Proof.
  induction retry as [|retry IH]; intros from; [apply only_ret|].
  cbn [tweet_loop]. do 2 (only_step; [only_step|]).
  destruct (update_status r from m) as [e|t]; [|repeat only_step].
  destruct e; try apply only_raise.
  do 2 (only_step; [only_step|]).
  destruct (rate_limit_status r from); [apply only_raise|].
  destruct retry; [apply only_raise|].
  only_step; [only_step|]. do 2 (only_step; [only_step|]). apply IH.
Qed.

Lemma only_tweet r message : only tweet_events (tweet r message).
Proof.
  unfold tweet. only_step.
  - only_step. only_step.
    + unfold tweet_error_checking. repeat only_step.
    + only_step; [only_step|]. apply only_tweet_loop.
  - repeat only_step.
Qed.

Lemma keeps_tweet_loop J r m retry : ∀ from, keeps J (tweet_loop r m retry from).
Proof.
  induction retry as [|retry IH]; intros from; [apply keeps_ret|].
  cbn [tweet_loop]. do 2 (keeps_step; [keeps_step|]).
  destruct (update_status r from m) as [e|t]; [|repeat keeps_step].
  destruct e; try apply keeps_raise.
  do 2 (keeps_step; [keeps_step|]).
  destruct (rate_limit_status r from); [apply keeps_raise|].
  destruct retry; [apply keeps_raise|].
  keeps_step; [keeps_step|]. do 2 (keeps_step; [keeps_step|]). apply IH.
Qed.

Lemma keeps_tweet J r message : keeps J (tweet r message).
Proof.
  unfold tweet. keeps_step.
  - keeps_step. keeps_step.
    + unfold tweet_error_checking. repeat keeps_step.
    + keeps_step; [keeps_step|]. apply keeps_tweet_loop.
  - repeat keeps_step.
Qed.

(** X5.  Whatever the message, the remote and the outcome, [tweet] leaves
    every state file, the credentials file and the rate-limit parameters
    as they were, never disconnects a connected client, and apart from
    logging does nothing but verify credentials, submit the status, query
    the rate limit, pause, and call the [handleTweet] hook: no feed is
    read, no other hook runs, nothing is written. *)
Theorem tweet_footprint r message w :
  fs (snd (tweet r message w)) = fs w
  ∧ within w tweet_events (snd (tweet r message w)).
Proof.
  split.
  - apply (keeps_run (λ f, f = fs w)); [apply keeps_tweet|done].
  - apply only_run, only_tweet.
Qed.

Section ChecksOnly.
Context (p : event → bool).
Hypothesis p_verify : p (Call c_verify_credentials) = true.
Hypothesis p_makedirs : p Makedirs = true.

Lemma only_load_latest sec : only p (load_latest sec).
Proof. unfold load_latest. repeat only_step. Qed.

Lemma only_save_latest sec what l c :
  p (WriteFile F_latest) = true → only p (save_latest sec what l c).
Proof. intros ?. unfold save_latest. repeat only_step. Qed.

Lemma only_checkRetweets r n :
  p (WriteFile F_latest) = true →
  (∀ s, p (Call (c_retweets_of_me s)) = true) →
  (∀ t, p (Hook (handleRetweet t)) = true) →
  only p (checkRetweets r n).
Proof.
  intros ???. unfold checkRetweets. repeat only_step;
    [apply only_load_latest|by apply only_save_latest].
Qed.

Lemma only_checkReplies r n :
  p (WriteFile F_latest) = true →
  (∀ s, p (Call (c_home_timeline s)) = true) →
  p (Call c_me) = true →
  (∀ t, p (Hook (handleReply t)) = true) →
  only p (checkReplies r n).
Proof.
  intros ????. unfold checkReplies. repeat only_step;
    [apply only_load_latest|by apply only_save_latest].
Qed.

Lemma only_checkDirectMessages r n b :
  p (WriteFile F_latest) = true →
  (∀ s, p (Call (c_direct_messages s)) = true) →
  (∀ t, p (Hook (handleDM t)) = true) →
  only p (checkDirectMessages r n b).
Proof.
  intros ???. unfold checkDirectMessages, fetch_direct_messages. repeat only_step;
    [apply only_load_latest|by apply only_save_latest].
Qed.

Lemma only_load_followers : only p load_followers.
Proof. unfold load_followers. repeat only_step. Qed.

Lemma only_checkNewFollowers r n :
  p (WriteFile F_followers) = true →
  p (Call c_followers) = true →
  (∀ f, p (Hook (handleNewFollower f)) = true) →
  only p (checkNewFollowers r n).
Proof.
  intros ???. unfold checkNewFollowers. repeat only_step.
  apply only_load_followers.
Qed.

Lemma only_scan_favorites l c news : only p (scan_favorites l c news).
Proof.
  revert c news. induction l as [|msg l IH]; intros c news; simpl.
  - only_step.
  - repeat only_step; apply IH.
Qed.

Lemma only_load_favorites : only p load_favorites.
Proof. unfold load_favorites. repeat only_step. Qed.

Lemma only_checkFavorites r n :
  p (WriteFile F_favorites) = true →
  p (Call c_user_timeline) = true →
  (∀ t k, p (Hook (handleFavorite t k)) = true) →
  only p (checkFavorites r n).
Proof.
  intros ???. unfold checkFavorites. repeat only_step;
    [apply only_load_favorites|apply only_scan_favorites].
Qed.

End ChecksOnly.

Lemma only_gate p i :
  p Makedirs = true → p (WriteFile F_UpdateCheckInterval) = true →
  only p (_shouldCheckUpdates i).
Proof.
  intros ??. unfold _shouldCheckUpdates, load_interval. repeat only_step.
Qed.

Lemma only_checkForUpdates r i b1 b2 b3 b4 b5 :
  only (update_events b1 b2 b3 b4 b5) (checkForUpdates r i b1 b2 b3 b4 b5).
Proof.
  unfold checkForUpdates. only_step; [by apply only_gate|].
  only_step; [|only_step]. unfold perform_checks.
  destruct b1, b2, b3, b4, b5; repeat only_step;
    lazymatch goal with
    | |- only _ (checkRetweets _ _) => by apply only_checkRetweets
    | |- only _ (checkNewFollowers _ _) => by apply only_checkNewFollowers
    | |- only _ (checkFavorites _ _) => by apply only_checkFavorites
    | |- only _ (checkDirectMessages _ _ _) => by apply only_checkDirectMessages
    | |- only _ (checkReplies _ _) => by apply only_checkReplies
    end.
Qed.

(** ** The retry loop of [tweet] *)

Lemma extend_nil w : extend [] w = w.
Proof. destruct w. unfold extend. cbn. by rewrite app_nil_r. Qed.

Lemma extend_extend t1 t2 w : extend t2 (extend t1 w) = extend (t1 ++ t2) w.
Proof. unfold extend. cbn. by rewrite app_assoc. Qed.

Lemma record_extend e w : record e w = extend [e] w.
Proof. reflexivity. Qed.

Lemma rate_limited_S r m from k :
  rate_limited r m from (S k) = true →
  (∃ reason, update_status r from m = inl (RateLimitError reason)
             ∧ rate_limit_status r from = None)
  ∧ rate_limited r m (S from) k = true.
Proof.
  unfold rate_limited. cbn [seq forallb]. intros [H1 H2]%andb_prop.
  split; [|done]. destruct (update_status r from m) as [[]|]; try done.
  cbn in H1. apply bool_decide_eq_true in H1. by eexists.
Qed.

Lemma rate_limited_split r m from k j :
  rate_limited r m from (k + j) = true →
  rate_limited r m from k = true ∧ rate_limited r m (from + k) j = true.
Proof.
  unfold rate_limited. rewrite seq_app, forallb_app. apply andb_prop.
Qed.

Lemma tweet_loop_S r m retry from :
  tweet_loop r m (S retry) from
  = (_ ← log INFO ("Tweeting message: " +:+ str_opt m);
     _ ← emit (Call (c_update_status m));
     match update_status r from m with
     | inr t => _ ← log INFO "Tweeted successfully"; mret (Some t)
     | inl (RateLimitError _) =>
         _ ← log WARNING "Twitter API rate limit reached.";
         _ ← emit (Call c_rate_limit_status);
         match rate_limit_status r from with
         | Some e => raise e
         | None =>
             match retry with
             | S _ =>
                 w ← get;
                 _ ← log INFO ("Sleeping for " +:+ str (sleep w)
                               +:+ " seconds before retrying. Retries left: "
                               +:+ str (Z.of_nat retry));
                 _ ← emit (Sleep (sleep w));
                 tweet_loop r m retry (S from)
             | O => raise RateLimitRetriesExceeded
             end
         end
     | inl e => raise e
     end).
Proof. reflexivity. Qed.

(** The loop after [k] refusals, when more than [k] attempts are allowed:
    [k] rounds of submission, rate-limit query and pause, and then the
    loop with the remaining attempts. *)
Lemma tweet_loop_refused r m k : ∀ retry from w,
  (k < retry)%nat → rate_limited r m from k = true →
  ∃ t,
    tweet_loop r m retry from w
    = tweet_loop r m (retry - k) (from + k) (extend t w)
    ∧ outward t = concat (replicate k (refused_round m (sleep w))).
Proof.
  induction k as [|k IH]; intros retry from w Hk Hrl.
  - exists []. by rewrite Nat.sub_0_r, Nat.add_0_r, extend_nil.
  - destruct retry as [|retry]; [lia|].
    apply rate_limited_S in Hrl as [(reason & Hr & Hq) Hrl].
    destruct retry as [|retry']; [lia|].
    set (pre := [Log INFO ("Tweeting message: " +:+ str_opt m);
                 Call (c_update_status m);
                 Log WARNING "Twitter API rate limit reached.";
                 Call c_rate_limit_status;
                 Log INFO ("Sleeping for " +:+ str (sleep w)
                           +:+ " seconds before retrying. Retries left: "
                           +:+ str (Z.of_nat (S retry')));
                 Sleep (sleep w)]).
    destruct (IH (S retry') (S from) (extend pre w) ltac:(lia) Hrl)
      as (t & Hrun & Ht).
    exists (pre ++ t). split.
    + rewrite tweet_loop_S, Hr, Hq.
      unfold mbind, M_bind, log, emit, get. cbv beta iota.
      etrans; [|etrans; [exact Hrun|]].
      * f_equal. unfold extend, record, pre. cbn. f_equal.
        by rewrite <- !app_assoc.
      * rewrite extend_extend. f_equal. lia.
    + rewrite outward_app, Ht. reflexivity.
Qed.

(** The outcome of the loop once the answer to the next submission is
    known. *)
Lemma tweet_loop_accepted r m retry from w t :
  update_status r from m = inr t →
  tweet_loop r m (S retry) from w
  = (Ret (Some t),
     extend [Log INFO ("Tweeting message: " +:+ str_opt m);
             Call (c_update_status m); Log INFO "Tweeted successfully"] w).
Proof.
  intros Hr. rewrite tweet_loop_S, Hr.
  unfold mbind, M_bind, log, emit, mret, M_ret. cbv beta iota.
  f_equal. unfold extend, record. cbn. f_equal. by rewrite <- !app_assoc.
Qed.

Lemma tweet_loop_last_refused r m from w reason :
  update_status r from m = inl (RateLimitError reason) →
  rate_limit_status r from = None →
  tweet_loop r m 1 from w
  = (Raise RateLimitRetriesExceeded,
     extend [Log INFO ("Tweeting message: " +:+ str_opt m);
             Call (c_update_status m);
             Log WARNING "Twitter API rate limit reached.";
             Call c_rate_limit_status] w).
Proof.
  intros Hr Hq. rewrite tweet_loop_S, Hr, Hq.
  unfold mbind, M_bind, log, emit, raise. cbv beta iota.
  f_equal. unfold extend, record. cbn. f_equal. by rewrite <- !app_assoc.
Qed.

Lemma tweet_loop_failed r m retry from w e :
  update_status r from m = inl e → is_rate_limit e = false →
  tweet_loop r m (S retry) from w
  = (Raise e,
     extend [Log INFO ("Tweeting message: " +:+ str_opt m);
             Call (c_update_status m)] w).
Proof.
  intros Hr He. rewrite tweet_loop_S, Hr.
  destruct e; try discriminate He;
  unfold mbind, M_bind, log, emit, raise; cbv beta iota;
  (f_equal; unfold extend, record; cbn; f_equal; by rewrite <- !app_assoc).
Qed.

(** The checks that open [tweet] let a valid message of a connected client
    through and leave the world as it is. *)
Lemma tweet_error_checking_valid r message w :
  api w = true → valid_message message = true →
  tweet_error_checking r message w = (Ret tt, w).
Proof.
  intros Hapi Hv. unfold tweet_error_checking, mbind, M_bind, get.
  rewrite Hapi. cbn [negb]. destruct message as [m|]; [|discriminate].
  cbn in Hv. apply andb_prop in Hv as [H0 H1].
  apply Z.ltb_lt in H0. apply Z.leb_le in H1.
  destruct (Z.ltb_spec CHARACTER_LIMIT (len m)); [lia|].
  destruct (Z.leb_spec (len m) 0); [lia|]. reflexivity.
Qed.

Lemma tweet_valid r message w :
  api w = true → valid_message message = true →
  tweet r message w
  = (let '(o, w') := try_log "Exception encountered while attempting to tweet"
                       (tweet_loop r message (Z.to_nat (retries w)) 0) w in
     match o with
     | Ret (Some t) => (Ret tt, record (Hook (handleTweet t)) w')
     | Ret None => (Ret tt, w')
     | Raise e => (Raise e, w')
     end).
Proof.
  intros Hapi Hv. unfold tweet, try_log, mbind, M_bind.
  rewrite (tweet_error_checking_valid _ _ _ Hapi Hv). unfold get.
  destruct (tweet_loop r message (Z.to_nat (retries w)) 0 w) as [[[t|]|e] w'];
    reflexivity.
Qed.

(** X1.  A connected client is given a message of 1 to 280 characters;
    the first [k] submissions are refused with a rate-limit error (and
    the rate-limit query that follows each refusal is answered), the
    next one is accepted with status [t], and more than [k] attempts are
    allowed.  Then [tweet] returns; apart from log lines it has made [k]
    rounds of submission, rate-limit query and pause of [sleep] seconds,
    then the accepted submission, then one call of the [handleTweet] hook
    with [t]; the connection and the files are as before. *)
Theorem tweet_posts_after_refusals r message w (k : nat) t :
  api w = true → valid_message message = true →
  Z.of_nat k < retries w →
  rate_limited r message 0 k = true →
  update_status r k message = inr t →
  ∃ tr,
    tweet r message w = (Ret tt, extend tr w)
    ∧ outward tr
      = concat (replicate k (refused_round message (sleep w)))
        ++ [Call (c_update_status message); Hook (handleTweet t)].
Proof.
  intros Hapi Hv Hk Hrl Hok.
  destruct (tweet_loop_refused r message k (Z.to_nat (retries w)) 0%nat w
              ltac:(lia) Hrl) as (t1 & Hrun & Ht1).
  rewrite Nat.add_0_l in Hrun.
  destruct (Z.to_nat (retries w) - k)%nat as [|n] eqn:Hn; [lia|].
  rewrite (tweet_loop_accepted _ _ _ _ _ _ Hok), extend_extend in Hrun.
  eexists (_ ++ [_]). split.
  - rewrite (tweet_valid _ _ _ Hapi Hv). unfold try_log. rewrite Hrun.
    rewrite record_extend, extend_extend. reflexivity.
  - rewrite !outward_app, Ht1, <- app_assoc. reflexivity.
Qed.

(** X2.  A connected client is given a message of 1 to 280 characters and
    each of the [n + 1] attempts it is allowed is refused with a
    rate-limit error (and the rate-limit query that follows each refusal
    is answered).  Then [tweet] raises [RateLimitRetriesExceeded]
    after exactly [n + 1] submissions, with a pause of [sleep] seconds
    after each of them but the last; the hook is not called, and the
    connection and the files are as before. *)
Theorem tweet_gives_up_after_retries r message w (n : nat) :
  api w = true → valid_message message = true →
  retries w = Z.of_nat (S n) →
  rate_limited r message 0 (S n) = true →
  ∃ tr,
    tweet r message w = (Raise RateLimitRetriesExceeded, extend tr w)
    ∧ outward tr
      = concat (replicate n (refused_round message (sleep w)))
        ++ [Call (c_update_status message); Call c_rate_limit_status].
Proof.
  intros Hapi Hv Hn Hrl.
  replace (S n) with (n + 1)%nat in Hrl by lia.
  apply rate_limited_split in Hrl
    as [Hrl' [(reason & Hlast & Hquery) _]%rate_limited_S].
  rewrite Nat.add_0_l in Hlast, Hquery.
  destruct (tweet_loop_refused r message n (Z.to_nat (retries w)) 0%nat w
              ltac:(lia) Hrl') as (t1 & Hrun & Ht1).
  rewrite Nat.add_0_l in Hrun.
  replace (Z.to_nat (retries w) - n)%nat with 1%nat in Hrun by lia.
  rewrite (tweet_loop_last_refused _ _ _ _ _ Hlast Hquery), extend_extend in Hrun.
  eexists (_ ++ [_]). split.
  - rewrite (tweet_valid _ _ _ Hapi Hv). unfold try_log. rewrite Hrun.
    rewrite record_extend, extend_extend. reflexivity.
  - rewrite !outward_app, Ht1, <- app_assoc. reflexivity.
Qed.

(** X3.  An error of the remote that is not a rate-limit error is not
    retried: when the first [k] submissions are refused with a rate-limit
    error (and the rate-limit query that follows each refusal is
    answered) and the next one fails with [e], [tweet] raises [e] at once,
    without querying the rate limit, pausing or calling the hook, however
    many attempts are left. *)
Theorem tweet_other_error_not_retried r message w (k : nat) e :
  api w = true → valid_message message = true →
  Z.of_nat k < retries w →
  rate_limited r message 0 k = true →
  update_status r k message = inl e → is_rate_limit e = false →
  ∃ tr,
    tweet r message w = (Raise e, extend tr w)
    ∧ outward tr
      = concat (replicate k (refused_round message (sleep w)))
        ++ [Call (c_update_status message)].
Proof.
  intros Hapi Hv Hk Hrl Herr He.
  destruct (tweet_loop_refused r message k (Z.to_nat (retries w)) 0%nat w
              ltac:(lia) Hrl) as (t1 & Hrun & Ht1).
  rewrite Nat.add_0_l in Hrun.
  destruct (Z.to_nat (retries w) - k)%nat as [|n] eqn:Hn; [lia|].
  rewrite (tweet_loop_failed _ _ _ _ _ _ Herr He), extend_extend in Hrun.
  eexists (_ ++ [_]). split.
  - rewrite (tweet_valid _ _ _ Hapi Hv). unfold try_log. rewrite Hrun.
    rewrite record_extend, extend_extend. reflexivity.
  - rewrite !outward_app, Ht1, <- app_assoc. reflexivity.
Qed.

Lemma tweet_posts_after_refusals_witness :
  let r := Scenes.throttled 1 (inr (Fixtures.post 100 0)) in
  let w := Fixtures.connected Fixtures.no_files in
  ∃ tr,
    tweet r (Some "hello") w = (Ret tt, extend tr w)
    ∧ outward tr
      = concat (replicate 1 (refused_round (Some "hello") (sleep w)))
        ++ [Call (c_update_status (Some "hello"));
            Hook (handleTweet (Fixtures.post 100 0))].
Proof.
  apply (tweet_posts_after_refusals
           (Scenes.throttled 1 (inr (Fixtures.post 100 0))) (Some "hello")
           (Fixtures.connected Fixtures.no_files) 1 (Fixtures.post 100 0));
    [reflexivity|reflexivity|reflexivity|reflexivity|reflexivity].
Defined.

Lemma tweet_gives_up_after_retries_witness :
  let r := Scenes.throttled 5 (inr (Fixtures.post 100 0)) in
  let w := Fixtures.connected Fixtures.no_files in
  ∃ tr,
    tweet r (Some "hello") w = (Raise RateLimitRetriesExceeded, extend tr w)
    ∧ outward tr
      = concat (replicate 1 (refused_round (Some "hello") (sleep w)))
        ++ [Call (c_update_status (Some "hello")); Call c_rate_limit_status].
Proof.
  apply (tweet_gives_up_after_retries
           (Scenes.throttled 5 (inr (Fixtures.post 100 0))) (Some "hello")
           (Fixtures.connected Fixtures.no_files) 1);
    [reflexivity|reflexivity|reflexivity|reflexivity].
Defined.

Lemma tweet_other_error_not_retried_witness :
  let r := Scenes.throttled 1 (inl (TweepError "Status is a duplicate.")) in
  let w := Fixtures.connected Fixtures.no_files in
  ∃ tr,
    tweet r (Some "hello") w
    = (Raise (TweepError "Status is a duplicate."), extend tr w)
    ∧ outward tr
      = concat (replicate 1 (refused_round (Some "hello") (sleep w)))
        ++ [Call (c_update_status (Some "hello"))].
Proof.
  apply (tweet_other_error_not_retried
           (Scenes.throttled 1 (inl (TweepError "Status is a duplicate.")))
           (Some "hello") (Fixtures.connected Fixtures.no_files) 1
           (TweepError "Status is a duplicate."));
    [reflexivity|reflexivity|reflexivity|reflexivity|reflexivity|reflexivity].
Defined.

(** ** [tweet] and [checkForUpdates] as a whole *)

Lemma tweet_loop_not_none r m retry : ∀ from w,
  (0 < retry)%nat → fst (tweet_loop r m retry from w) ≠ Ret None.
Proof.
  induction retry as [|retry IH]; intros from w Hpos; [lia|].
  cbn [tweet_loop]. unfold mbind, M_bind, log, emit, get, raise, mret, M_ret.
  destruct (update_status r from m) as [e|t]; [|done].
  destruct e; try done.
  destruct (rate_limit_status r from); [done|].
  destruct retry as [|retry']; [done|]. apply IH. lia.
Qed.

Lemma only_tweet_error_checking r message :
  only tweet_events (tweet_error_checking r message).
Proof. unfold tweet_error_checking. repeat only_step. Qed.

(** X4.  With at least one attempt allowed, which [__init__] ensures by
    raising [rateLimitRetries] to 1, [tweet] never returns silently:
    whatever the message, the remote and the state, either it returns and
    the last thing it did was to call [handleTweet] on a status, or it
    raises and the last thing it did was to log that exception. *)
Theorem tweet_posts_or_raises r message w :
  1 ≤ retries w →
  match tweet r message w with
  | (Ret _, w') => ∃ t, last (trace w') = Some (Hook (handleTweet t))
  | (Raise e, w') =>
      last (trace w')
      = Some (LogException "Exception encountered while attempting to tweet" e)
  end.
Proof.
  intros Hn. unfold tweet, try_log, mbind, M_bind.
  pose proof (only_run tweet_events (tweet_error_checking r message) w
                (only_tweet_error_checking r message)) as (_ & Hr & _).
  destruct (tweet_error_checking r message w) as [[[]|e] w1];
    [|by cbn; rewrite last_snoc].
  cbn [snd] in Hr. unfold get.
  pose proof (tweet_loop_not_none r message (Z.to_nat (retries w1)) 0 w1
                ltac:(lia)) as Hloop.
  destruct (tweet_loop r message (Z.to_nat (retries w1)) 0 w1)
    as [[[t|]|e] w2]; cbn.
  - exists t. by rewrite last_snoc.
  - done.
  - by rewrite last_snoc.
Qed.

Lemma tweet_posts_or_raises_witness :
  match tweet Fixtures.quiet (Some "hello")
          (put_api true (init (-5) 0 Fixtures.no_files)) with
  | (Ret _, w') => ∃ t, last (trace w') = Some (Hook (handleTweet t))
  | (Raise e, w') =>
      last (trace w')
      = Some (LogException "Exception encountered while attempting to tweet" e)
  end.
Proof.
  apply (tweet_posts_or_raises Fixtures.quiet (Some "hello")
           (put_api true (init (-5) 0 Fixtures.no_files))).
  vm_compute. discriminate.
Defined.

(** *** A failing feed *)

Lemma triple_and {A} P (m : M A) Q1 Q2 E1 E2 :
  triple P m Q1 E1 → triple (λ _, True) m Q2 E2 →
  triple P m (λ a w, Q1 a w ∧ Q2 a w) (λ e w, E1 e w ∧ E2 e w).
Proof.
  intros H1 H2 w Hw. specialize (H1 w Hw). specialize (H2 w I).
  by destruct (m w) as [[a|e] w'].
Qed.

Lemma triple_true {A} P (m : M A) : triple P m (λ _ _, True) (λ _ _, True).
Proof. intros w _. by destruct (m w) as [[a|e] w']. Qed.

Lemma triple_false {A} (m : M A) Q E : triple (λ _, False) m Q E.
Proof. by intros w []. Qed.

Lemma never_returns_bind_l {A B} (m : M A) (f : A → M B) :
  never_returns m → never_returns (m ≫= f).
Proof.
  intros H. eapply triple_bind; [apply H|]. intros a. apply triple_false.
Qed.

Lemma never_returns_bind_r {A B} (m : M A) (f : A → M B) :
  (∀ a, never_returns (f a)) → never_returns (m ≫= f).
Proof.
  intros H. eapply triple_bind; [apply triple_true|]. intros a. apply H.
Qed.

Lemma never_returns_try_log {A} msg (m : M A) :
  never_returns m → never_returns (try_log msg m).
Proof. intros H. apply triple_try_log. exact H. Qed.

(** A feed that fails before the iterator has its fill. *)
Lemma yielded_failed {A} limit (delivered : list A) e :
  Z.of_nat (length delivered) < limit →
  yielded limit (inl (delivered, e)) = (delivered, Some e).
Proof.
  intros H. unfold yielded.
  by rewrite (proj2 (Z.leb_gt _ _) H), andb_false_r.
Qed.

Lemma checkNewFollowers_never_returns r n seen e :
  yielded n (followers r) = (seen, Some e) →
  never_returns (checkNewFollowers r n).
Proof.
  intros Hf. unfold checkNewFollowers. apply never_returns_try_log.
  do 3 (apply never_returns_bind_r; intros ?). apply never_returns_bind_l.
  intros w _. by rewrite cursor_eq, Hf.
Qed.

Lemma only_never_returns {A} p (m : M A) w0 :
  only p m → never_returns m →
  triple (within w0 p) m (λ _ _, False) (λ _, within w0 p).
Proof.
  intros Ho Hn. eapply triple_conseq; [apply (triple_and _ _ _ _ _ _ (Ho w0) Hn)|..].
  - done.
  - by intros a w [_ []].
  - by intros e w [? _].
Qed.

Lemma perform_checks_failed_followers r seen e b1 b3 b4 b5 w0 :
  yielded 50 (followers r) = (seen, Some e) →
  triple (within w0 (update_events b1 true false false false))
    (perform_checks r b1 true b3 b4 b5)
    (λ _ _, False)
    (λ _, within w0 (update_events b1 true false false false)).
Proof.
  intros Hf. unfold perform_checks.
  set (p := update_events b1 true false false false).
  assert (Hstep : ∀ {A B} (m : M A) (k : A → M B),
             only p m →
             (∀ a, triple (within w0 p) (k a) (λ _ _, False) (λ _, within w0 p)) →
             triple (within w0 p) (m ≫= k) (λ _ _, False) (λ _, within w0 p)).
  { intros A B m k Hm Hk. eapply triple_bind; [apply (Hm w0)|]. exact Hk. }
  apply Hstep; [only_step|]. intros w.
  apply Hstep; [repeat only_step|]. intros _.
  apply Hstep; [only_step|]. intros _.
  apply Hstep.
  { subst p. destruct b1; repeat only_step. by apply only_checkRetweets. }
  intros _. eapply triple_bind; [|intros a; apply triple_false].
  apply only_never_returns.
  - subst p. repeat only_step. by apply only_checkNewFollowers.
  - apply never_returns_bind_l. by eapply checkNewFollowers_never_returns.
Qed.

(** X11.  The checks of one run are not isolated from each other.  When
    the gate lets the call through and the follower feed fails (before
    the fiftieth follower, where the check stops reading),
    [checkForUpdates] raises, and the favorites, direct-message and reply
    checks that come after the follower check do not run: none of their
    endpoints, hooks or files is touched.  Only the gate, the
    connection, the retweet check (if enabled) and the follower check
    have acted. *)
Theorem checkForUpdates_failed_feed_stops_run
    r runInterval b1 b3 b4 b5 w delivered e :
  due runInterval w = true →
  followers r = inl (delivered, e) → (length delivered < 50)%nat →
  ∃ e' w',
    checkForUpdates r runInterval b1 true b3 b4 b5 w = (Raise e', w')
    ∧ within w (update_events b1 true false false false) w'.
Proof.
  intros Hdue Hf Hlen.
  assert (Hy : yielded 50 (followers r) = (delivered, Some e)).
  { rewrite Hf. apply yielded_failed. lia. }
  destruct (counter_answers (UpdateCheckInterval_ini (fs w))) eqn:Hu.
  2:{ destruct (load_interval_raises w Hu) as [e' He']. exists e', w.
      split; [|apply within_refl].
      unfold checkForUpdates, _shouldCheckUpdates, mbind, M_bind.
      by rewrite He'. }
  destruct (gate_spec runInterval w Hu) as (w1 & Hrun & _).
  pose proof (only_run (update_events b1 true false false false)
                (_shouldCheckUpdates runInterval) w
                (only_gate _ _ eq_refl eq_refl)) as Hw1.
  rewrite Hrun in Hw1. cbn [snd] in Hw1.
  unfold checkForUpdates, mbind, M_bind. rewrite Hrun.
  assert ((runInterval <=? 0)
          || negb (0 <? stored_interval (UpdateCheckInterval_ini (fs w)))
          = true) as ->.
  { unfold due in Hdue. apply orb_prop in Hdue as [->|[-> _]%andb_prop];
      [done|apply orb_true_r]. }
  pose proof (perform_checks_failed_followers r delivered e b1 b3 b4 b5 w Hy w1 Hw1)
    as H.
  destruct (perform_checks r b1 true b3 b4 b5 w1) as [[[]|e'] w']; [done|].
  by exists e', w'.
Qed.

Lemma checkForUpdates_failed_feed_stops_run_witness :
  let w := Fixtures.connected Fixtures.no_files in
  ∃ e' w',
    checkForUpdates Scenes.followers_down 7 true true true true true w
    = (Raise e', w')
    ∧ within w (update_events true true false false false) w'.
Proof.
  apply (checkForUpdates_failed_feed_stops_run Scenes.followers_down 7
           true true true true (Fixtures.connected Fixtures.no_files) []
           (TweepError "Twitter error response: status code = 503"));
    [reflexivity|reflexivity|simpl; lia].
Defined.

(** ** Connecting *)

Lemma connectFromConfig_incomplete r w :
  stored_credentials (credentials_ini (fs w)) = None →
  ∃ e, connectFromConfig r w
       = (Raise e, record (Log INFO "reading credential config file") w).
Proof.
  unfold stored_credentials, stored, connectFromConfig, getitem, read_file,
    log, emit, get, raise, mbind, M_bind, mret, M_ret.
  cbn [fs record].
  destruct (credentials_ini (fs w)) as [[|c]|]; [by eexists| |by eexists].
  cbv beta iota zeta delta [option_bind].
  destruct (lookup c "TwitterCredentials" "ConsumerKey"); [by eexists|].
  destruct (lookup c "TwitterCredentials" "ConsumerSecret"); [by eexists|].
  destruct (lookup c "TwitterCredentials" "AccessToken"); [by eexists|].
  destruct (lookup c "TwitterCredentials" "AccessTokenSecret"); [by eexists|].
  discriminate.
Qed.

Lemma connectFromConfig_complete r w creds :
  stored_credentials (credentials_ini (fs w)) = Some creds →
  connectFromConfig r w
  = connect r creds (record (Log INFO "reading credential config file") w).
Proof.
  unfold stored_credentials, stored, connectFromConfig, getitem, read_file,
    log, emit, get, raise, mbind, M_bind, mret, M_ret.
  cbn [fs record].
  destruct (credentials_ini (fs w)) as [[|c]|]; try discriminate.
  cbv beta iota zeta delta [option_bind].
  destruct (lookup c "TwitterCredentials" "ConsumerKey"); [discriminate|].
  destruct (lookup c "TwitterCredentials" "ConsumerSecret"); [discriminate|].
  destruct (lookup c "TwitterCredentials" "AccessToken"); [discriminate|].
  destruct (lookup c "TwitterCredentials" "AccessTokenSecret"); [discriminate|].
  by intros [= <-].
Qed.

(** X6.  [connectFromConfig] returns exactly when the credentials file
    can be parsed, gives the four options (from its section
    [TwitterCredentials] or from DEFAULT, each interpolated without
    error), and the remote answers that it accepts them; the client is
    connected afterwards in that case and otherwise is as connected as it
    was; the remote is contacted, once, exactly when the file gives the
    four options; no file is changed. *)
Theorem connectFromConfig_succeeds_iff r w :
  let stored := stored_credentials (credentials_ini (fs w)) in
  let accepted := match stored with
                  | Some creds =>
                      match verify_credentials r creds with
                      | inr answer => answer
                      | inl _ => false
                      end
                  | None => false
                  end in
  let '(o, w') := connectFromConfig r w in
  (o = Ret tt ↔ accepted = true)
  ∧ api w' = (if accepted then true else api w)
  ∧ fs w' = fs w
  ∧ ∃ t, trace w' = trace w ++ t
         ∧ api_calls t = match stored with
                         | Some _ => [c_verify_credentials]
                         | None => []
                         end.
Proof.
  cbv zeta.
  destruct (stored_credentials (credentials_ini (fs w))) as [creds|] eqn:Hs.
  - rewrite (connectFromConfig_complete r w creds Hs).
    unfold connect, log, emit, set_api, raise, mbind, M_bind.
    destruct (verify_credentials r creds) as [e|[]]; cbn.
    + repeat split; try done. eexists [_; _].
      split; [by rewrite <- !app_assoc|done].
    + repeat split; try done. eexists [_; _; _].
      split; [by rewrite <- !app_assoc|done].
    + repeat split; try done. eexists [_; _].
      split; [by rewrite <- !app_assoc|done].
  - destruct (connectFromConfig_incomplete r w Hs) as [e ->]. cbn.
    repeat split; try done. by eexists [_].
Qed.

(** ** The cadence gate over several calls *)

(** A counter file that holds a number the gate has written is legible,
    and the number is its counter. *)
Lemma written_counter f k :
  persisted f "Update Check Interval" "last" = Some (str k) →
  counter_answers f = true ∧ stored_interval f = k.
Proof.
  intros H. apply stored_persisted_str in H; [|done].
  unfold counter_answers, stored_interval. unfold stored in *.
  destruct f as [[|c]|]; try done. rewrite H. split.
  - by destruct (has_section _ _ && has_option _ _ _).
  - cbn. by rewrite py_int_str.
Qed.

(** One call of the gate on a counter file that answers: what the gate
    says, and the counter the next call will read. *)
Lemma gate_step runInterval w :
  counter_answers (UpdateCheckInterval_ini (fs w)) = true →
  let n := stored_interval (UpdateCheckInterval_ini (fs w)) in
  ∃ w', _shouldCheckUpdates runInterval w = (Ret (negb (0 <? n)), w')
        ∧ counter_answers (UpdateCheckInterval_ini (fs w')) = true
        ∧ stored_interval (UpdateCheckInterval_ini (fs w'))
          = (if 0 <? n then n - 1 else runInterval).
Proof.
  intros Hf n. destruct (gate_spec runInterval w Hf) as (w' & Hrun & Hsaved & _).
  exists w'. split; [done|]. by apply written_counter.
Qed.

Lemma gate_calls_countdown runInterval (k : nat) : ∀ w,
  counter_answers (UpdateCheckInterval_ini (fs w)) = true →
  stored_interval (UpdateCheckInterval_ini (fs w)) = Z.of_nat k →
  ∃ w', gate_calls runInterval (S k) w
        = (replicate k (Ret false) ++ [Ret true], w')
        ∧ counter_answers (UpdateCheckInterval_ini (fs w')) = true
        ∧ stored_interval (UpdateCheckInterval_ini (fs w')) = runInterval.
Proof.
  induction k as [|k IH]; intros w Hf Hn;
    destruct (gate_step runInterval w Hf) as (w1 & Hrun & Hf1 & Hn1);
    rewrite Hn in Hrun, Hn1.
  - exists w1. cbn [gate_calls]. rewrite Hrun. by cbn.
  - assert ((0 <? Z.of_nat (S k)) = true) as E by (apply Z.ltb_lt; lia). rewrite E in Hrun, Hn1.
    destruct (IH w1 Hf1 ltac:(lia)) as (w' & Hrest & Hf' & Hn').
    exists w'. split; [|done].
    change (gate_calls runInterval (S (S k)) w)
      with (let '(o, w') := _shouldCheckUpdates runInterval w in
            let '(os, w'') := gate_calls runInterval (S k) w' in (o :: os, w'')).
    rewrite Hrun, Hrest. reflexivity.
Qed.

(** X7.  The period of the cadence gate.  From a counter file that is
    legible (absent, or parsed, with a counter value, if it has one, that
    interpolates to a number or to text of ASCII characters) and holds no
    positive counter (a fresh directory, or the call after a countdown
    ran out), and with a run interval [runInterval] that is not negative,
    the gate answers "check", then "skip" [runInterval] times, then
    "check" again: a check happens every [runInterval + 1] calls, and the
    stored counter is [runInterval] again afterwards. *)
Theorem gate_checks_every_interval_plus_one runInterval w :
  counter_legible (UpdateCheckInterval_ini (fs w)) = true →
  stored_interval (UpdateCheckInterval_ini (fs w)) ≤ 0 →
  0 ≤ runInterval →
  ∃ w', gate_calls runInterval (S (S (Z.to_nat runInterval))) w
        = (Ret true :: replicate (Z.to_nat runInterval) (Ret false) ++ [Ret true], w')
        ∧ stored_interval (UpdateCheckInterval_ini (fs w')) = runInterval.
Proof.
  intros Hf%legible_answers Hn Hi.
  destruct (gate_step runInterval w Hf) as (w1 & Hrun & Hf1 & Hn1).
  assert ((0 <? stored_interval (UpdateCheckInterval_ini (fs w))) = false)
    as E by (apply Z.ltb_ge; lia).
  rewrite E in Hrun, Hn1.
  destruct (gate_calls_countdown runInterval (Z.to_nat runInterval) w1 Hf1
              ltac:(lia)) as (w' & Hrest & _ & Hn').
  exists w'. split; [|done].
  change (gate_calls runInterval (S (S (Z.to_nat runInterval))) w)
    with (let '(o, w') := _shouldCheckUpdates runInterval w in
          let '(os, w'') := gate_calls runInterval (S (Z.to_nat runInterval)) w' in
          (o :: os, w'')).
  rewrite Hrun, Hrest. reflexivity.
Qed.

Lemma gate_checks_every_interval_plus_one_witness :
  ∃ w', gate_calls 7 9 (Fixtures.connected Fixtures.no_files)
        = ([Ret true; Ret false; Ret false; Ret false; Ret false; Ret false;
            Ret false; Ret false; Ret true], w')
        ∧ stored_interval (UpdateCheckInterval_ini (fs w')) = 7.
Proof.
  apply (gate_checks_every_interval_plus_one 7 (Fixtures.connected Fixtures.no_files));
    [reflexivity|vm_compute; discriminate|lia].
Defined.

(** X8.  A counter file that cannot be parsed stops [checkForUpdates]
    before anything else happens, whatever the interval and the flags:
    it raises the parser's error, logs nothing, calls nothing and leaves
    the world exactly as it was, so the next call fails the same way. *)
Theorem checkForUpdates_unparseable_counter r runInterval b1 b2 b3 b4 b5 w :
  UpdateCheckInterval_ini (fs w) = Some Unparseable →
  checkForUpdates r runInterval b1 b2 b3 b4 b5 w = (Raise ConfigParserError, w).
Proof.
  intros Hf. unfold checkForUpdates, _shouldCheckUpdates, load_interval,
    mbind, M_bind, get. by rewrite Hf.
Qed.

Lemma checkForUpdates_unparseable_counter_witness :
  checkForUpdates Fixtures.quiet 0 true true true true true
    (Fixtures.connected Broken.counter_unparseable)
  = (Raise ConfigParserError, Fixtures.connected Broken.counter_unparseable).
Proof. by apply checkForUpdates_unparseable_counter. Defined.



(** ** The files and endpoints a call touches *)

Lemma untouched_refl a b c d f : untouched a b c d f f.
Proof. by repeat split. Qed.

Lemma untouched_state_dir a b c d f0 f :
  untouched a b c d f0 f → untouched a b c d f0 (with_state_dir f).
Proof. done. Qed.

Lemma untouched_latest b c d f0 f x :
  untouched true b c d f0 f → untouched true b c d f0 (with_latest x f).
Proof. intros (?&?&?&?&?). by repeat split. Qed.

Lemma untouched_followers a c d f0 f x :
  untouched a true c d f0 f → untouched a true c d f0 (with_followers x f).
Proof. intros (?&?&?&?&?). by repeat split. Qed.

Lemma untouched_favorites a b d f0 f x :
  untouched a b true d f0 f → untouched a b true d f0 (with_favorites x f).
Proof. intros (?&?&?&?&?). by repeat split. Qed.

Lemma untouched_counter a b c f0 f x :
  untouched a b c true f0 f → untouched a b c true f0 (with_UpdateCheckInterval x f).
Proof. intros (?&?&?&?&?). by repeat split. Qed.

Lemma keeps_gate J i :
  (∀ f, J f → J (with_state_dir f)) →
  (∀ c f, J f → J (with_UpdateCheckInterval c f)) →
  keeps J (_shouldCheckUpdates i).
Proof.
  intros H1 H2. unfold _shouldCheckUpdates, load_interval.
  repeat keeps_step;
    first [by apply keeps_initState | apply keeps_write; intros f; apply H2].
Qed.

Lemma keeps_perform_checks_flags J r b1 b2 b3 b4 b5 :
  (∀ f, J f → J (with_state_dir f)) →
  (b1 || b3 || b5 = true → ∀ c f, J f → J (with_latest c f)) →
  (b2 = true → ∀ l f, J f → J (with_followers l f)) →
  (b4 = true → ∀ c f, J f → J (with_favorites c f)) →
  keeps J (perform_checks r b1 b2 b3 b4 b5).
Proof.
  intros Hd Hl Hfo Hfa. unfold perform_checks.
  destruct b1, b2, b3, b4, b5; repeat keeps_step;
    lazymatch goal with
    | |- keeps _ (checkRetweets _ _) => apply keeps_checkRetweets; auto
    | |- keeps _ (checkNewFollowers _ _) => apply keeps_checkNewFollowers; auto
    | |- keeps _ (checkFavorites _ _) => apply keeps_checkFavorites; auto
    | |- keeps _ (checkDirectMessages _ _ _) => apply keeps_checkDirectMessages; auto
    | |- keeps _ (checkReplies _ _) => apply keeps_checkReplies; auto
    end.
Qed.

Lemma keeps_checkForUpdates_flags r i b1 b2 b3 b4 b5 f0 :
  keeps (untouched (b1 || b3 || b5) b2 b4 true f0)
    (checkForUpdates r i b1 b2 b3 b4 b5).
Proof.
  unfold checkForUpdates. keeps_step.
  - apply keeps_gate; [done|]. intros c f. apply untouched_counter.
  - keeps_step; [|keeps_step].
    apply keeps_perform_checks_flags; [done|..].
    + intros -> c f. apply untouched_latest.
    + intros -> l f. apply untouched_followers.
    + intros -> c f. apply untouched_favorites.
Qed.

(** X10.  Whatever the remote answers and whatever is on disk,
    [checkForUpdates] never submits a status, never pauses and never calls
    [handleTweet]; it reads a feed, calls a hook or writes a state file
    of a feature only if the flag of that feature is set (and asks the
    remote who the account is only for the reply check); and it leaves
    the credentials file and the rate-limit parameters alone. *)
Theorem checkForUpdates_footprint r runInterval
    retweets newFollowers replies favorites directMessages w :
  let w' := snd (checkForUpdates r runInterval
                   retweets newFollowers replies favorites directMessages w) in
  within w (update_events retweets newFollowers replies favorites directMessages) w'
  ∧ untouched (retweets || replies || directMessages) newFollowers favorites true
      (fs w) (fs w').
Proof.
  split.
  - apply only_run, only_checkForUpdates.
  - apply (keeps_run _ _ w (keeps_checkForUpdates_flags _ _ _ _ _ _ _ (fs w))).
    apply untouched_refl.
Qed.

(** X12.  Each of the five checks, called on its own, reads only its own
    feed, calls only its own hook, and writes only its own state file;
    besides its feed the remote is contacted only for the credential
    check, when the check has to connect, and, by the reply check, for
    the identity of the account ([me()], once per fetched item); the
    files of the other features, the counter file and the credentials
    file are afterwards what they were, whether the check returns or
    raises. *)
Theorem checks_footprint r n flag w :
  (let w' := snd (checkRetweets r n w) in
   within w (update_events true false false false false) w'
   ∧ untouched true false false false (fs w) (fs w'))
  ∧ (let w' := snd (checkNewFollowers r n w) in
     within w (update_events false true false false false) w'
     ∧ untouched false true false false (fs w) (fs w'))
  ∧ (let w' := snd (checkReplies r n w) in
     within w (update_events false false true false false) w'
     ∧ untouched true false false false (fs w) (fs w'))
  ∧ (let w' := snd (checkFavorites r n w) in
     within w (update_events false false false true false) w'
     ∧ untouched false false true false (fs w) (fs w'))
  ∧ (let w' := snd (checkDirectMessages r n flag w) in
     within w (update_events false false false false true) w'
     ∧ untouched true false false false (fs w) (fs w')).
Proof.
  split; [split|split; [split|split; [split|split; split]]].
  - by apply only_run, only_checkRetweets.
  - apply (keeps_run (untouched true false false false (fs w)));
      [|apply untouched_refl].
    apply keeps_checkRetweets; [done|]. intros c f. apply untouched_latest.
  - by apply only_run, only_checkNewFollowers.
  - apply (keeps_run (untouched false true false false (fs w)));
      [|apply untouched_refl].
    apply keeps_checkNewFollowers; [done|]. intros c f. apply untouched_followers.
  - by apply only_run, only_checkReplies.
  - apply (keeps_run (untouched true false false false (fs w)));
      [|apply untouched_refl].
    apply keeps_checkReplies; [done|]. intros c f. apply untouched_latest.
  - by apply only_run, only_checkFavorites.
  - apply (keeps_run (untouched false false true false (fs w)));
      [|apply untouched_refl].
    apply keeps_checkFavorites; [done|]. intros c f. apply untouched_favorites.
  - by apply only_run, only_checkDirectMessages.
  - apply (keeps_run (untouched true false false false (fs w)));
      [|apply untouched_refl].
    apply keeps_checkDirectMessages; [done|]. intros c f. apply untouched_latest.
Qed.

(** ** The marker checks over two runs *)

(** Once connected, [ensure_connected] does nothing: a check that starts
    by connecting does what it does on the connected client. *)
Lemma ensure_connected_absorb {A} r (k : unit → M A) w wa :
  ensure_connected r w = (Ret tt, wa) →
  (ensure_connected r ≫= k) w = (ensure_connected r ≫= k) wa.
Proof.
  intros H. destruct (ensure_connected_ret r w wa H) as [Hapi _].
  unfold mbind, M_bind. by rewrite H, (ensure_connected_connected r wa Hapi).
Qed.

Lemma init_world_latest w : latest_ini (fs (init_world w)) = latest_ini (fs w).
Proof. by destruct (init_world_fs w) as [->| ->]. Qed.

(** The marker a check finds is the one stored. *)
Lemma load_latest_persisted sec w m :
  sec ≠ "DEFAULT" →
  persisted (latest_ini (fs w)) sec "LatestSeen" = Some (str m) →
  ∃ c, load_latest sec w = (Ret (Some (str m), c), init_world w).
Proof.
  intros Hsec H. pose proof (stored_persisted_str _ _ _ _ Hsec H) as Hread.
  unfold load_latest, mbind, M_bind. rewrite initState_eq.
  unfold get. rewrite init_world_latest. unfold persisted in H.
  unfold stored in Hread.
  destruct (latest_ini (fs w)) as [[|c]|]; try discriminate.
  exists c. unfold read_file, mret, M_ret, getitem. rewrite Hread.
  assert (has_section c sec = true) as ->; [|done].
  unfold has_section. destruct (c !! sec); [|discriminate].
  rewrite (bool_decide_eq_true_2 (is_Some _)) by eauto. apply orb_true_r.
Qed.

(** A check that returns leaves the client connected. *)
Lemma checkDirectMessages_connected r n flag w news w' :
  checkDirectMessages r n flag w = (Ret news, w') → api w' = true.
Proof.
  intros Hrun. unfold checkDirectMessages, try_log in Hrun.
  destruct (ensure_connected r w) as [[[]|e] wa] eqn:He.
  - rewrite (ensure_connected_absorb r _ w wa He) in Hrun.
    destruct (ensure_connected_ret r w wa He) as [Hapi _].
    pose proof (only_run (update_events false false false false true)
                  (checkDirectMessages r n flag) wa) as (_ & _ & Ha & _).
    { by apply only_checkDirectMessages. }
    unfold checkDirectMessages, try_log in Ha.
    destruct ((ensure_connected r ≫= _) wa) as [[a|e] w2]; [|done].
    injection Hrun as _ <-. by apply Ha.
  - unfold mbind, M_bind in Hrun. by rewrite He in Hrun.
Qed.

(** X13.  Two direct-message checks in a row against a remote that
    honours [since_id].  The first run fetches at least one message: it
    returns the fetched messages sorted by descending identifier and
    stores the largest identifier [m] as the marker, whatever the order
    of the feed.  The second run reads that marker; when the remote has
    nothing above [m] it returns no message and leaves latest.ini as it
    is. *)
Theorem checkDirectMessages_second_run_quiet
    r n flag w last config w1 l m candidates :
  (_ ← ensure_connected r; _ ← log INFO "Checking for new direct messages";
   load_latest "DirectMessages") w = (Ret (last, config), w1) →
  direct_messages r last = inr l →
  max_id (items n l) = Some m →
  direct_messages r (Some (str m)) = inr (filter (λ s, m < id s) candidates) →
  Forall (λ s, id s ≤ m) candidates →
  ∃ news w' w'',
    checkDirectMessages r n flag w = (Ret news, w')
    ∧ news ≡ₚ items n l
    ∧ StronglySorted before news
    ∧ is_max news m
    ∧ persisted (latest_ini (fs w')) "DirectMessages" "LatestSeen" = Some (str m)
    ∧ checkDirectMessages r n flag w' = (Ret [], w'')
    ∧ latest_ini (fs w'') = latest_ini (fs w').
Proof.
  intros Hpre Hl Hm Hl2 Hall.
  destruct (checkDirectMessages_new_items r n flag w last config w1 l Hpre Hl)
    as (w' & t & Hrun & Hsorted & Hperm & _ & _ & Hfile).
  destruct (items n l) as [|x xs] eqn:Hitems; [discriminate|].
  rewrite Hm in Hfile. cbn in Hfile.
  pose proof (checkDirectMessages_connected _ _ _ _ _ _ Hrun) as Hapi.
  destruct (load_latest_persisted "DirectMessages"
              (record (Log INFO "Checking for new direct messages") w')
              m ltac:(done) Hfile) as (c & Hload).
  assert (Hpre2 :
    (_ ← ensure_connected r; _ ← log INFO "Checking for new direct messages";
     load_latest "DirectMessages") w'
    = (Ret (Some (str m), c),
       init_world (record (Log INFO "Checking for new direct messages") w'))).
  { unfold mbind, M_bind. rewrite (ensure_connected_connected r w' Hapi).
    unfold log, emit. exact Hload. }
  destruct (checkDirectMessages_up_to_date r n flag w' (str m) m c _ candidates
              Hpre2 (py_int_str m) Hl2 Hall) as (w'' & Hrun2 & Hfile2).
  exists (sort_reverse (x :: xs)), w', w''.
  split; [exact Hrun|]. split; [exact Hperm|]. split; [exact Hsorted|].
  split.
  { apply max_id_is_max in Hm. destruct Hm as [Hin Hle]. split.
    - destruct Hin as (y & Hy & Hid). exists y. by rewrite Hperm.
    - intros y Hy. apply Hle. by rewrite <- Hperm. }
  split; [exact Hfile|]. split; [exact Hrun2|].
  by rewrite Hfile2, init_world_latest.
Qed.

Lemma hooks_hooks_and_writes t : hooks t = hooks (hooks_and_writes t).
Proof. induction t as [|[] t IH]; cbn; try done. all: by f_equal. Qed.

(** X14.  The reply check asks the remote who the account is once for
    every fetched item of the home timeline.  When each of these
    requests is answered with the identifier [own], the check reports
    exactly the fetched items that answer the account itself
    ([in_reply_to_user_id] is [own]), sorted by descending identifier;
    it calls [handleReply] on them and on nothing else, in that order;
    and the marker it stores is the largest identifier among the
    replies, not among all fetched items.  Without a reply among the
    fetched items nothing is written, no hook is called and the marker
    stays. *)
Theorem checkReplies_reports_replies_only r n w last config w1 l own :
  (_ ← ensure_connected r; _ ← log INFO "Checking for new replies";
   load_latest "Replies") w = (Ret (last, config), w1) →
  home_timeline r last = inr l →
  (∀ i, (i < length (items n l))%nat → me r i = inr own) →
  ∃ news w' t,
    checkReplies r n w = (Ret news, w')
    ∧ (∀ x, x ∈ news ↔ x ∈ items n l ∧ in_reply_to_user_id x = Some own)
    ∧ StronglySorted before news
    ∧ trace w'
      = trace w1 ++ Call (c_home_timeline last)
        :: replicate (length (items n l)) (Call c_me) ++ t
    ∧ hooks t = handleReply <$> news
    ∧ match max_id news with
      | Some m =>
          is_max news m
          ∧ persisted (latest_ini (fs w')) "Replies" "LatestSeen" = Some (str m)
      | None =>
          hooks_and_writes t = []
          ∧ persisted (latest_ini (fs w')) "Replies" "LatestSeen"
            = persisted (latest_ini (fs w1)) "Replies" "LatestSeen"
      end.
Proof.
  intros Hpre Hl Hme.
  destruct (checkReplies_new_items r n w last config w1 l own Hpre Hl Hme)
    as (w' & t & Hrun & Hsorted & Hperm & Htr & Hhw & Hfile).
  set (replies := filter (λ msg, in_reply_to_user_id msg = Some own) (items n l))
    in *.
  exists (sort_reverse replies), w', t.
  split; [exact Hrun|]. split.
  { intros x. rewrite Hperm. unfold replies. rewrite list_elem_of_filter. tauto. }
  split; [exact Hsorted|]. split; [exact Htr|].
  assert (Hhooks : hooks t = handleReply <$> sort_reverse replies).
  { rewrite hooks_hooks_and_writes, Hhw. destruct replies as [|x xs] eqn:E; [done|].
    rewrite <- E.
    change (hooks (WriteFile F_latest :: ?l)) with (hooks l).
    by apply hooks_fmap. }
  split; [exact Hhooks|].
  clearbody replies. destruct replies as [|x xs]; [done|].
  destruct (sort_reverse (x :: xs)) as [|first rest] eqn:Hs.
  { apply Permutation_nil in Hperm. discriminate. }
  rewrite <- Hs in *. clear Hs first rest.
  destruct (max_id (sort_reverse (x :: xs))) as [m|] eqn:Hm.
  - split; [by apply max_id_is_max|]. rewrite Hfile.
    destruct (max_id (x :: xs)) as [m'|] eqn:Hm'; [|discriminate].
    apply max_id_is_max in Hm, Hm'. cbn. do 2 f_equal.
    apply (is_max_unique (x :: xs)); [done|].
    destruct Hm as [(y & Hy & Hid) Hle]. split.
    + exists y. by rewrite <- Hperm.
    + intros z Hz. apply Hle. by rewrite Hperm.
  - destruct (sort_reverse (x :: xs)) eqn:Hs; [|discriminate].
    apply Permutation_nil in Hperm. discriminate.
Qed.

Lemma max_id_descending x xs :
  StronglySorted before (x :: xs) → max_id (x :: xs) = Some (id x).
Proof.
  intros H. apply StronglySorted_inv in H as [_ Hall]. cbn. f_equal.
  induction Hall as [|y ys Hy _ IH]; [done|]. cbn. unfold before in Hy. lia.
Qed.

(** X15.  When the retweet feed arrives newest first (identifiers never
    increasing), the marker that [checkRetweets] stores, the identifier of
    the first item, is the largest identifier fetched; the items are
    returned and passed to [handleRetweet] in that order. *)
Theorem checkRetweets_descending_feed r n w last config w1 l :
  (_ ← ensure_connected r; _ ← log INFO "Checking for new retweets";
   load_latest "Retweets") w = (Ret (last, config), w1) →
  retweets_of_me r last = inr l →
  StronglySorted before (items n l) →
  ∃ w' t,
    checkRetweets r n w = (Ret (items n l), w')
    ∧ trace w' = trace w1 ++ Call (c_retweets_of_me last) :: t
    ∧ hooks t = handleRetweet <$> items n l
    ∧ match max_id (items n l) with
      | Some m =>
          is_max (items n l) m
          ∧ persisted (latest_ini (fs w')) "Retweets" "LatestSeen" = Some (str m)
      | None =>
          hooks_and_writes t = []
          ∧ persisted (latest_ini (fs w')) "Retweets" "LatestSeen"
            = persisted (latest_ini (fs w1)) "Retweets" "LatestSeen"
      end.
Proof.
  intros Hpre Hl Hsorted.
  destruct (checkRetweets_new_items r n w last config w1 l Hpre Hl)
    as (w' & t & Hrun & Htr & Hhw & Hfile).
  exists w', t. split; [exact Hrun|]. split; [exact Htr|]. split.
  { rewrite hooks_hooks_and_writes, Hhw.
    destruct (items n l) as [|x xs] eqn:E; [done|].
    change (hooks (WriteFile F_latest :: ?l)) with (hooks l).
    by apply hooks_fmap. }
  destruct (items n l) as [|x xs]; [done|].
  rewrite (max_id_descending x xs Hsorted).
  split; [|exact Hfile]. apply max_id_is_max. by apply max_id_descending.
Qed.

Lemma checkDirectMessages_second_run_quiet_witness :
  let inbox := [Fixtures.post 5 0; Fixtures.post 9 0; Fixtures.post 3 0] in
  let r := Scenes.inbox_since inbox in
  let w := Fixtures.connected Fixtures.no_files in
  ∃ news w' w'',
    checkDirectMessages r 50 false w = (Ret news, w')
    ∧ news ≡ₚ items 50 inbox
    ∧ StronglySorted before news
    ∧ is_max news 9
    ∧ persisted (latest_ini (fs w')) "DirectMessages" "LatestSeen" = Some (str 9)
    ∧ checkDirectMessages r 50 false w' = (Ret [], w'')
    ∧ latest_ini (fs w'') = latest_ini (fs w').
Proof.
  intros inbox r w.
  apply (checkDirectMessages_second_run_quiet r 50 false w None ∅
           (snd ((_ ← ensure_connected r;
                  _ ← log INFO "Checking for new direct messages";
                  load_latest "DirectMessages") w))
           inbox 9 inbox).
  - reflexivity.
  - reflexivity.
  - reflexivity.
  - reflexivity.
  - repeat constructor; vm_compute; discriminate.
Defined.

Lemma checkReplies_reports_replies_only_witness :
  let timeline := [Fixtures.reply 5; Fixtures.post 6 0; Fixtures.reply 9] in
  let r := Fixtures.feeds [] [] timeline [] [] in
  let w := Fixtures.connected Fixtures.no_files in
  let w1 := snd ((_ ← ensure_connected r;
                  _ ← log INFO "Checking for new replies";
                  load_latest "Replies") w) in
  ∃ news w' t,
    checkReplies r 100 w = (Ret news, w')
    ∧ (∀ x, x ∈ news ↔ x ∈ items 100 timeline ∧ in_reply_to_user_id x = Some 1)
    ∧ StronglySorted before news
    ∧ trace w'
      = trace w1 ++ Call (c_home_timeline None)
        :: replicate (length (items 100 timeline)) (Call c_me) ++ t
    ∧ hooks t = handleReply <$> news
    ∧ match max_id news with
      | Some m =>
          is_max news m
          ∧ persisted (latest_ini (fs w')) "Replies" "LatestSeen" = Some (str m)
      | None =>
          hooks_and_writes t = []
          ∧ persisted (latest_ini (fs w')) "Replies" "LatestSeen"
            = persisted (latest_ini (fs w1)) "Replies" "LatestSeen"
      end.
Proof.
  intros timeline r w w1.
  apply (checkReplies_reports_replies_only r 100 w None ∅ w1 timeline 1);
    reflexivity.
Defined.

Lemma checkRetweets_descending_feed_witness :
  let feed := [Fixtures.post 9 0; Fixtures.post 5 0; Fixtures.post 3 0] in
  let r := Fixtures.feeds [] feed [] [] [] in
  let w := Fixtures.connected Fixtures.no_files in
  let w1 := snd ((_ ← ensure_connected r;
                  _ ← log INFO "Checking for new retweets";
                  load_latest "Retweets") w) in
  ∃ w' t,
    checkRetweets r 50 w = (Ret (items 50 feed), w')
    ∧ trace w' = trace w1 ++ Call (c_retweets_of_me None) :: t
    ∧ hooks t = handleRetweet <$> items 50 feed
    ∧ match max_id (items 50 feed) with
      | Some m =>
          is_max (items 50 feed) m
          ∧ persisted (latest_ini (fs w')) "Retweets" "LatestSeen" = Some (str m)
      | None =>
          hooks_and_writes t = []
          ∧ persisted (latest_ini (fs w')) "Retweets" "LatestSeen"
            = persisted (latest_ini (fs w1)) "Retweets" "LatestSeen"
      end.
Proof.
  intros feed r w w1.
  apply (checkRetweets_descending_feed r 50 w None ∅ w1 feed).
  - reflexivity.
  - reflexivity.
  - repeat constructor; vm_compute; discriminate.
Defined.

(** ** New followers *)

Lemma hooks_none t : forallb no_hook (outward t) = true → hooks t = [].
Proof.
  induction t as [|e t IH]; [done|]. destruct e; cbn; try done.
  all: intros [_ H]%andb_prop; by apply IH.
Qed.

(** What the follower loop adds: the first occurrence of every fetched
    follower whose identifier is not known, in the order of the feed. *)
Lemma scan_followers_novel fetched : ∀ news known,
  ∃ added,
    scan_followers fetched news known
    = (news ++ added, known ++ ((λ f, str (user_id f)) <$> added))
    ∧ added `sublist_of` fetched
    ∧ NoDup ((λ f, str (user_id f)) <$> added)
    ∧ (∀ f, f ∈ added → str (user_id f) ∉ known)
    ∧ (∀ f, f ∈ fetched →
         str (user_id f) ∈ known ∨ ∃ g, g ∈ added ∧ user_id g = user_id f).
Proof.
  induction fetched as [|f fetched IH]; intros news known.
  - exists []. simpl. rewrite !app_nil_r. split; [done|].
    split; [constructor|]. split; [constructor|].
    split; by intros g ?%elem_of_nil.
  - simpl. case_bool_decide as Hin.
    + destruct (IH news known) as (added & -> & Hsub & Hnd & Hnew & Hall).
      exists added. split; [done|]. split; [by constructor|].
      split; [done|]. split; [done|].
      intros g [->|Hg]%elem_of_cons; [by left|by apply Hall].
    + destruct (IH (news ++ [f]) (known ++ [str (user_id f)]))
        as (added & -> & Hsub & Hnd & Hnew & Hall).
      exists (f :: added). simpl. rewrite <- !app_assoc. simpl.
      split; [done|]. split; [by constructor|]. split.
      { constructor; [|done]. intros (g & Hid & Hg)%list_elem_of_fmap.
        apply (Hnew g Hg). rewrite <- Hid. apply elem_of_app. right. by left. }
      split.
      { intros g [->|Hg]%elem_of_cons; [done|].
        intros Hk. apply (Hnew g Hg). apply elem_of_app. by left. }
      intros g [->|Hg]%elem_of_cons.
      * right. exists f. split; [by left|done].
      * destruct (Hall g Hg) as [[Hk|Hk%list_elem_of_singleton]%elem_of_app
                                |(h & Hh & Hid)].
        -- by left.
        -- right. exists f. split; [by left|]. by apply str_inj.
        -- right. exists h. split; [by right|done].
Qed.

Lemma checkNewFollowers_hooks r n w news w1 :
  checkNewFollowers r n w = (Ret news, w1) →
  hooks (trace w1) = hooks (trace w) ++ (handleNewFollower <$> news).
Proof.
  unfold checkNewFollowers, try_log. intros Hrun.
  destruct (ensure_connected r w) as [[[]|e] wa] eqn:He;
    [|by unfold mbind, M_bind in Hrun; rewrite He in Hrun].
  rewrite (ensure_connected_absorb r _ w wa He) in Hrun.
  destruct (ensure_connected_ret r w wa He) as [Hapi _].
  pose proof (only_run no_hook (ensure_connected r) w
                (only_ensure_connected _ _ eq_refl)) as (_ & _ & _ & t0 & Ht0 & Hnone).
  rewrite He in Ht0. cbn [snd] in Ht0.
  apply hooks_none in Hnone.
  assert (hooks (trace wa) = hooks (trace w)) as <-.
  { by rewrite Ht0, hooks_app, Hnone, app_nil_r. }
  revert Hrun. unfold mbind, M_bind.
  rewrite (ensure_connected_connected r wa Hapi).
  unfold log at 1, emit at 1. rewrite load_followers_eq.
  rewrite cursor_eq.
  destruct (yielded n (followers r)) as [l [e|]]; [done|].
  destruct (init_world_trace (record (Log INFO "Checking for new followers") wa))
    as (ti & Hti & Hi).
  assert (hooks ti = []) as Hhi.
  { by rewrite hooks_hooks_and_writes, Hi. }
  destruct (scan_followers _ _ _) as [nf kf].
  destruct nf as [|f nf].
  - simpl. intros [= <- <-]. cbn [trace record].
    rewrite Hti. cbn [trace record]. rewrite !hooks_app, Hhi. simpl. by rewrite !app_nil_r.
  - unfold log at 1, emit at 1. cbv beta iota.
    unfold write, mbind, M_bind, get, set_fs. unfold emit at 1. cbv beta iota.
    rewrite for_each_emit. cbv beta iota. unfold mret, M_ret.
    intros [= <- <-]. cbn [trace record put_fs].
    rewrite Hti. cbn [trace record].
    rewrite !hooks_app, Hhi.
    pose proof (hooks_fmap (λ x, Hook (handleNewFollower x)) handleNewFollower
                  (f :: nf) (λ _, eq_refl)) as Hh.
    simpl in Hh |- *. by rewrite !app_nil_r, Hh.
Qed.

(** X16.  What a run of [checkNewFollowers] that returns has reported:
    the iterator over the follower feed has ended without error, and the
    reported followers are taken from the fetched ones in the order of
    the feed, each with an identifier that was not in followers.txt, no
    identifier twice; every fetched follower is either known already or
    reported (under its identifier); [handleNewFollower] is called on
    the reported followers, in order, and on nothing else; and
    followers.txt is rewritten with the known identifiers followed by the
    new ones exactly when there is a new one. *)
Theorem checkNewFollowers_reports_unknown_once r n w news w1 :
  checkNewFollowers r n w = (Ret news, w1) →
  let known := known_followers (followers_txt (fs w)) in
  ∃ fetched,
    yielded n (followers r) = (fetched, None)
    ∧ news `sublist_of` fetched
    ∧ NoDup (user_id <$> news)
    ∧ (∀ f, f ∈ news → str (user_id f) ∉ known)
    ∧ (∀ f, f ∈ fetched →
         str (user_id f) ∈ known ∨ ∃ g, g ∈ news ∧ user_id g = user_id f)
    ∧ hooks (trace w1) = hooks (trace w) ++ (handleNewFollower <$> news)
    ∧ followers_txt (fs w1)
      = match news with
        | [] => followers_txt (fs w)
        | _ :: _ => Some (known ++ ((λ f, str (user_id f)) <$> news))
        end.
Proof.
  intros Hrun known.
  destruct (checkNewFollowers_ret _ _ _ _ _ Hrun)
    as (l & known1 & Hl & _ & Hscan & Hfile).
  destruct (scan_followers_novel l [] known)
    as (added & Hspec & Hsub & Hnd & Hnew & Hall).
  fold known in Hscan. rewrite Hscan in Hspec. cbn [app] in Hspec.
  injection Hspec as -> ->.
  exists l. split; [exact Hl|]. split; [exact Hsub|]. split.
  { apply (NoDup_fmap_1 str). by rewrite <- list_fmap_compose. }
  split; [exact Hnew|]. split; [exact Hall|].
  split; [by apply (checkNewFollowers_hooks r n)|exact Hfile].
Qed.

Lemma checkNewFollowers_reports_unknown_once_witness :
  let r := Fixtures.feeds [] [] [] []
             [Fixtures.follower 11; Fixtures.follower 12; Fixtures.follower 11] in
  let w := Fixtures.connected (with_followers [" 12 "; "7"] Fixtures.no_files) in
  let news := [Fixtures.follower 11] in
  let w1 := snd (checkNewFollowers r 50 w) in
  let known := known_followers (followers_txt (fs w)) in
  ∃ fetched,
    yielded 50 (followers r) = (fetched, None)
    ∧ news `sublist_of` fetched
    ∧ NoDup (user_id <$> news)
    ∧ (∀ f, f ∈ news → str (user_id f) ∉ known)
    ∧ (∀ f, f ∈ fetched →
         str (user_id f) ∈ known ∨ ∃ g, g ∈ news ∧ user_id g = user_id f)
    ∧ hooks (trace w1) = hooks (trace w) ++ (handleNewFollower <$> news)
    ∧ followers_txt (fs w1)
      = match news with
        | [] => followers_txt (fs w)
        | _ :: _ => Some (known ++ ((λ f, str (user_id f)) <$> news))
        end.
Proof.
  intros r w news w1.
  apply (checkNewFollowers_reports_unknown_once r 50 w news w1).
  reflexivity.
Defined.

(** ** The favorites ledger over two runs *)

(** The favorites loop changes the ledger only under the identifiers of
    the posts it reports. *)
Lemma scan_favorites_touches_added fetched : ∀ c news w c' news' w',
  scan_favorites fetched c news w = (Ret (c', news'), w') →
  ∃ added,
    news' = news ++ added
    ∧ ∀ key, (∀ msg k, (msg, k) ∈ added → key ≠ str (id msg)) →
             c' !! key = c !! key.
Proof.
  induction fetched as [|m rest IH]; intros c news w c' news' w' Hrun.
  - injection Hrun as <- <- <-. exists []. by rewrite app_nil_r.
  - cbn [scan_favorites] in Hrun.
    destruct (0 <? favorite_count m); [|by eapply IH].
    unfold mbind at 1, M_bind at 1 in Hrun.
    match type of Hrun with
    | (let (_, _) := ?x in _) = _ => destruct x as [[known|e] w0]; [|done]
    end.
    destruct (differs (str (favorite_count m)) known); [|by eapply IH].
    apply IH in Hrun as (added & -> & Hkeys).
    exists ((m, known) :: added). split; [by rewrite <- app_assoc|].
    intros key Hkey. rewrite Hkeys.
    + unfold setitem. rewrite lookup_insert_ne; [done|].
      symmetry. apply (Hkey m known). by left.
    + intros msg k Hin. apply (Hkey msg k). by right.
Qed.

(** After the loop every fetched post with a positive count is recorded
    with that count, and the ledger is still complete. *)
Lemma scan_favorites_settled fetched c w :
  NoDup (id <$> fetched) → ledger_ok c fetched →
  ∃ c' added,
    scan_favorites fetched c [] w = (Ret (c', added), w)
    ∧ ledger_ok c' fetched
    ∧ (∀ msg, msg ∈ fetched → 0 < favorite_count msg →
              recorded c' msg = Some (str (favorite_count msg)))
    ∧ (added = [] → c' = c).
Proof.
  intros Hnd Hc.
  destruct (scan_favorites_spec fetched c [] w Hnd Hc)
    as (c' & added & Hrun & Hiff & Hnew & _).
  cbn [app] in Hrun.
  destruct (scan_favorites_touches_added _ _ _ _ _ _ _ Hrun)
    as (added' & [= <-] & Hkeys).
  exists c', added. split; [exact Hrun|].
  assert (Hsame : ∀ msg, msg ∈ fetched → (∀ k, (msg, k) ∉ added) →
                         c' !! str (id msg) = c !! str (id msg)).
  { intros msg Hin Hno. apply Hkeys. intros m' k' Hadded E%str_inj.
    assert (m' ∈ fetched) as Hin' by (by apply Hiff in Hadded as [? _]).
    assert (msg = m') as ->; [|by apply (Hno k')].
    apply (NoDup_fmap_1 id) in Hnd as Hnd'.
    apply list_elem_of_lookup in Hin as [i Hi].
    apply list_elem_of_lookup in Hin' as [j Hj].
    assert (i = j) as ->; [|congruence].
    eapply NoDup_lookup; [exact Hnd| |];
      rewrite list_lookup_fmap; [by rewrite Hi|rewrite Hj; cbn; by rewrite E]. }
  assert (Hdec : ∀ msg, msg ∈ fetched →
                        (msg, known c msg) ∈ added ∨ ∀ k, (msg, k) ∉ added).
  { intros msg Hin.
    destruct (decide (0 < favorite_count msg)) as [Hpos|Hpos];
      [|right; intros k (_ & ? & _)%Hiff; lia].
    destruct (decide (recorded c msg = Some (str (favorite_count msg))))
      as [E|Hne]; [right; by intros k (_ & _ & ? & _)%Hiff|].
    left. by apply Hiff. }
  assert (Hdefault : c' !! "DEFAULT" = c !! "DEFAULT").
  { apply Hkeys. intros m' k' _ E. by apply (str_not_default (id m')). }
  assert (Hread : ∀ msg, msg ∈ fetched → (∀ k, (msg, k) ∉ added) →
            recorded c' msg = recorded c msg
            ∧ has_section c' (str (id msg)) = has_section c (str (id msg))).
  { intros msg Hin Hno.
    destruct (lookup_agree c c' (str (id msg)) "favorites"
                (Hsame msg Hin Hno) Hdefault) as [Hl Hs].
    unfold recorded. by rewrite Hl. }
  split; [|split].
  - intros msg Hin Hsec. destruct (Hdec msg Hin) as [Hadded|Hno].
    + by rewrite (recorded_fresh _ _ (Hnew _ _ Hadded)).
    + destruct (Hread msg Hin Hno) as [-> Hs]. rewrite Hs in Hsec.
      by apply Hc.
  - intros msg Hin Hpos. destruct (Hdec msg Hin) as [Hadded|Hno].
    + by apply recorded_fresh, (Hnew _ _ Hadded).
    + destruct (Hread msg Hin Hno) as [-> _].
      destruct (decide (recorded c msg = Some (str (favorite_count msg))))
        as [E|Hne]; [exact E|].
      destruct (Hno (known c msg)). by apply Hiff.
  - intros ->. apply map_eq. intros key. apply Hkeys.
    by intros msg k ?%elem_of_nil.
Qed.

Lemma init_world_favorites w :
  favorites_ini (fs (init_world w)) = favorites_ini (fs w).
Proof. by destruct (init_world_fs w) as [->| ->]. Qed.

Lemma load_favorites_ledger w c :
  ledger_of (favorites_ini (fs w)) = Some c →
  load_favorites w = (Ret c, init_world w).
Proof.
  intros H. unfold load_favorites, mbind, M_bind. rewrite initState_eq.
  unfold get. rewrite init_world_favorites.
  by destruct (favorites_ini (fs w)) as [[|c0]|]; simplify_eq/=.
Qed.

Lemma load_favorites_inv w c w1 :
  load_favorites w = (Ret c, w1) →
  w1 = init_world w ∧ ledger_of (favorites_ini (fs w)) = Some c.
Proof.
  unfold load_favorites, mbind, M_bind. rewrite initState_eq.
  unfold get. rewrite init_world_favorites.
  destruct (favorites_ini (fs w)) as [[|c0]|]; cbn; [done|..];
    by intros [= <- <-].
Qed.

(** What the favorites check does once its loop has run. *)
Lemma checkFavorites_run r n w c w1 timeline c' news :
  (_ ← ensure_connected r;
   _ ← log INFO "Checking for new favorites";
   load_favorites) w = (Ret c, w1) →
  user_timeline r = inr timeline →
  scan_favorites (items n timeline) c [] (record (Call c_user_timeline) w1)
  = (Ret (c', news), record (Call c_user_timeline) w1) →
  ∃ w' t,
    checkFavorites r n w = (Ret news, w')
    ∧ api w' = api w1
    ∧ trace w' = trace w1 ++ t
    ∧ hooks_and_writes t
      = match news with
        | [] => []
        | _ :: _ =>
            WriteFile F_favorites
            :: ((λ nf, Hook (handleFavorite nf.1 nf.2)) <$> news)
        end
    ∧ favorites_ini (fs w')
      = match news with
        | [] => favorites_ini (fs w1)
        | _ :: _ => Some (Ini c')
        end.
Proof.
  intros Hpre Htl Hscan.
  apply prelude_inv in Hpre as (wa & He & Hl).
  unfold checkFavorites, try_log, mbind, M_bind.
  rewrite He. unfold log at 1, emit at 1. rewrite Hl.
  unfold cursor_some, mbind, M_bind. unfold emit at 1. rewrite Htl.
  unfold mret at 1, M_ret at 1. rewrite yielded_all, Hscan.
  unfold raise_pending. unfold mret at 1, M_ret at 1.
  destruct news as [|nf news].
  - simpl. eexists _, [_; _]. split; [reflexivity|]. simpl.
    by rewrite <- app_assoc.
  - unfold log at 1, emit at 1. cbv beta iota.
    unfold write, mbind, M_bind, get, set_fs. unfold emit at 1. cbv beta iota.
    rewrite for_each_emit. cbv beta iota. unfold mret, M_ret.
    eexists _, (_ :: _ :: _ :: _). split; [reflexivity|].
    cbn [trace record put_fs api fs with_favorites favorites_ini].
    split; [done|]. rewrite <- !app_assoc. split; [reflexivity|].
    split; [|done]. cbn [app hooks_and_writes List.filter].
    f_equal. apply (hooks_and_writes_hooks (λ nf, handleFavorite nf.1 nf.2)).
Qed.

(** X17.  Two favorites checks in a row with the same timeline (distinct
    identifiers, and a ledger in which every entry of a fetched post
    gives a count: the option [favorites] is there, of its own or from
    DEFAULT, and can be interpolated).  The first run returns; the
    second run then reports nothing, calls no hook, writes nothing and
    leaves favorites.ini as the first run left it; and from that file
    every fetched post with a positive count reads back with that
    count. *)
Theorem checkFavorites_second_run_quiet r n w c w1 timeline :
  (_ ← ensure_connected r;
   _ ← log INFO "Checking for new favorites";
   load_favorites) w = (Ret c, w1) →
  user_timeline r = inr timeline →
  NoDup (id <$> items n timeline) →
  ledger_complete c (items n timeline) = true →
  ∃ news w' w'' t,
    checkFavorites r n w = (Ret news, w')
    ∧ checkFavorites r n w' = (Ret [], w'')
    ∧ favorites_ini (fs w'') = favorites_ini (fs w')
    ∧ trace w'' = trace w' ++ t
    ∧ hooks_and_writes t = []
    ∧ ∀ msg, msg ∈ items n timeline → 0 < favorite_count msg →
        stored (favorites_ini (fs w'')) (str (id msg)) "favorites"
        = inr (str (favorite_count msg)).
Proof.
  intros Hpre Htl Hnd Hc%ledger_complete_ok.
  set (fetched := items n timeline) in *.
  destruct (scan_favorites_settled fetched c (record (Call c_user_timeline) w1)
              Hnd Hc) as (c' & news & Hscan & Hc' & Hsettled & Hsame).
  destruct (checkFavorites_run r n w c w1 timeline c' news Hpre Htl Hscan)
    as (w' & t1 & Hrun & Hapi & _ & _ & Hfile).
  (* the second run reads the ledger the first one left *)
  pose proof Hpre as Hpre0.
  apply prelude_inv in Hpre0 as (wa & He & Hl).
  destruct (ensure_connected_ret r w wa He) as [Hapia _].
  apply load_favorites_inv in Hl as [-> Hledger].
  rewrite init_world_api in Hapi. cbn [api record] in Hapi.
  rewrite init_world_favorites in Hfile. cbn [fs record] in Hfile, Hledger.
  assert (Hledger' : ledger_of (favorites_ini (fs w')) = Some c').
  { rewrite Hfile. destruct news; [|done]. by rewrite Hsame. }
  assert (Hpre2 :
    (_ ← ensure_connected r;
     _ ← log INFO "Checking for new favorites";
     load_favorites) w'
    = (Ret c', init_world (record (Log INFO "Checking for new favorites") w'))).
  { unfold mbind, M_bind. rewrite (ensure_connected_connected r w')
      by (by rewrite Hapi).
    unfold log, emit. by apply load_favorites_ledger. }
  set (w1' := init_world (record (Log INFO "Checking for new favorites") w')) in *.
  destruct (scan_favorites_spec fetched c' [] (record (Call c_user_timeline) w1')
              Hnd Hc') as (c'' & added & Hscan2 & Hiff & _ & _).
  assert (added = []) as ->.
  { destruct added as [|[msg k] added]; [done|].
    destruct (Hiff msg k) as [H _].
    destruct H as (Hin & Hpos & Hne & _); [by left|].
    destruct Hne. by apply Hsettled. }
  cbn [app] in Hscan2.
  assert (c'' = c') as ->.
  { destruct (scan_favorites_touches_added _ _ _ _ _ _ _ Hscan2)
      as (added & Hadd & Hkeys).
    destruct added; [|discriminate].
    apply map_eq. intros key. apply Hkeys. by intros msg k ?%elem_of_nil. }
  destruct (checkFavorites_run r n w' c' w1' timeline c' [] Hpre2 Htl Hscan2)
    as (w'' & t2 & Hrun2 & _ & Htr2 & Hhw2 & Hfile2).
  destruct (init_world_trace (record (Log INFO "Checking for new favorites") w'))
    as (ti & Hti & Hi).
  exists news, w', w'', ([Log INFO "Checking for new favorites"] ++ ti ++ t2).
  split; [exact Hrun|]. split; [exact Hrun2|].
  assert (Hfiles : favorites_ini (fs w'') = favorites_ini (fs w')).
  { rewrite Hfile2. unfold w1'. by rewrite init_world_favorites. }
  split; [exact Hfiles|]. split.
  { rewrite Htr2. unfold w1'. rewrite Hti. cbn [trace record].
    by rewrite <- !app_assoc. }
  split.
  { unfold hooks_and_writes in *. rewrite !List.filter_app, Hi, Hhw2. done. }
  intros msg Hin Hpos. rewrite Hfiles.
  specialize (Hsettled msg Hin Hpos). unfold recorded in Hsettled.
  unfold stored. unfold ledger_of in Hledger'.
  destruct (favorites_ini (fs w')) as [[|c0]|]; [discriminate| |].
  - injection Hledger' as ->.
    destruct (lookup c' (str (id msg)) "favorites"); [done|].
    by injection Hsettled as ->.
  - injection Hledger' as <-. unfold lookup in Hsettled.
    rewrite options_own in Hsettled by apply str_not_default.
    by rewrite lookup_empty in Hsettled.
Qed.

Lemma checkFavorites_second_run_quiet_witness :
  let ledger : ConfigParser :=
    {[ "7" := {[ "favorites" := "3" ]}; "8" := {[ "favorites" := "3" ]} ]} in
  let timeline := [Fixtures.post 7 3; Fixtures.post 8 5; Fixtures.post 9 2] in
  let r := Fixtures.feeds [] [] [] timeline [] in
  let w := Fixtures.connected (with_favorites ledger Fixtures.no_files) in
  ∃ news w' w'' t,
    checkFavorites r 50 w = (Ret news, w')
    ∧ checkFavorites r 50 w' = (Ret [], w'')
    ∧ favorites_ini (fs w'') = favorites_ini (fs w')
    ∧ trace w'' = trace w' ++ t
    ∧ hooks_and_writes t = []
    ∧ ∀ msg, msg ∈ items 50 timeline → 0 < favorite_count msg →
        stored (favorites_ini (fs w'')) (str (id msg)) "favorites"
        = inr (str (favorite_count msg)).
Proof.
  intros ledger timeline r w.
  apply (checkFavorites_second_run_quiet r 50 w ledger
           (snd ((_ ← ensure_connected r;
                  _ ← log INFO "Checking for new favorites";
                  load_favorites) w)) timeline).
  - reflexivity.
  - reflexivity.
  - apply (bool_decide_unpack _). vm_compute. exact I.
  - reflexivity.
Defined.

(** *** The ledger keeps its entries *)

Section LedgerKeeps.
Context (key : string).

Lemma load_favorites_has_key :
  triple (λ w, has_entry key (fs w)) load_favorites
    (λ c w, is_Some (c !! key) ∧ has_entry key (fs w)) (λ _ w, has_entry key (fs w)).
Proof.
  intros w Hw. unfold load_favorites, mbind, M_bind. rewrite initState_eq.
  unfold get. unfold has_entry in *. rewrite init_world_favorites.
  destruct (favorites_ini (fs w)) as [[|c]|] eqn:E; cbn.
  - by rewrite init_world_favorites, E.
  - rewrite init_world_favorites, E. by split.
  - by destruct Hw.
Qed.

Lemma scan_favorites_has_key fetched : ∀ c news,
  is_Some (c !! key) →
  triple (λ w, has_entry key (fs w)) (scan_favorites fetched c news)
    (λ r w, is_Some (r.1 !! key) ∧ has_entry key (fs w)) (λ _ w, has_entry key (fs w)).
Proof.
  induction fetched as [|m rest IH]; intros c news Hc.
  - by apply triple_ret.
  - cbn [scan_favorites]. destruct (0 <? favorite_count m); [|by apply IH].
    eapply triple_bind with (R := λ _ w, has_entry key (fs w)).
    + destruct (has_section c (str (id m))).
      * eapply triple_bind; [apply keeps_getitem|]. intros v. apply keeps_ret.
      * apply keeps_ret.
    + intros known. destruct (differs _ known); [|by apply IH].
      apply IH. unfold setitem.
      destruct (decide (str (id m) = key)) as [->|Hne].
      * by rewrite lookup_insert_eq.
      * by rewrite lookup_insert_ne.
Qed.

Lemma checkFavorites_has_key r n :
  keeps (has_entry key) (checkFavorites r n).
Proof.
  unfold checkFavorites. apply keeps_try_log.
  apply keeps_bind; [apply keeps_ensure_connected|]. intros _.
  apply keeps_bind; [apply keeps_log|]. intros _.
  eapply triple_bind; [apply load_favorites_has_key|]. intros c.
  apply triple_pure. intros Hc.
  apply keeps_bind; [apply keeps_cursor_some|]. intros [fetched pending].
  eapply triple_bind; [by apply scan_favorites_has_key|]. intros [c' news].
  apply triple_pure. cbn [fst]. intros Hc'.
  apply keeps_bind; [apply keeps_raise_pending|]. intros _.
  apply keeps_bind.
  { destruct news; [apply keeps_log|].
    apply keeps_bind; [apply keeps_log|]. intros _.
    apply keeps_write. intros f _. exact Hc'. }
  intros _. apply keeps_bind; [|intros _; apply keeps_ret].
  apply keeps_for_each. intros x. apply keeps_emit.
Qed.

End LedgerKeeps.

(** X18.  The ledger never loses an entry: a section that favorites.ini
    has before a run of [checkFavorites] is in it after the run, whether
    the run returns or raises and whatever the remote reports. *)
Theorem checkFavorites_never_forgets r n w key :
  has_entry key (fs w) → has_entry key (fs (snd (checkFavorites r n w))).
Proof.
  intros H. by apply (keeps_run _ _ w (checkFavorites_has_key key r n)).
Qed.

Lemma checkFavorites_never_forgets_witness :
  let ledger : ConfigParser :=
    {[ "7" := {[ "favorites" := "3" ]}; "8" := {[ "favorites" := "3" ]} ]} in
  let timeline := [Fixtures.post 8 5; Fixtures.post 9 2] in
  let r := Fixtures.feeds [] [] [] timeline [] in
  let w := Fixtures.connected (with_favorites ledger Fixtures.no_files) in
  has_entry "7" (fs (snd (checkFavorites r 50 w))).
Proof.
  intros ledger timeline r w.
  apply (checkFavorites_never_forgets r 50 w "7"). by eexists.
Defined.

(** ** Paths of the files *)

Lemma app_assoc_string (a b c : string) : (a +:+ b) +:+ c = a +:+ (b +:+ c).
Proof.
  induction a as [|x a IH]; [done|].
  change (String x a +:+ b) with (String x (a +:+ b)).
  change (String x (a +:+ b) +:+ c) with (String x ((a +:+ b) +:+ c)).
  change (String x a +:+ (b +:+ c)) with (String x (a +:+ (b +:+ c))).
  by rewrite IH.
Qed.

Lemma app_inv_head_string (a b c : string) : a +:+ b = a +:+ c → b = c.
Proof. apply (inj (String.app a)). Qed.

Lemma ends_with_sep_app (a b : string) :
  b ≠ "" → ends_with_sep (a +:+ b) = ends_with_sep b.
Proof.
  intros Hb. induction a as [|x a IH]; [done|].
  change (String x a +:+ b) with (String x (a +:+ b)).
  cbn [ends_with_sep]. destruct (a +:+ b) eqn:E; [|exact IH].
  destruct a; [done|discriminate].
Qed.

Lemma app_not_empty (a b : string) : b ≠ "" → a +:+ b ≠ "".
Proof. destruct a; [done|discriminate]. Qed.

Lemma path_join_relative dir b :
  String.prefix "/" b = false → path_join dir b = with_sep dir +:+ b.
Proof.
  intros Hb. unfold path_join, with_sep. rewrite Hb.
  destruct (String.eqb dir "" || ends_with_sep dir); [done|].
  cbv iota. by rewrite app_assoc_string.
Qed.

Lemma stateFilePath_eq dir f :
  stateFilePath dir f = with_sep dir +:+ "state/" +:+ state_file_name f.
Proof.
  unfold stateFilePath, getStateDirectory.
  rewrite (path_join_relative dir "state") by done.
  rewrite path_join_relative by (by destruct f).
  unfold with_sep at 1.
  assert (String.eqb (with_sep dir +:+ "state") "" = false) as ->.
  { apply String.eqb_neq. by apply app_not_empty. }
  rewrite ends_with_sep_app by done.
  change (false || ends_with_sep "state") with false. cbv iota.
  by rewrite !app_assoc_string.
Qed.

(** X19.  Where the files are, on a POSIX system and for every
    configuration directory, given or defaulted: the four state files
    have four different paths, none of which is the path of the
    credentials file or of the log file, which differ from each other;
    every state file is in the state directory, and the state directory,
    the credentials file and the log file are in the configuration
    directory. *)
Theorem state_paths_distinct given :
  let dir := configurationDirectory given in
  (∀ f g, stateFilePath dir f = stateFilePath dir g → f = g)
  ∧ (∀ f, stateFilePath dir f ≠ getCredentialsConfigFilename dir)
  ∧ (∀ f, stateFilePath dir f ≠ getLogFilename dir)
  ∧ getLogFilename dir ≠ getCredentialsConfigFilename dir
  ∧ (∀ f, ∃ rest, stateFilePath dir f = getStateDirectory dir +:+ rest
                  ∧ getStateDirectory dir = with_sep dir +:+ "state")
  ∧ getCredentialsConfigFilename dir = with_sep dir +:+ "credentials.ini"
  ∧ getLogFilename dir = with_sep dir +:+ "logs/EasyTweeter.log".
Proof.
  intros dir.
  assert (Hlog : getLogFilename dir = with_sep dir +:+ "logs/EasyTweeter.log").
  { unfold getLogFilename. rewrite (path_join_relative dir "logs") by done.
    rewrite path_join_relative by done. unfold with_sep at 1.
    assert (String.eqb (with_sep dir +:+ "logs") "" = false) as ->.
    { apply String.eqb_neq. by apply app_not_empty. }
    rewrite ends_with_sep_app by done.
    change (false || ends_with_sep "logs") with false. cbv iota.
    by rewrite !app_assoc_string. }
  assert (Hcred : getCredentialsConfigFilename dir
                  = with_sep dir +:+ "credentials.ini").
  { by apply path_join_relative. }
  split; [|split; [|split; [|split; [|split; [|split; [exact Hcred|exact Hlog]]]]]].
  - intros f g. rewrite !stateFilePath_eq. intros H%app_inv_head_string.
    by destruct f, g.
  - intros f. rewrite stateFilePath_eq, Hcred. intros H%app_inv_head_string.
    by destruct f.
  - intros f. rewrite stateFilePath_eq, Hlog. intros H%app_inv_head_string.
    by destruct f.
  - rewrite Hlog, Hcred. by intros H%app_inv_head_string.
  - intros f. exists ("/" +:+ state_file_name f).
    rewrite stateFilePath_eq. unfold getStateDirectory.
    rewrite (path_join_relative dir "state") by done.
    split; [|done]. by rewrite !app_assoc_string.
Qed.
